(** * Goon module: event queue, handler registry, recency cache, object pool

    A shallow embedding of [goon-module.c] and the properties of its
    event-dispatch pipeline.

    Conventions of the embedding.
    - A pointer is an [option loc]: [None] is [NULL].  Events and handlers
      live in heaps ([gmap loc _]) and are linked through their [next]
      fields exactly as in the C structures.
    - [size_t], [uint32_t] and [uint64_t] values are integers of [Z] with the
      wrap-around written where the C code increments or decrements them.
    - A C string is the [string] of the characters before its terminating
      NUL; [strncpy (GOON_MAX_NAME_LEN - 1)] is the truncation the code
      applies when it stores a name or a key.
    - [double] quantities (the handler's [avg_exec_time] and the elapsed
      time of a call) are IEEE 754 binary64 numbers, the [spec_float] of the
      standard library with precision 53: every conversion and operation
      rounds to nearest, ties to even, as the C code does on a machine that
      evaluates [double] expressions in [double].
    - [malloc], [time] and [clock] are inputs: an allocation flag, the value
      read from the wall clock, and a clock field of the machine that the
      callbacks advance. *)

From Stdlib Require Import ZArith SpecFloat String Ascii List Lia.
From stdpp Require Import gmap strings list fin_maps.

Local Open Scope Z_scope.

(** ** Constants *)

Definition GOON_MAX_NAME_LEN : nat := 128.
Definition GOON_MAX_QUEUE_SIZE : Z := 1024.
Definition GOON_MAX_STACK_SIZE : nat := 512.
Definition GOON_CACHE_SIZE : nat := 64.
Definition GOON_POOL_SIZE : nat := 128.

Definition GOON_SUCCESS : Z := 0.
Definition GOON_ERROR : Z := -1.
Definition GOON_ERROR_NULL_PTR : Z := -2.
Definition GOON_ERROR_INVALID_PARAM : Z := -3.
Definition GOON_ERROR_OUT_OF_MEMORY : Z := -4.
Definition GOON_ERROR_NOT_FOUND : Z := -5.
Definition GOON_ERROR_OVERFLOW : Z := -6.
Definition GOON_ERROR_UNDERFLOW : Z := -7.

(** [CLOCKS_PER_SEC] of <time.h>; POSIX fixes it to one million. *)
Definition CLOCKS_PER_SEC : Z := 1000000.

(** ** Machine integers *)

Definition wrap32 (z : Z) : Z := z mod 2 ^ 32.
Definition wrap64 (z : Z) : Z := z mod 2 ^ 64.

(** Two's complement reading of the low [w] bits. *)
Definition swrap (w : Z) (z : Z) : Z :=
  (z + 2 ^ (w - 1)) mod 2 ^ w - 2 ^ (w - 1).

(** ** Floating point *)

(** The C type [double]: binary64, 53 bits of precision, exponents below
    1024. *)
Definition double := spec_float.

Definition double_prec : Z := 53.
Definition double_emax : Z := 1024.

(** [(double)z] for an integer [z]: the nearest [double]. *)
Definition Z2double (z : Z) : double :=
  binary_normalize double_prec double_emax z 0 false.

(** [x + y], [x * y] and [x / y] on [double]s. *)
Definition dadd (x y : double) : double := SFadd double_prec double_emax x y.
Definition dmul (x y : double) : double := SFmul double_prec double_emax x y.
Definition ddiv (x y : double) : double := SFdiv double_prec double_emax x y.

(** [0.0] *)
Definition dzero : double := S754_zero false.

(** ** Pointers *)

Definition loc := positive.
Abbreviation ptr := (option loc).

(** Address of a callback: the meaning of the code behind it is given by the
    [call] parameter of the driver. *)
Definition func_ptr := N.

(** ** Enumerations *)

Inductive goon_state_t :=
| GOON_STATE_IDLE
| GOON_STATE_INITIALIZING
| GOON_STATE_RUNNING
| GOON_STATE_PAUSED
| GOON_STATE_STOPPING
| GOON_STATE_ERROR
| GOON_STATE_TERMINATED.

Global Instance goon_state_eq_dec : EqDecision goon_state_t.
Proof. solve_decision. Defined.

Inductive goon_data_type_t :=
| GOON_TYPE_INT
| GOON_TYPE_FLOAT
| GOON_TYPE_STRING
| GOON_TYPE_POINTER
| GOON_TYPE_BOOL
| GOON_TYPE_CUSTOM.

(** [goon_priority_t] is kept as the [int] it is in C: [goon_event_deserialize]
    casts whatever integer it parsed to the enumeration. *)
Definition GOON_PRIORITY_LOW : Z := 0.
Definition GOON_PRIORITY_NORMAL : Z := 1.
Definition GOON_PRIORITY_HIGH : Z := 2.
Definition GOON_PRIORITY_CRITICAL : Z := 3.

(** ** Strings *)

(** [strncpy(dst, src, n); dst[n] = 0]: the first [n] characters of [src]. *)
Fixpoint strncpy (n : nat) (src : string) : string :=
  match n, src with
  | S n', String c rest => String c (strncpy n' rest)
  | _, _ => EmptyString
  end.

(** [strcmp(a, b) == 0] *)
Definition streq (a b : string) : bool := bool_decide (a = b).

(** ** Structures *)

Record goon_data := {
  d_type : goon_data_type_t;
  d_size : Z;
  d_value : option (list Byte.byte);
  d_cleanup : option func_ptr
}.

Record goon_event := {
  ev_id : Z;
  ev_name : string;
  ev_priority : Z;
  ev_timestamp : Z;
  ev_data : option goon_data;
  ev_user_data : ptr;
  ev_next : ptr
}.

Record goon_handler := {
  h_id : Z;
  h_name : string;
  h_func : func_ptr;
  h_user_data : ptr;
  h_enabled : bool;
  h_call_count : Z;
  h_error_count : Z;
  h_avg_exec_time : double;
  h_next : ptr
}.

Record goon_queue := {
  q_head : ptr;
  q_tail : ptr;
  q_size : Z;
  q_max_size : Z
}.

Record goon_stack := {
  s_items : list ptr;
  s_size : nat;
  s_capacity : nat
}.

Record goon_cache := {
  c_keys : list string;
  c_values : list (option (list Byte.byte));
  c_timestamps : list Z;
  c_sizes : list Z;
  c_count : nat
}.

Record goon_pool := {
  p_objects : list ptr;
  p_in_use : list bool;
  p_size : nat;
  p_capacity : nat
}.

Record goon_context := {
  ctx_id : Z;
  ctx_name : string;
  ctx_state : goon_state_t;
  ctx_handlers : ptr;
  ctx_handler_count : Z;
  ctx_event_queue : goon_queue;
  ctx_call_stack : goon_stack;
  ctx_cache : goon_cache;
  ctx_memory_pool : goon_pool;
  ctx_event_count : Z;
  ctx_total_events_processed : Z;
  ctx_start_time : Z;
  ctx_user_data : ptr;
  ctx_debug_mode : bool
}.

(** The process-wide counters [g_next_handler_id], [g_next_event_id] and
    [g_next_context_id]. *)
Record globals := {
  g_next_handler_id : Z;
  g_next_event_id : Z;
  g_next_context_id : Z
}.

(** ** Events *)

Definition set_ev_next (n : ptr) (e : goon_event) : goon_event :=
  {| ev_id := ev_id e; ev_name := ev_name e; ev_priority := ev_priority e;
     ev_timestamp := ev_timestamp e; ev_data := ev_data e;
     ev_user_data := ev_user_data e; ev_next := n |}.

(** [goon_event_create]: the new object and the advanced id counter; [mem]
    tells whether [malloc] succeeds and [now] is the reading of [time(NULL)]. *)
Definition goon_event_create (name : string) (priority : Z)
    (g : globals) (now : Z) (mem : bool) : option goon_event * globals :=
  if mem then
    (Some {| ev_id := g_next_event_id g;
             ev_name := strncpy (GOON_MAX_NAME_LEN - 1) name;
             ev_priority := priority;
             ev_timestamp := now;
             ev_data := None;
             ev_user_data := None;
             ev_next := None |},
     {| g_next_handler_id := g_next_handler_id g;
        g_next_event_id := wrap32 (g_next_event_id g + 1);
        g_next_context_id := g_next_context_id g |})
  else (None, g).

(** [goon_event_destroy]: the payload and the event are freed, the location
    leaves the heap. *)
Definition goon_event_destroy (E : gmap loc goon_event) (event : ptr)
    : gmap loc goon_event :=
  match event with
  | None => E
  | Some e => delete e E
  end.

(** ** Queue *)

Definition goon_queue_create (max_size : Z) : goon_queue :=
  {| q_head := None; q_tail := None; q_size := 0;
     q_max_size := if 0 <? max_size then max_size else GOON_MAX_QUEUE_SIZE |}.

(** [goon_queue_push] on a non-null queue.  Writing through a pointer to an
    event that is not allocated is undefined in C; [alter] leaves the heap as
    it is there. *)
Definition goon_queue_push (E : gmap loc goon_event) (queue : goon_queue)
    (event : ptr) : Z * gmap loc goon_event * goon_queue :=
  match event with
  | None => (GOON_ERROR_NULL_PTR, E, queue)
  | Some e =>
    if q_max_size queue <=? q_size queue then (GOON_ERROR_OVERFLOW, E, queue)
    else
      let E1 := alter (set_ev_next None) e E in
      let '(E2, head) :=
        match q_tail queue with
        | Some t => (alter (set_ev_next (Some e)) t E1, q_head queue)
        | None => (E1, Some e)
        end in
      (GOON_SUCCESS, E2,
       {| q_head := head; q_tail := Some e;
          q_size := wrap64 (q_size queue + 1);
          q_max_size := q_max_size queue |})
  end.

(** [goon_queue_pop] on a non-null queue.  [event->next] of an unallocated
    head (undefined in C) reads as [NULL]. *)
Definition goon_queue_pop (E : gmap loc goon_event) (queue : goon_queue)
    : ptr * gmap loc goon_event * goon_queue :=
  match q_head queue with
  | None => (None, E, queue)
  | Some e =>
    let next := E !! e ≫= ev_next in
    (Some e, alter (set_ev_next None) e E,
     {| q_head := next;
        q_tail := match next with None => None | Some _ => q_tail queue end;
        q_size := wrap64 (q_size queue - 1);
        q_max_size := q_max_size queue |})
  end.

Definition goon_queue_size (queue : goon_queue) : Z := q_size queue.

Definition goon_queue_is_empty (queue : goon_queue) : bool :=
  q_size queue =? 0.

(** A run of pushes and a run of pops, as a client issues them. *)
Fixpoint push_all (E : gmap loc goon_event) (queue : goon_queue)
    (events : list loc) : list Z * gmap loc goon_event * goon_queue :=
  match events with
  | [] => ([], E, queue)
  | e :: rest =>
    let '(rc, E1, q1) := goon_queue_push E queue (Some e) in
    let '(rcs, E2, q2) := push_all E1 q1 rest in
    (rc :: rcs, E2, q2)
  end.

Fixpoint pop_n (n : nat) (E : gmap loc goon_event) (queue : goon_queue)
    : list ptr * gmap loc goon_event * goon_queue :=
  match n with
  | O => ([], E, queue)
  | S n' =>
    let '(r, E1, q1) := goon_queue_pop E queue in
    let '(rs, E2, q2) := pop_n n' E1 q1 in
    (r :: rs, E2, q2)
  end.

(** ** Array scans *)

(** [for (i = start; i < start + n; i++) if (test i) return i;]: the first
    index of the range that passes the test. *)
Fixpoint first_index (test : nat → bool) (start n : nat) : option nat :=
  match n with
  | O => None
  | S n' => if test start then Some start else first_index test (S start) n'
  end.

(** Reads of C arrays.  An index beyond the list is outside the array in C
    (undefined); the model reads the zero value there. *)
Definition read_ptr (a : list ptr) (i : nat) : ptr := mjoin (a !! i).
Definition read_flag (a : list bool) (i : nat) : bool := default false (a !! i).
Definition read_time (a : list Z) (i : nat) : Z := default 0 (a !! i).
Definition read_key (a : list string) (i : nat) : string :=
  default EmptyString (a !! i).

(** ** Recency cache *)

Definition goon_cache_create : goon_cache :=
  {| c_keys := replicate GOON_CACHE_SIZE EmptyString;
     c_values := replicate GOON_CACHE_SIZE None;
     c_timestamps := replicate GOON_CACHE_SIZE 0;
     c_sizes := replicate GOON_CACHE_SIZE 0;
     c_count := 0 |}.

(** The scan for an existing key: first [i < count] with
    [strcmp(keys[i], key) == 0]. *)
Definition cache_find (cache : goon_cache) (key : string) : option nat :=
  first_index (λ i, streq (read_key (c_keys cache) i) key) 0 (c_count cache).

(** The eviction scan of [goon_cache_set]: [i] runs over [n] indices from
    [i]; a slot replaces the candidate only when it is strictly older. *)
Fixpoint oldest_scan (timestamps : list Z) (i n : nat)
    (oldest_idx : nat) (oldest_time : Z) : nat :=
  match n with
  | O => oldest_idx
  | S n' =>
    if read_time timestamps i <? oldest_time
    then oldest_scan timestamps (S i) n' i (read_time timestamps i)
    else oldest_scan timestamps (S i) n' oldest_idx oldest_time
  end.

Definition cache_oldest (cache : goon_cache) : nat :=
  oldest_scan (c_timestamps cache) 1 (GOON_CACHE_SIZE - 1) 0
    (read_time (c_timestamps cache) 0).

(** [malloc(size)] followed by [memcpy(.., value, size)]: the first [size]
    bytes of the caller's buffer. *)
Definition copy_bytes (value : list Byte.byte) (size : Z) : list Byte.byte :=
  take (Z.to_nat size) value.

(** [goon_cache_set] on non-null arguments.  [now] is the reading of
    [time(NULL)], [mem] tells whether the [malloc] of the value succeeds.

    On a failed allocation the slot keeps what was written before the
    [malloc]: the key (for a new entry) and a [NULL] value. *)
Definition goon_cache_set (cache : goon_cache) (key : string)
    (value : list Byte.byte) (size : Z) (now : Z) (mem : bool)
    : Z * goon_cache :=
  match cache_find cache key with
  | Some i =>
    if mem then
      (GOON_SUCCESS,
       {| c_keys := c_keys cache;
          c_values := <[i := Some (copy_bytes value size)]> (c_values cache);
          c_timestamps := <[i := now]> (c_timestamps cache);
          c_sizes := <[i := size]> (c_sizes cache);
          c_count := c_count cache |})
    else
      (GOON_ERROR_OUT_OF_MEMORY,
       {| c_keys := c_keys cache;
          c_values := <[i := None]> (c_values cache);
          c_timestamps := c_timestamps cache;
          c_sizes := c_sizes cache;
          c_count := c_count cache |})
  | None =>
    if (GOON_CACHE_SIZE <=? c_count cache)%nat then
      let oldest_idx := cache_oldest cache in
      let keys := <[oldest_idx := strncpy (GOON_MAX_NAME_LEN - 1) key]>
                    (c_keys cache) in
      if mem then
        (GOON_SUCCESS,
         {| c_keys := keys;
            c_values := <[oldest_idx := Some (copy_bytes value size)]>
                          (c_values cache);
            c_timestamps := <[oldest_idx := now]> (c_timestamps cache);
            c_sizes := <[oldest_idx := size]> (c_sizes cache);
            c_count := c_count cache |})
      else
        (GOON_ERROR_OUT_OF_MEMORY,
         {| c_keys := keys;
            c_values := <[oldest_idx := None]> (c_values cache);
            c_timestamps := c_timestamps cache;
            c_sizes := c_sizes cache;
            c_count := c_count cache |})
    else
      let n := c_count cache in
      let keys := <[n := strncpy (GOON_MAX_NAME_LEN - 1) key]>
                    (c_keys cache) in
      if mem then
        (GOON_SUCCESS,
         {| c_keys := keys;
            c_values := <[n := Some (copy_bytes value size)]> (c_values cache);
            c_timestamps := <[n := now]> (c_timestamps cache);
            c_sizes := <[n := size]> (c_sizes cache);
            c_count := S n |})
      else
        (GOON_ERROR_OUT_OF_MEMORY,
         {| c_keys := keys;
            c_values := <[n := None]> (c_values cache);
            c_timestamps := c_timestamps cache;
            c_sizes := c_sizes cache;
            c_count := n |})
  end.

(** [goon_cache_get]: the value and its size on a hit, whose timestamp is
    refreshed to [now]. *)
Definition goon_cache_get (cache : goon_cache) (key : string) (now : Z)
    : option (option (list Byte.byte) * Z) * goon_cache :=
  match cache_find cache key with
  | Some i =>
    (Some (mjoin (c_values cache !! i), default 0 (c_sizes cache !! i)),
     {| c_keys := c_keys cache;
        c_values := c_values cache;
        c_timestamps := <[i := now]> (c_timestamps cache);
        c_sizes := c_sizes cache;
        c_count := c_count cache |})
  | None => (None, cache)
  end.

(** ** Object pool *)

Definition goon_pool_create (capacity : nat) : goon_pool :=
  let cap := if (0 <? capacity)%nat then capacity else GOON_POOL_SIZE in
  {| p_objects := replicate cap None;
     p_in_use := replicate cap false;
     p_size := 0;
     p_capacity := cap |}.

(** [goon_pool_acquire] on a non-null pool.  [alloc] is the pool's
    allocation callback: the pointer it returns for a requested size
    ([None] when it fails). *)
Definition goon_pool_acquire (pool : goon_pool) (size : Z) (alloc : Z → ptr)
    : ptr * goon_pool :=
  match first_index
          (λ i, negb (read_flag (p_in_use pool) i)
                && bool_decide (read_ptr (p_objects pool) i ≠ None))
          0 (p_size pool) with
  | Some i =>
    (read_ptr (p_objects pool) i,
     {| p_objects := p_objects pool;
        p_in_use := <[i := true]> (p_in_use pool);
        p_size := p_size pool;
        p_capacity := p_capacity pool |})
  | None =>
    if (p_size pool <? p_capacity pool)%nat then
      match alloc size with
      | None => (None, pool)
      | Some obj =>
        (Some obj,
         {| p_objects := <[p_size pool := Some obj]> (p_objects pool);
            p_in_use := <[p_size pool := true]> (p_in_use pool);
            p_size := S (p_size pool);
            p_capacity := p_capacity pool |})
      end
    else (None, pool)
  end.

(** [goon_pool_release] on a non-null pool. *)
Definition goon_pool_release (pool : goon_pool) (obj : ptr)
    : Z * goon_pool :=
  match obj with
  | None => (GOON_ERROR_NULL_PTR, pool)
  | Some o =>
    match first_index
            (λ i, bool_decide (read_ptr (p_objects pool) i = Some o))
            0 (p_size pool) with
    | Some i =>
      (GOON_SUCCESS,
       {| p_objects := p_objects pool;
          p_in_use := <[i := false]> (p_in_use pool);
          p_size := p_size pool;
          p_capacity := p_capacity pool |})
    | None => (GOON_ERROR_NOT_FOUND, pool)
    end
  end.

(** ** Handlers *)

(** [goon_handler_create] with a non-null name and function; [mem] tells
    whether [malloc] succeeds. *)
Definition goon_handler_create (name : string) (func : func_ptr)
    (user_data : ptr) (g : globals) (mem : bool)
    : option goon_handler * globals :=
  if mem then
    (Some {| h_id := g_next_handler_id g;
             h_name := strncpy (GOON_MAX_NAME_LEN - 1) name;
             h_func := func;
             h_user_data := user_data;
             h_enabled := true;
             h_call_count := 0;
             h_error_count := 0;
             h_avg_exec_time := dzero;
             h_next := None |},
     {| g_next_handler_id := wrap32 (g_next_handler_id g + 1);
        g_next_event_id := g_next_event_id g;
        g_next_context_id := g_next_context_id g |})
  else (None, g).

Definition set_h_next (n : ptr) (h : goon_handler) : goon_handler :=
  {| h_id := h_id h; h_name := h_name h; h_func := h_func h;
     h_user_data := h_user_data h; h_enabled := h_enabled h;
     h_call_count := h_call_count h; h_error_count := h_error_count h;
     h_avg_exec_time := h_avg_exec_time h; h_next := n |}.

Definition set_h_enabled (b : bool) (h : goon_handler) : goon_handler :=
  {| h_id := h_id h; h_name := h_name h; h_func := h_func h;
     h_user_data := h_user_data h; h_enabled := b;
     h_call_count := h_call_count h; h_error_count := h_error_count h;
     h_avg_exec_time := h_avg_exec_time h; h_next := h_next h |}.

(** [goon_handler_enable] and [goon_handler_disable] on the handler heap. *)
Definition goon_handler_enable (H : gmap loc goon_handler) (handler : ptr)
    : Z * gmap loc goon_handler :=
  match handler with
  | None => (GOON_ERROR_NULL_PTR, H)
  | Some h => (GOON_SUCCESS, alter (set_h_enabled true) h H)
  end.

Definition goon_handler_disable (H : gmap loc goon_handler) (handler : ptr)
    : Z * gmap loc goon_handler :=
  match handler with
  | None => (GOON_ERROR_NULL_PTR, H)
  | Some h => (GOON_SUCCESS, alter (set_h_enabled false) h H)
  end.

(** The three statements of the driver that account one call:
    [call_count++], the update of the running mean
    [avg = (avg * (call_count - 1) + exec_time) / call_count] in [double]
    arithmetic, with the two [uint64_t] operands converted to [double], and
    [error_count++] when the result is not [GOON_SUCCESS]. *)
Definition record_call (result : Z) (exec_time : double) (h : goon_handler)
    : goon_handler :=
  let call_count := wrap64 (h_call_count h + 1) in
  {| h_id := h_id h; h_name := h_name h; h_func := h_func h;
     h_user_data := h_user_data h; h_enabled := h_enabled h;
     h_call_count := call_count;
     h_error_count :=
       if result =? GOON_SUCCESS then h_error_count h
       else wrap64 (h_error_count h + 1);
     h_avg_exec_time :=
       ddiv (dadd (dmul (h_avg_exec_time h)
                     (Z2double (wrap64 (call_count - 1))))
               exec_time)
         (Z2double call_count);
     h_next := h_next h |}.

(** ** The machine *)

(** One context with the heaps its pointers reach: the events, the handlers,
    the [int] cells that [user_data] pointers refer to, and the processor
    clock read by [clock()]. *)
Record machine := {
  m_events : gmap loc goon_event;
  m_handlers : gmap loc goon_handler;
  m_user : gmap loc Z;
  m_clock : Z;
  m_ctx : goon_context
}.

Definition set_ctx (c : goon_context) (m : machine) : machine :=
  {| m_events := m_events m; m_handlers := m_handlers m; m_user := m_user m;
     m_clock := m_clock m; m_ctx := c |}.

Definition set_events (E : gmap loc goon_event) (m : machine) : machine :=
  {| m_events := E; m_handlers := m_handlers m; m_user := m_user m;
     m_clock := m_clock m; m_ctx := m_ctx m |}.

Definition set_handlers (H : gmap loc goon_handler) (m : machine) : machine :=
  {| m_events := m_events m; m_handlers := H; m_user := m_user m;
     m_clock := m_clock m; m_ctx := m_ctx m |}.

Definition set_ctx_state (s : goon_state_t) (c : goon_context)
    : goon_context :=
  {| ctx_id := ctx_id c; ctx_name := ctx_name c; ctx_state := s;
     ctx_handlers := ctx_handlers c;
     ctx_handler_count := ctx_handler_count c;
     ctx_event_queue := ctx_event_queue c;
     ctx_call_stack := ctx_call_stack c; ctx_cache := ctx_cache c;
     ctx_memory_pool := ctx_memory_pool c;
     ctx_event_count := ctx_event_count c;
     ctx_total_events_processed := ctx_total_events_processed c;
     ctx_start_time := ctx_start_time c; ctx_user_data := ctx_user_data c;
     ctx_debug_mode := ctx_debug_mode c |}.

Definition set_ctx_registry (handlers : ptr) (count : Z) (c : goon_context)
    : goon_context :=
  {| ctx_id := ctx_id c; ctx_name := ctx_name c; ctx_state := ctx_state c;
     ctx_handlers := handlers;
     ctx_handler_count := count;
     ctx_event_queue := ctx_event_queue c;
     ctx_call_stack := ctx_call_stack c; ctx_cache := ctx_cache c;
     ctx_memory_pool := ctx_memory_pool c;
     ctx_event_count := ctx_event_count c;
     ctx_total_events_processed := ctx_total_events_processed c;
     ctx_start_time := ctx_start_time c; ctx_user_data := ctx_user_data c;
     ctx_debug_mode := ctx_debug_mode c |}.

Definition set_ctx_queue (q : goon_queue) (c : goon_context) : goon_context :=
  {| ctx_id := ctx_id c; ctx_name := ctx_name c; ctx_state := ctx_state c;
     ctx_handlers := ctx_handlers c;
     ctx_handler_count := ctx_handler_count c;
     ctx_event_queue := q;
     ctx_call_stack := ctx_call_stack c; ctx_cache := ctx_cache c;
     ctx_memory_pool := ctx_memory_pool c;
     ctx_event_count := ctx_event_count c;
     ctx_total_events_processed := ctx_total_events_processed c;
     ctx_start_time := ctx_start_time c; ctx_user_data := ctx_user_data c;
     ctx_debug_mode := ctx_debug_mode c |}.

Definition set_ctx_event_count (n : Z) (c : goon_context) : goon_context :=
  {| ctx_id := ctx_id c; ctx_name := ctx_name c; ctx_state := ctx_state c;
     ctx_handlers := ctx_handlers c;
     ctx_handler_count := ctx_handler_count c;
     ctx_event_queue := ctx_event_queue c;
     ctx_call_stack := ctx_call_stack c; ctx_cache := ctx_cache c;
     ctx_memory_pool := ctx_memory_pool c;
     ctx_event_count := n;
     ctx_total_events_processed := ctx_total_events_processed c;
     ctx_start_time := ctx_start_time c; ctx_user_data := ctx_user_data c;
     ctx_debug_mode := ctx_debug_mode c |}.

Definition set_ctx_processed (n : Z) (c : goon_context) : goon_context :=
  {| ctx_id := ctx_id c; ctx_name := ctx_name c; ctx_state := ctx_state c;
     ctx_handlers := ctx_handlers c;
     ctx_handler_count := ctx_handler_count c;
     ctx_event_queue := ctx_event_queue c;
     ctx_call_stack := ctx_call_stack c; ctx_cache := ctx_cache c;
     ctx_memory_pool := ctx_memory_pool c;
     ctx_event_count := ctx_event_count c;
     ctx_total_events_processed := n;
     ctx_start_time := ctx_start_time c; ctx_user_data := ctx_user_data c;
     ctx_debug_mode := ctx_debug_mode c |}.

(** [goon_context_create] with every component allocated: the context of a
    successful [goon_init] before its state is set. *)
Definition goon_context_create (name : string) (g : globals) (now : Z)
    : goon_context * globals :=
  ({| ctx_id := g_next_context_id g;
      ctx_name := strncpy (GOON_MAX_NAME_LEN - 1) name;
      ctx_state := GOON_STATE_IDLE;
      ctx_handlers := None;
      ctx_handler_count := 0;
      ctx_event_queue := goon_queue_create GOON_MAX_QUEUE_SIZE;
      ctx_call_stack :=
        {| s_items := replicate GOON_MAX_STACK_SIZE None; s_size := 0;
           s_capacity := GOON_MAX_STACK_SIZE |};
      ctx_cache := goon_cache_create;
      ctx_memory_pool := goon_pool_create GOON_POOL_SIZE;
      ctx_event_count := 0;
      ctx_total_events_processed := 0;
      ctx_start_time := now;
      ctx_user_data := None;
      ctx_debug_mode := false |},
   {| g_next_handler_id := g_next_handler_id g;
      g_next_event_id := g_next_event_id g;
      g_next_context_id := wrap32 (g_next_context_id g + 1) |}).

(** [goon_context_register_handler] on a non-null context: head insertion.
    Logging is not modelled. *)
Definition goon_context_register_handler (m : machine) (handler : ptr)
    : Z * machine :=
  match handler with
  | None => (GOON_ERROR_NULL_PTR, m)
  | Some h =>
    let H := alter (set_h_next (ctx_handlers (m_ctx m))) h (m_handlers m) in
    (GOON_SUCCESS,
     set_ctx (set_ctx_registry (Some h)
                (wrap64 (ctx_handler_count (m_ctx m) + 1)) (m_ctx m))
       (set_handlers H m))
  end.

(** A run of registrations, as [goon_context_register_batch] and [main]
    issue them. *)
Definition register_all (m : machine) (handlers : list loc) : machine :=
  foldl (λ m h, (goon_context_register_handler m (Some h)).2) m handlers.

Definition goon_context_set_state (m : machine) (state : goon_state_t)
    : Z * machine :=
  (GOON_SUCCESS, set_ctx (set_ctx_state state (m_ctx m)) m).

Definition goon_context_get_state (m : machine) : goon_state_t :=
  ctx_state (m_ctx m).

(** [goon_context_emit_event] on a non-null context. *)
Definition goon_context_emit_event (m : machine) (event : ptr)
    : Z * machine :=
  match event with
  | None => (GOON_ERROR_NULL_PTR, m)
  | Some _ =>
    let '(result, E, q) :=
      goon_queue_push (m_events m) (ctx_event_queue (m_ctx m)) event in
    let m1 := set_ctx (set_ctx_queue q (m_ctx m)) (set_events E m) in
    if result =? GOON_SUCCESS then
      (result,
       set_ctx (set_ctx_event_count
                  (wrap64 (ctx_event_count (m_ctx m1) + 1)) (m_ctx m1)) m1)
    else (result, m1)
  end.

(** ** The driver *)

(** Result of a loop of the driver: a value, a run that needs more [fuel],
    or the dereference of a pointer that is not allocated. *)
Inductive outcome (A : Type) :=
| Done (a : A)
| OutOfFuel
| Undefined.
Arguments Done {A} a.
Arguments OutOfFuel {A}.
Arguments Undefined {A}.

Global Instance outcome_bind : MBind outcome := λ A B k o,
  match o with
  | Done a => k a
  | OutOfFuel => OutOfFuel
  | Undefined => Undefined
  end.

(** One invocation of a handler as the driver observes it. *)
Record call_record := {
  cr_handler : loc;
  cr_event : loc;
  cr_result : Z;
  cr_exec_time : double
}.

(** [((double)(end - start)) / CLOCKS_PER_SEC * 1000.0]: the difference of
    the two [clock_t] readings is converted to [double], divided by
    [CLOCKS_PER_SEC] as a [double] and multiplied by [1000.0]. *)
Definition exec_time_ms (start end_ : Z) : double :=
  dmul (ddiv (Z2double (end_ - start)) (Z2double CLOCKS_PER_SEC))
    (Z2double 1000).

Section driver.

(** [call f m event user_data] runs the callback at address [f] with the
    context of [m]: its [int] result and the machine it leaves. *)
Variable call : func_ptr → machine → loc → ptr → Z * machine.

(** The inner loop of [goon_context_process_events]: the walk over the
    handler list for one event, from [handler] on. *)
Fixpoint dispatch (fuel : nat) (m : machine) (event : loc) (handler : ptr)
    : outcome (machine * list call_record) :=
  match handler with
  | None => Done (m, [])
  | Some h =>
    match fuel with
    | O => OutOfFuel
    | S fuel' =>
      match m_handlers m !! h with
      | None => Undefined
      | Some hd =>
        if h_enabled hd then
          let start := m_clock m in
          let '(result, m1) := call (h_func hd) m event (h_user_data hd) in
          let end_ := m_clock m1 in
          let exec_time := exec_time_ms start end_ in
          match m_handlers m1 !! h with
          | None => Undefined
          | Some hd1 =>
            let hd2 := record_call result exec_time hd1 in
            let m2 := set_handlers (<[h := hd2]> (m_handlers m1)) m1 in
            '(m3, trace) ← dispatch fuel' m2 event (h_next hd2);
            Done (m3,
                  {| cr_handler := h; cr_event := event;
                     cr_result := result; cr_exec_time := exec_time |}
                  :: trace)
          end
        else dispatch fuel' m event (h_next hd)
      end
    end
  end.

(** The outer loop: pop, dispatch, destroy, count.  [processed] is the
    local counter of the C function. *)
Fixpoint process_loop (fuel : nat) (m : machine) (processed : Z)
    : outcome (Z * machine * list call_record) :=
  if goon_queue_is_empty (ctx_event_queue (m_ctx m))
  then Done (processed, m, [])
  else
    match fuel with
    | O => OutOfFuel
    | S fuel' =>
      let '(event, E, q) :=
        goon_queue_pop (m_events m) (ctx_event_queue (m_ctx m)) in
      let m1 := set_ctx (set_ctx_queue q (m_ctx m)) (set_events E m) in
      match event with
      | None => Done (processed, m1, [])
      | Some e =>
        '(m2, trace) ← dispatch fuel' m1 e (ctx_handlers (m_ctx m1));
        let m3 := set_events (goon_event_destroy (m_events m2) (Some e)) m2 in
        let m4 :=
          set_ctx (set_ctx_processed
                     (wrap64 (ctx_total_events_processed (m_ctx m3) + 1))
                     (m_ctx m3)) m3 in
        '(r, trace') ← process_loop fuel' m4 (processed + 1);
        Done (r, trace ++ trace')
      end
    end.

(** [goon_context_process_events] on a non-null context: the result, the
    machine it leaves and the calls it made, in order. *)
Definition goon_context_process_events (fuel : nat) (m : machine)
    : outcome (Z * machine * list call_record) :=
  if bool_decide (ctx_state (m_ctx m) ≠ GOON_STATE_RUNNING)
  then Done (GOON_ERROR, m, [])
  else process_loop fuel m 0.

Definition goon_start (m : machine) : Z * machine :=
  (GOON_SUCCESS, (goon_context_set_state m GOON_STATE_RUNNING).2).

(** [goon_stop] on a non-null context.  The result of the process pass is
    dropped, its effects stay. *)
Definition goon_stop (fuel : nat) (m : machine) : outcome (Z * machine) :=
  let m1 := (goon_context_set_state m GOON_STATE_STOPPING).2 in
  '(_, m2, _) ← goon_context_process_events fuel m1;
  let m3 := (goon_context_set_state m2 GOON_STATE_TERMINATED).2 in
  Done (GOON_SUCCESS, m3).

Definition goon_pause (m : machine) : Z * machine :=
  (GOON_SUCCESS, (goon_context_set_state m GOON_STATE_PAUSED).2).

Definition goon_resume (m : machine) : Z * machine :=
  (GOON_SUCCESS, (goon_context_set_state m GOON_STATE_RUNNING).2).

End driver.

(** ** Event text serialization *)

(** *** printf conversions *)

Definition digit_char (d : Z) : ascii := ascii_of_N (Z.to_N (48 + d)).

(** Decimal digits of [n ≥ 0], most significant first, in front of [acc]. *)
Fixpoint print_digits (fuel : nat) (n : Z) (acc : list ascii) : list ascii :=
  match fuel with
  | O => acc
  | S fuel' =>
    let acc' := digit_char (n mod 10) :: acc in
    if n <? 10 then acc' else print_digits fuel' (n / 10) acc'
  end.

(** [%u] and [%lu] *)
Definition print_unsigned (n : Z) : list ascii :=
  print_digits (S (Z.to_nat (Z.log2 n))) n [].

(** [%d] and [%ld] *)
Definition print_signed (n : Z) : list ascii :=
  if n <? 0 then "-"%char :: print_unsigned (- n) else print_unsigned n.

(** The text [snprintf] produces from
    ["EVENT{id:%u,name:%s,priority:%d,timestamp:%ld}"]. *)
Definition format_event (event : goon_event) : list ascii :=
  list_ascii_of_string "EVENT{id:" ++ print_unsigned (ev_id event)
  ++ list_ascii_of_string ",name:" ++ list_ascii_of_string (ev_name event)
  ++ list_ascii_of_string ",priority:" ++ print_signed (ev_priority event)
  ++ list_ascii_of_string ",timestamp:" ++ print_signed (ev_timestamp event)
  ++ list_ascii_of_string "}".

(** [goon_event_serialize] on a non-null event; [buffer] tells whether the
    buffer pointer is non-null.  The result and the string left in the
    buffer ([None]: the buffer is not written).  [snprintf] stores at most
    [buffer_size - 1] characters. *)
Definition goon_event_serialize (event : goon_event) (buffer : bool)
    (buffer_size : Z) : Z * option (list ascii) :=
  if negb buffer || (buffer_size =? 0) then (GOON_ERROR_NULL_PTR, None)
  else
    let text := format_event event in
    let written := Z.of_nat (length text) in
    let stored := take (Z.to_nat (buffer_size - 1)) text in
    if buffer_size <=? written then (GOON_ERROR_OVERFLOW, Some stored)
    else (GOON_SUCCESS, Some stored).

(** *** sscanf conversions *)

Definition is_digit (c : ascii) : bool :=
  (48 <=? N_of_ascii c)%N && (N_of_ascii c <=? 57)%N.

Definition digit_val (c : ascii) : Z := Z.of_N (N_of_ascii c) - 48.

Definition isspace (c : ascii) : bool :=
  (N_of_ascii c =? 32)%N || ((9 <=? N_of_ascii c)%N && (N_of_ascii c <=? 13)%N).

Fixpoint skip_space (s : list ascii) : list ascii :=
  match s with
  | c :: rest => if isspace c then skip_space rest else s
  | [] => []
  end.

(** The longest run of digits, accumulated in base ten. *)
Fixpoint scan_digits (s : list ascii) (acc : Z) : Z * list ascii :=
  match s with
  | c :: rest =>
    if is_digit c then scan_digits rest (acc * 10 + digit_val c) else (acc, s)
  | [] => (acc, [])
  end.

(** A decimal conversion ([%u], [%d], [%ld]): white space, an optional sign,
    at least one digit.  The value is the mathematical one; its storage in a
    C integer is applied by the caller. *)
Definition scan_int (s : list ascii) : option (Z * list ascii) :=
  let s1 := skip_space s in
  let '(negative, s2) :=
    match s1 with
    | c :: rest =>
      if Ascii.eqb c "-" then (true, rest)
      else if Ascii.eqb c "+" then (false, rest)
      else (false, s1)
    | [] => (false, s1)
    end in
  match s2 with
  | c :: _ =>
    if is_digit c then
      let '(v, rest) := scan_digits s2 0 in
      Some (if negative : bool then - v else v, rest)
    else None
  | [] => None
  end.

(** Ordinary characters of the format: each must be the next input
    character. *)
Fixpoint scan_literal (lit s : list ascii) : option (list ascii) :=
  match lit, s with
  | [], _ => Some s
  | l :: lit', c :: rest => if Ascii.eqb l c then scan_literal lit' rest else None
  | _ :: _, [] => None
  end.

(** The body of [%127[^,]]: up to [width] characters other than a comma. *)
Fixpoint scan_not_comma (width : nat) (s : list ascii)
    : list ascii * list ascii :=
  match width, s with
  | S w, c :: rest =>
    if Ascii.eqb c "," then ([], s)
    else let '(taken, rest') := scan_not_comma w rest in (c :: taken, rest')
  | _, _ => ([], s)
  end.

(** [%127[^,]] matches at least one character. *)
Definition scan_name (s : list ascii) : option (list ascii * list ascii) :=
  match scan_not_comma 127 s with
  | ([], _) => None
  | (name, rest) => Some (name, rest)
  end.

(** The integer conversions of [sscanf] go through [strtol] and [strtoul].
    A numeral whose value does not fit is undefined in ISO C; the model
    follows the C library of the platform (glibc), where [strtol] saturates
    at [LONG_MIN] and [LONG_MAX], and [strtoul] negates a negative numeral
    in [unsigned long] arithmetic and saturates at [ULONG_MAX] when the
    magnitude does not fit. *)
Definition strtol (v : Z) : Z := Z.max (- 2 ^ 63) (Z.min v (2 ^ 63 - 1)).

Definition strtoul (v : Z) : Z :=
  if 2 ^ 64 <=? Z.abs v then 2 ^ 64 - 1 else wrap64 v.

(** What [%u], [%d] and [%ld] store: the [unsigned long] cut to
    [unsigned int], the [long] cut to [int], the [long]. *)
Definition store_u (v : Z) : Z := wrap32 (strtoul v).
Definition store_d (v : Z) : Z := swrap 32 (strtol v).
Definition store_ld (v : Z) : Z := strtol v.

(** [sscanf(buffer, "EVENT{id:%u,name:%127[^,],priority:%d,timestamp:%ld}",
    ...) == 4]: the four converted values, [None] when fewer than four
    conversions succeed.  The closing brace comes after the last conversion
    and does not change the count. *)
Definition sscanf_event (buffer : list ascii) : option (Z * string * Z * Z) :=
  s1 ← scan_literal (list_ascii_of_string "EVENT{id:") buffer;
  '(id, s2) ← scan_int s1;
  s3 ← scan_literal (list_ascii_of_string ",name:") s2;
  '(name, s4) ← scan_name s3;
  s5 ← scan_literal (list_ascii_of_string ",priority:") s4;
  '(priority, s6) ← scan_int s5;
  s7 ← scan_literal (list_ascii_of_string ",timestamp:") s6;
  '(timestamp, _) ← scan_int s7;
  Some (store_u id, string_of_list_ascii name, store_d priority,
        store_ld timestamp).

(** [goon_event_deserialize]: the event it returns ([None] is [NULL]) and
    the id counter, which [goon_event_create] advances. *)
Definition goon_event_deserialize (buffer : option (list ascii))
    (g : globals) (now : Z) (mem : bool) : option goon_event * globals :=
  match buffer with
  | None => (None, g)
  | Some text =>
    match sscanf_event text with
    | None => (None, g)
    | Some (id, name, priority, timestamp) =>
      match goon_event_create name priority g now mem with
      | (Some event, g') =>
        (Some {| ev_id := id; ev_name := ev_name event;
                 ev_priority := ev_priority event;
                 ev_timestamp := timestamp;
                 ev_data := ev_data event;
                 ev_user_data := ev_user_data event;
                 ev_next := ev_next event |}, g')
      | (None, g') => (None, g')
      end
    end
  end.

(** ** Further operations *)

(** *** Stack *)

Definition goon_stack_create (capacity : nat) : goon_stack :=
  let cap := if (0 <? capacity)%nat then capacity else GOON_MAX_STACK_SIZE in
  {| s_items := replicate cap None; s_size := 0; s_capacity := cap |}.

(** [goon_stack_push] on a non-null stack: [items[size++] = item]. *)
Definition goon_stack_push (stack : goon_stack) (item : ptr)
    : Z * goon_stack :=
  if (s_capacity stack <=? s_size stack)%nat then (GOON_ERROR_OVERFLOW, stack)
  else
    (GOON_SUCCESS,
     {| s_items := <[s_size stack := item]> (s_items stack);
        s_size := S (s_size stack);
        s_capacity := s_capacity stack |}).

(** [goon_stack_pop] on a non-null stack: [items[--size]]; the cell keeps
    the item. *)
Definition goon_stack_pop (stack : goon_stack) : ptr * goon_stack :=
  if (s_size stack =? 0)%nat then (None, stack)
  else
    (read_ptr (s_items stack) (s_size stack - 1),
     {| s_items := s_items stack;
        s_size := s_size stack - 1;
        s_capacity := s_capacity stack |}).

Definition goon_stack_peek (stack : goon_stack) : ptr :=
  if (s_size stack =? 0)%nat then None
  else read_ptr (s_items stack) (s_size stack - 1).

Definition goon_stack_size (stack : goon_stack) : nat := s_size stack.

Definition goon_stack_is_empty (stack : goon_stack) : bool :=
  (s_size stack =? 0)%nat.

(** A run of pushes and a run of pops. *)
Fixpoint stack_push_all (stack : goon_stack) (items : list ptr)
    : list Z * goon_stack :=
  match items with
  | [] => ([], stack)
  | item :: rest =>
    let '(rc, s1) := goon_stack_push stack item in
    let '(rcs, s2) := stack_push_all s1 rest in
    (rc :: rcs, s2)
  end.

Fixpoint stack_pop_n (n : nat) (stack : goon_stack)
    : list ptr * goon_stack :=
  match n with
  | O => ([], stack)
  | S n' =>
    let '(r, s1) := goon_stack_pop stack in
    let '(rs, s2) := stack_pop_n n' s1 in
    (r :: rs, s2)
  end.

(** *** Cache: removal and clearing *)

(** [for (j = start; j < start + n; j++) a[j] = a[j + 1];]  A read beyond
    the array (undefined in C) leaves the cell as it is. *)
Fixpoint shift_left {A} (a : list A) (j n : nat) : list A :=
  match n with
  | O => a
  | S n' =>
    shift_left (match a !! S j with Some x => <[j := x]> a | None => a end)
      (S j) n'
  end.

(** [goon_cache_remove] on non-null arguments.  The value of the removed
    slot is freed ([None]: the slot owns no buffer) before the slots behind
    it move one place down; the last slot in use keeps a stale copy. *)
Definition goon_cache_remove (cache : goon_cache) (key : string)
    : Z * goon_cache :=
  match cache_find cache key with
  | Some i =>
    let n := (c_count cache - 1 - i)%nat in
    (GOON_SUCCESS,
     {| c_keys := shift_left (c_keys cache) i n;
        c_values := shift_left (<[i := None]> (c_values cache)) i n;
        c_timestamps := shift_left (c_timestamps cache) i n;
        c_sizes := shift_left (c_sizes cache) i n;
        c_count := (c_count cache - 1)%nat |})
  | None => (GOON_ERROR_NOT_FOUND, cache)
  end.

(** [for (i = 0; i < n; i++) if (values[i]) { free(values[i]);
    values[i] = NULL; }] *)
Fixpoint clear_values (values : list (option (list Byte.byte))) (i n : nat)
    : list (option (list Byte.byte)) :=
  match n with
  | O => values
  | S n' => clear_values (<[i := None]> values) (S i) n'
  end.

Definition goon_cache_clear (cache : goon_cache) : goon_cache :=
  {| c_keys := c_keys cache;
     c_values := clear_values (c_values cache) 0 (c_count cache);
     c_timestamps := c_timestamps cache;
     c_sizes := c_sizes cache;
     c_count := 0 |}.

(** *** Configuration store *)

Definition GOON_BUFFER_SIZE : nat := 4096.

Record goon_config_entry := {
  e_key : string;
  e_value : string
}.

Record goon_config := {
  cfg_entries : list goon_config_entry;
  cfg_count : nat;
  cfg_capacity : nat
}.

(** [goon_config_create] with both allocations succeeding: [calloc] zeroes
    the entries. *)
Definition goon_config_create (capacity : nat) : goon_config :=
  let cap := if (0 <? capacity)%nat then capacity else 64%nat in
  {| cfg_entries :=
       replicate cap {| e_key := EmptyString; e_value := EmptyString |};
     cfg_count := 0;
     cfg_capacity := cap |}.

Definition read_entry (a : list goon_config_entry) (i : nat)
    : goon_config_entry :=
  default {| e_key := EmptyString; e_value := EmptyString |} (a !! i).

Definition config_find (config : goon_config) (key : string) : option nat :=
  first_index (λ i, streq (e_key (read_entry (cfg_entries config) i)) key)
    0 (cfg_count config).

(** [goon_config_set] on non-null arguments. *)
Definition goon_config_set (config : goon_config) (key value : string)
    : Z * goon_config :=
  match config_find config key with
  | Some i =>
    (GOON_SUCCESS,
     {| cfg_entries :=
          <[i := {| e_key := e_key (read_entry (cfg_entries config) i);
                    e_value := strncpy (GOON_BUFFER_SIZE - 1) value |}]>
            (cfg_entries config);
        cfg_count := cfg_count config;
        cfg_capacity := cfg_capacity config |})
  | None =>
    if (cfg_capacity config <=? cfg_count config)%nat
    then (GOON_ERROR_OVERFLOW, config)
    else
      (GOON_SUCCESS,
       {| cfg_entries :=
            <[cfg_count config :=
                {| e_key := strncpy (GOON_MAX_NAME_LEN - 1) key;
                   e_value := strncpy (GOON_BUFFER_SIZE - 1) value |}]>
              (cfg_entries config);
          cfg_count := S (cfg_count config);
          cfg_capacity := cfg_capacity config |})
  end.

(** [goon_config_get]: the value string of the first entry with the key
    ([None] is [NULL]). *)
Definition goon_config_get (config : goon_config) (key : string)
    : option string :=
  match config_find config key with
  | Some i => Some (e_value (read_entry (cfg_entries config) i))
  | None => None
  end.

Definition goon_config_remove (config : goon_config) (key : string)
    : Z * goon_config :=
  match config_find config key with
  | Some i =>
    (GOON_SUCCESS,
     {| cfg_entries :=
          shift_left (cfg_entries config) i (cfg_count config - 1 - i);
        cfg_count := (cfg_count config - 1)%nat;
        cfg_capacity := cfg_capacity config |})
  | None => (GOON_ERROR_NOT_FOUND, config)
  end.

(** *** Handler registry: lookup and removal *)

(** The loop of [goon_context_find_handler], from [handler] on. *)
Fixpoint find_loop (fuel : nat) (H : gmap loc goon_handler) (name : string)
    (handler : ptr) : outcome ptr :=
  match handler with
  | None => Done None
  | Some h =>
    match fuel with
    | O => OutOfFuel
    | S fuel' =>
      match H !! h with
      | None => Undefined
      | Some hd =>
        if streq (h_name hd) name then Done (Some h)
        else find_loop fuel' H name (h_next hd)
      end
    end
  end.

(** [goon_context_find_handler] on non-null arguments. *)
Definition goon_context_find_handler (fuel : nat) (m : machine)
    (name : string) : outcome ptr :=
  find_loop fuel (m_handlers m) name (ctx_handlers (m_ctx m)).

(** The loop of [goon_context_unregister_handler]: [prev] and [handler] are
    the two cursors.  The matched handler is unlinked and freed, and
    [handler_count] decremented. *)
Fixpoint unregister_loop (fuel : nat) (m : machine) (name : string)
    (prev handler : ptr) : outcome (Z * machine) :=
  match handler with
  | None => Done (GOON_ERROR_NOT_FOUND, m)
  | Some h =>
    match fuel with
    | O => OutOfFuel
    | S fuel' =>
      match m_handlers m !! h with
      | None => Undefined
      | Some hd =>
        if streq (h_name hd) name then
          let m1 :=
            match prev with
            | Some p =>
              set_handlers (alter (set_h_next (h_next hd)) p (m_handlers m)) m
            | None =>
              set_ctx (set_ctx_registry (h_next hd)
                         (ctx_handler_count (m_ctx m)) (m_ctx m)) m
            end in
          let m2 := set_handlers (delete h (m_handlers m1)) m1 in
          Done (GOON_SUCCESS,
                set_ctx (set_ctx_registry (ctx_handlers (m_ctx m2))
                           (wrap64 (ctx_handler_count (m_ctx m2) - 1))
                           (m_ctx m2)) m2)
        else unregister_loop fuel' m name (Some h) (h_next hd)
      end
    end
  end.

Definition goon_context_unregister_handler (fuel : nat) (m : machine)
    (name : string) : outcome (Z * machine) :=
  unregister_loop fuel m name None (ctx_handlers (m_ctx m)).

(** [goon_context_register_batch] on a non-null array: the entries that are
    not [NULL] are registered in array order; the result counts them (an
    [int] in C, counted without bound here). *)
Fixpoint register_batch_loop (m : machine) (handlers : list ptr)
    (success : Z) : Z * machine :=
  match handlers with
  | [] => (success, m)
  | None :: rest => register_batch_loop m rest success
  | Some h :: rest =>
    let '(rc, m1) := goon_context_register_handler m (Some h) in
    register_batch_loop m1 rest
      (if rc =? GOON_SUCCESS then success + 1 else success)
  end.

Definition goon_context_register_batch (m : machine) (handlers : list ptr)
    : Z * machine :=
  register_batch_loop m handlers 0.

(** *** Events in bulk *)

(** [goon_context_emit_batch] on a non-null array.  The counter [success]
    is an [int] that stays below the length of the array; the model counts
    without bound. *)
Fixpoint emit_batch_loop (m : machine) (events : list ptr) (success : Z)
    : Z * machine :=
  match events with
  | [] => (success, m)
  | None :: rest => emit_batch_loop m rest success
  | Some e :: rest =>
    let '(rc, m1) := goon_context_emit_event m (Some e) in
    emit_batch_loop m1 rest
      (if rc =? GOON_SUCCESS then success + 1 else success)
  end.

Definition goon_context_emit_batch (m : machine) (events : list ptr)
    : Z * machine :=
  emit_batch_loop m events 0.

(** The loop of [goon_context_clear_queue].  A pop that returns [NULL]
    does not leave the loop. *)
Fixpoint clear_loop (fuel : nat) (m : machine) (cleared : Z)
    : outcome (Z * machine) :=
  if goon_queue_is_empty (ctx_event_queue (m_ctx m)) then Done (cleared, m)
  else
    match fuel with
    | O => OutOfFuel
    | S fuel' =>
      let '(event, E, q) :=
        goon_queue_pop (m_events m) (ctx_event_queue (m_ctx m)) in
      let m1 := set_ctx (set_ctx_queue q (m_ctx m)) (set_events E m) in
      match event with
      | Some e =>
        clear_loop fuel'
          (set_events (goon_event_destroy (m_events m1) (Some e)) m1)
          (wrap64 (cleared + 1))
      | None => clear_loop fuel' m1 cleared
      end
    end.

(** [goon_context_clear_queue] on a context with a queue. *)
Definition goon_context_clear_queue (fuel : nat) (m : machine)
    : outcome (Z * machine) :=
  '(_, m') ← clear_loop fuel m 0;
  Done (GOON_SUCCESS, m').

(** A run of [goon_event_create] calls whose allocations succeed, all at
    the time [now]. *)
Fixpoint create_events (specs : list (string * Z)) (g : globals) (now : Z)
    : list goon_event * globals :=
  match specs with
  | [] => ([], g)
  | (name, priority) :: rest =>
    match goon_event_create name priority g now true with
    | (Some event, g1) =>
      let '(events, g2) := create_events rest g1 now in
      (event :: events, g2)
    | (None, g1) => create_events rest g1 now
    end
  end.

(** *** Statistics reset *)

Definition reset_handler (h : goon_handler) : goon_handler :=
  {| h_id := h_id h; h_name := h_name h; h_func := h_func h;
     h_user_data := h_user_data h; h_enabled := h_enabled h;
     h_call_count := 0; h_error_count := 0; h_avg_exec_time := dzero;
     h_next := h_next h |}.

Fixpoint reset_loop (fuel : nat) (H : gmap loc goon_handler) (handler : ptr)
    : outcome (gmap loc goon_handler) :=
  match handler with
  | None => Done H
  | Some h =>
    match fuel with
    | O => OutOfFuel
    | S fuel' =>
      match H !! h with
      | None => Undefined
      | Some hd => reset_loop fuel' (<[h := reset_handler hd]> H) (h_next hd)
      end
    end
  end.

Definition set_ctx_times (processed start : Z) (c : goon_context)
    : goon_context :=
  {| ctx_id := ctx_id c; ctx_name := ctx_name c; ctx_state := ctx_state c;
     ctx_handlers := ctx_handlers c;
     ctx_handler_count := ctx_handler_count c;
     ctx_event_queue := ctx_event_queue c;
     ctx_call_stack := ctx_call_stack c; ctx_cache := ctx_cache c;
     ctx_memory_pool := ctx_memory_pool c;
     ctx_event_count := ctx_event_count c;
     ctx_total_events_processed := processed;
     ctx_start_time := start; ctx_user_data := ctx_user_data c;
     ctx_debug_mode := ctx_debug_mode c |}.

(** [goon_context_reset_statistics] on a non-null context; [now] is the
    reading of [time(NULL)]. *)
Definition goon_context_reset_statistics (fuel : nat) (m : machine) (now : Z)
    : outcome (Z * machine) :=
  H ← reset_loop fuel (m_handlers m) (ctx_handlers (m_ctx m));
  Done (GOON_SUCCESS, set_ctx (set_ctx_times 0 now (m_ctx m)) (set_handlers H m)).

(** *** The duplicate detector *)

Definition set_ctx_cache (cache : goon_cache) (c : goon_context)
    : goon_context :=
  {| ctx_id := ctx_id c; ctx_name := ctx_name c; ctx_state := ctx_state c;
     ctx_handlers := ctx_handlers c;
     ctx_handler_count := ctx_handler_count c;
     ctx_event_queue := ctx_event_queue c;
     ctx_call_stack := ctx_call_stack c; ctx_cache := cache;
     ctx_memory_pool := ctx_memory_pool c;
     ctx_event_count := ctx_event_count c;
     ctx_total_events_processed := ctx_total_events_processed c;
     ctx_start_time := ctx_start_time c; ctx_user_data := ctx_user_data c;
     ctx_debug_mode := ctx_debug_mode c |}.

(** [snprintf(cache_key, GOON_MAX_NAME_LEN + 16, "event_%s", name)] *)
Definition detector_key (name : string) : string :=
  strncpy (GOON_MAX_NAME_LEN + 16 - 1) ("event_" ++ name)%string.

(** The four bytes of [int marker = 1] on a little-endian machine. *)
Definition detector_marker : list Byte.byte :=
  [Byte.x01; Byte.x00; Byte.x00; Byte.x00].

(** [goon_handler_duplicate_detector] on a context with a cache.
    [now_get] and [now_set] are the readings of the wall clock in
    [goon_cache_get] (on a hit) and in [goon_cache_set]; [mem] tells whether
    the [malloc] of [goon_cache_set] succeeds.  An event that is not
    allocated (undefined in C) is answered like a [NULL] one. *)
Definition goon_handler_duplicate_detector (now_get now_set : Z) (mem : bool)
    (m : machine) (event : loc) (user_data : ptr) : Z * machine :=
  match m_events m !! event with
  | None => (GOON_ERROR_NULL_PTR, m)
  | Some ev =>
    let cache_key := detector_key (ev_name ev) in
    match goon_cache_get (ctx_cache (m_ctx m)) cache_key now_get with
    | (Some (Some _, _), cache1) =>
      (GOON_ERROR, set_ctx (set_ctx_cache cache1 (m_ctx m)) m)
    | (_, cache1) =>
      (GOON_SUCCESS,
       set_ctx (set_ctx_cache
                  (goon_cache_set cache1 cache_key detector_marker 4
                     now_set mem).2
                  (m_ctx m)) m)
    end
  end.

(** *** The prefix filter *)

(** [strncmp(a, b, n) == 0]: the strings agree on their first [n]
    characters, or end together before. *)
Fixpoint strncmp_eq (n : nat) (a b : string) : bool :=
  match n with
  | O => true
  | S n' =>
    match a, b with
    | EmptyString, EmptyString => true
    | String c a', String d b' => Ascii.eqb c d && strncmp_eq n' a' b'
    | _, _ => false
    end
  end.

(** [goon_handler_filter] on a non-null context; [filter_prefix] is the
    string that [user_data] points to ([None]: [NULL]).  An event that is
    not allocated is answered like a [NULL] one. *)
Definition goon_handler_filter (m : machine) (event : loc)
    (filter_prefix : option string) : Z * machine :=
  match m_events m !! event with
  | None => (GOON_ERROR_NULL_PTR, m)
  | Some ev =>
    match filter_prefix with
    | None => (GOON_SUCCESS, m)
    | Some p =>
      if strncmp_eq (String.length p) (ev_name ev) p then (GOON_SUCCESS, m)
      else (GOON_ERROR, m)
    end
  end.

(** *** The rate limiter *)

(** The two [static] variables of [goon_handler_rate_limiter], shared by
    every handler that runs it. *)
Record rate_state := {
  rl_last_event_time : Z;
  rl_event_count : Z
}.

Definition rate_state_init : rate_state :=
  {| rl_last_event_time := 0; rl_event_count := 0 |}.

(** [goon_handler_rate_limiter] on non-null arguments.  [now] is the
    reading of [time(NULL)], [max_per_second] the [int] that [user_data]
    points to ([None]: [NULL]).  [event_count] is an [int]: the increment
    beyond [INT_MAX], undefined in C, wraps in the model. *)
Definition goon_handler_rate_limiter (st : rate_state) (now : Z)
    (max_per_second : option Z) : Z * rate_state :=
  let st1 :=
    if negb (now =? rl_last_event_time st)
    then {| rl_last_event_time := now; rl_event_count := 0 |}
    else st in
  let st2 := {| rl_last_event_time := rl_last_event_time st1;
                rl_event_count := swrap 32 (rl_event_count st1 + 1) |} in
  let limit := default 10 max_per_second in
  if limit <? rl_event_count st2 then (GOON_ERROR, st2)
  else (GOON_SUCCESS, st2).

(** A run of calls within the same second. *)
Fixpoint rate_limiter_run (n : nat) (st : rate_state) (now : Z)
    (max_per_second : option Z) : list Z * rate_state :=
  match n with
  | O => ([], st)
  | S n' =>
    let '(rc, st1) := goon_handler_rate_limiter st now max_per_second in
    let '(rcs, st2) := rate_limiter_run n' st1 now max_per_second in
    (rc :: rcs, st2)
  end.

(** *** Worker *)

(** A worker beside the machine of its context. *)
Record goon_worker := {
  w_running : bool;
  w_iterations : Z
}.

Definition goon_worker_create : goon_worker :=
  {| w_running := false; w_iterations := 0 |}.

Definition goon_worker_start (worker : goon_worker) (m : machine)
    : Z * goon_worker * machine :=
  (GOON_SUCCESS,
   {| w_running := true; w_iterations := w_iterations worker |},
   (goon_start m).2).

Definition goon_worker_stop
    (call : func_ptr → machine → loc → ptr → Z * machine) (fuel : nat)
    (worker : goon_worker) (m : machine)
    : outcome (Z * goon_worker * machine) :=
  '(_, m') ← goon_stop call fuel m;
  Done (GOON_SUCCESS,
        {| w_running := false; w_iterations := w_iterations worker |}, m').

(** [goon_worker_tick]: one process pass of the worker's context. *)
Definition goon_worker_tick
    (call : func_ptr → machine → loc → ptr → Z * machine) (fuel : nat)
    (worker : goon_worker) (m : machine)
    : outcome (Z * goon_worker * machine * list call_record) :=
  if negb (w_running worker) then Done (GOON_ERROR, worker, m, [])
  else
    '(processed, m', trace) ← goon_context_process_events call fuel m;
    Done (processed,
          {| w_running := w_running worker;
             w_iterations := wrap64 (w_iterations worker + 1) |},
          m', trace).

(** ** Sample callbacks *)

(** Three of the example handlers of the module, as callbacks of the driver.
    Printing is not modelled. *)
Definition fn_echo : func_ptr := 1%N.
Definition fn_counter : func_ptr := 2%N.
Definition fn_validator : func_ptr := 3%N.

Definition set_user (U : gmap loc Z) (m : machine) : machine :=
  {| m_events := m_events m; m_handlers := m_handlers m; m_user := U;
     m_clock := m_clock m; m_ctx := m_ctx m |}.

Definition set_clock (t : Z) (m : machine) : machine :=
  {| m_events := m_events m; m_handlers := m_handlers m; m_user := m_user m;
     m_clock := t; m_ctx := m_ctx m |}.

Definition goon_handler_echo (m : machine) (event : loc) (user_data : ptr)
    : Z * machine :=
  (GOON_SUCCESS, m).

(** Increments the [int] that [user_data] points to. *)
Definition goon_handler_counter (m : machine) (event : loc) (user_data : ptr)
    : Z * machine :=
  match user_data with
  | Some counter =>
    (GOON_SUCCESS, set_user (alter (λ v, swrap 32 (v + 1)) counter (m_user m)) m)
  | None => (GOON_SUCCESS, m)
  end.

Definition goon_handler_validator (m : machine) (event : loc) (user_data : ptr)
    : Z * machine :=
  match m_events m !! event with
  | None => (GOON_ERROR_NULL_PTR, m)
  | Some ev =>
    if (String.length (ev_name ev) =? 0)%nat then (GOON_ERROR_INVALID_PARAM, m)
    else if (ev_priority ev <? GOON_PRIORITY_LOW)
            || (GOON_PRIORITY_CRITICAL <? ev_priority ev)
    then (GOON_ERROR_INVALID_PARAM, m)
    else (GOON_SUCCESS, m)
  end.

(** The code behind the three addresses; any other address returns at once.
    The processor time a callback consumes belongs to the environment: the
    sample charges [1000 * f] ticks to the callback at address [f]. *)
Definition sample_call (f : func_ptr) (m : machine) (event : loc)
    (user_data : ptr) : Z * machine :=
  let '(result, m') :=
    if (f =? fn_echo)%N then goon_handler_echo m event user_data
    else if (f =? fn_counter)%N then goon_handler_counter m event user_data
    else if (f =? fn_validator)%N then goon_handler_validator m event user_data
    else (GOON_SUCCESS, m) in
  (result, set_clock (m_clock m' + 1000 * Z.of_N f) m').

(** ** Sample machines *)

Definition sample_globals : globals :=
  {| g_next_handler_id := 1; g_next_event_id := 1; g_next_context_id := 1 |}.

Definition sample_event (id : Z) (name : string) (priority : Z) : goon_event :=
  {| ev_id := id; ev_name := name; ev_priority := priority;
     ev_timestamp := 1700000000; ev_data := None; ev_user_data := None;
     ev_next := None |}.

Definition sample_handler (id : Z) (name : string) (func : func_ptr)
    (user_data : ptr) (enabled : bool) : goon_handler :=
  {| h_id := id; h_name := name; h_func := func; h_user_data := user_data;
     h_enabled := enabled; h_call_count := 0; h_error_count := 0;
     h_avg_exec_time := dzero; h_next := None |}.

(** A context after [goon_init] and [goon_start], with three handlers
    created (echo at 1, counter at 2, validator at 3) and two events
    allocated (at 1 and 2), none registered or emitted yet.  The second
    event has an empty name, which the validator rejects. *)
Definition sample_machine : machine :=
  {| m_events :=
       <[1%positive := sample_event 1 "hello" GOON_PRIORITY_NORMAL]>
         (<[2%positive := sample_event 2 "" GOON_PRIORITY_HIGH]> ∅);
     m_handlers :=
       <[1%positive := sample_handler 1 "echo" fn_echo None true]>
         (<[2%positive := sample_handler 2 "counter" fn_counter
                            (Some 1%positive) true]>
            (<[3%positive := sample_handler 3 "validator" fn_validator
                               None true]> ∅));
     m_user := <[1%positive := 0]> ∅;
     m_clock := 0;
     m_ctx :=
       set_ctx_state GOON_STATE_RUNNING
         (goon_context_create "main_context" sample_globals 1700000000).1 |}.

(** The same with all three handlers registered, in the order echo,
    counter, validator. *)
Definition sample_registered : machine :=
  register_all sample_machine [1%positive; 2%positive; 3%positive].

(** ... and both events emitted. *)
Definition sample_loaded : machine :=
  (goon_context_emit_event
     (goon_context_emit_event sample_registered (Some 1%positive)).2
     (Some 2%positive)).2.

(** A pool of capacity 4 whose first two slots hold objects, the first one
    released. *)
Definition sample_pool : goon_pool :=
  {| p_objects := [Some 10%positive; Some 11%positive; None; None];
     p_in_use := [false; true; false; false];
     p_size := 2;
     p_capacity := 4 |}.

(** Keys ["k"], ["kk"], ["kkk"], ... *)
Definition sample_key (i : nat) : string :=
  string_of_list_ascii (replicate (S i) "k"%char).

(** A cache filled by 64 calls of [goon_cache_set] with the keys
    [sample_key 0 .. sample_key 63] at the times [100, 101, ...]. *)
Definition sample_full_cache : goon_cache :=
  Eval vm_compute in
  foldl (λ c i, (goon_cache_set c (sample_key i) [Byte.x01] 1
                   (100 + Z.of_nat i) true).2)
        goon_cache_create (seq 0 64).

(** ** Vocabulary of the properties *)

(** The arrays of a pool have [capacity] cells and [size] stays within. *)
Definition pool_wf (pool : goon_pool) : Prop :=
  length (p_objects pool) = p_capacity pool
  ∧ length (p_in_use pool) = p_capacity pool
  ∧ (p_size pool ≤ p_capacity pool)%nat.

(** The four arrays of a cache have [GOON_CACHE_SIZE] cells. *)
Definition cache_wf (cache : goon_cache) : Prop :=
  length (c_keys cache) = GOON_CACHE_SIZE
  ∧ length (c_values cache) = GOON_CACHE_SIZE
  ∧ length (c_timestamps cache) = GOON_CACHE_SIZE
  ∧ length (c_sizes cache) = GOON_CACHE_SIZE.

(** A key of 130 characters. *)
Definition long_key : string :=
  Eval vm_compute in string_of_list_ascii (replicate 130 "k"%char).

(** [chain N p ls]: following the [next] links [N] from the pointer [p]
    visits exactly the locations [ls] and then reaches [NULL]. *)
Fixpoint chain (N : gmap loc ptr) (p : ptr) (ls : list loc) : Prop :=
  match ls with
  | [] => p = None
  | l :: ls' => p = Some l ∧ ∃ n, N !! l = Some n ∧ chain N n ls'
  end.

(** [queue_holds E q ls]: the queue [q] is the linked list of the events
    [ls] in the heap [E], head first, with [tail] at the last one and [size]
    their number, within [max_size]. *)
Definition queue_holds (E : gmap loc goon_event) (q : goon_queue)
    (ls : list loc) : Prop :=
  chain (ev_next <$> E) (q_head q) ls
  ∧ q_tail q = last ls
  ∧ q_size q = Z.of_nat (length ls)
  ∧ q_size q ≤ q_max_size q < 2 ^ 64.

(** Three events allocated at 1, 2 and 3. *)
Definition sample_events : gmap loc goon_event :=
  <[1%positive := sample_event 1 "a" GOON_PRIORITY_LOW]>
    (<[2%positive := sample_event 2 "b" GOON_PRIORITY_NORMAL]>
       (<[3%positive := sample_event 3 "c" GOON_PRIORITY_HIGH]> ∅)).

(** The fields of an event fit their C types and the name fits its array. *)
Definition event_wf (event : goon_event) : Prop :=
  0 ≤ ev_id event < 2 ^ 32
  ∧ - 2 ^ 31 ≤ ev_priority event < 2 ^ 31
  ∧ - 2 ^ 63 ≤ ev_timestamp event < 2 ^ 63
  ∧ (String.length (ev_name event) ≤ GOON_MAX_NAME_LEN - 1)%nat.

(** The text does not go on with a digit. *)
Definition no_digit_ahead (s : list ascii) : Prop :=
  match s with
  | c :: _ => is_digit c = false
  | [] => True
  end.

(** The [enabled] flag of the handler at [h]. *)
Definition enabled_in (H : gmap loc goon_handler) (h : loc) : bool :=
  default false (h_enabled <$> H !! h).

(** The accounting of a sequence of calls on one handler. *)
Definition account (hd : goon_handler) (calls : list call_record)
    : goon_handler :=
  foldl (λ hd r, record_call (cr_result r) (cr_exec_time r) hd) hd calls.

(** The accounting of a trace on the heap of handlers. *)
Definition apply_trace (trace : list call_record)
    (H : gmap loc goon_handler) : gmap loc goon_handler :=
  foldl (λ H r, alter (record_call (cr_result r) (cr_exec_time r))
                  (cr_handler r) H) H trace.

(** The calls of a trace that went to the handler [h]. *)
Definition calls_of (h : loc) (trace : list call_record) : list call_record :=
  filter (λ r, cr_handler r = h) trace.

(** What the callbacks must leave alone during a dispatch (section 5 of the
    specification: no registration, no unregistration, no nested [process]):
    the handler objects, the registry head, the queue and the links of the
    events.  They are free to change payloads, the cache, the pool, the
    stack, user data and the clock. *)
Definition keeps_links
    (call : func_ptr → machine → loc → ptr → Z * machine) : Prop :=
  ∀ f m event user_data,
    let m' := (call f m event user_data).2 in
    m_handlers m' = m_handlers m
    ∧ ctx_handlers (m_ctx m') = ctx_handlers (m_ctx m)
    ∧ ctx_event_queue (m_ctx m') = ctx_event_queue (m_ctx m)
    ∧ ev_next <$> m_events m' = ev_next <$> m_events m.

(** The calls a process pass must make: for each queued event in queue
    order, each enabled handler in list order. *)
Definition expected_calls (H : gmap loc goon_handler) (hs evs : list loc)
    : list (loc * loc) :=
  e ← evs; (λ h, (e, h)) <$> filter (λ h, enabled_in H h) hs.

(** A context with the first sample event emitted and no handler
    registered yet. *)
Definition sample_ready : machine :=
  (goon_context_emit_event sample_machine (Some 1%positive)).2.

(** The running mean as the driver keeps it: with [n] observations behind
    it, the next observation [t] replaces [avg] by [(avg * n + t) / (n + 1)],
    every operation rounded to [double]. *)
Fixpoint running_mean (avg : double) (n : Z) (ts : list double) : double :=
  match ts with
  | [] => avg
  | t :: ts' =>
    running_mean (ddiv (dadd (dmul avg (Z2double n)) t) (Z2double (n + 1)))
      (n + 1) ts'
  end.

(** What it is to offer [event] to the handler at [h] on the machine [m]: a
    disabled handler is passed by; the callback of an enabled one is run
    through [call] between two readings of the clock, and the call is
    accounted on the handler.  The machine left and the record of the
    call. *)
Definition visit (call : func_ptr → machine → loc → ptr → Z * machine)
    (m : machine) (event h : loc) : machine * list call_record :=
  match m_handlers m !! h with
  | Some hd =>
    if h_enabled hd then
      let '(result, m1) := call (h_func hd) m event (h_user_data hd) in
      let exec_time := exec_time_ms (m_clock m) (m_clock m1) in
      (set_handlers (alter (record_call result exec_time) h (m_handlers m1))
         m1,
       [{| cr_handler := h; cr_event := event; cr_result := result;
           cr_exec_time := exec_time |}])
    else (m, [])
  | None => (m, [])
  end.

(** The handlers [hs] offered the event one after the other. *)
Fixpoint visit_all (call : func_ptr → machine → loc → ptr → Z * machine)
    (m : machine) (event : loc) (hs : list loc)
    : machine * list call_record :=
  match hs with
  | [] => (m, [])
  | h :: hs' =>
    let '(m1, tr1) := visit call m event h in
    let '(m2, tr2) := visit_all call m1 event hs' in
    (m2, tr1 ++ tr2)
  end.

(** The machine with the head of its queue taken off. *)
Definition popped (m : machine) : machine :=
  let '(_, E, q) := goon_queue_pop (m_events m) (ctx_event_queue (m_ctx m)) in
  set_ctx (set_ctx_queue q (m_ctx m)) (set_events E m).

(** The end of the round of an event: it is destroyed and counted. *)
Definition retire (event : loc) (m : machine) : machine :=
  let m1 := set_events (goon_event_destroy (m_events m) (Some event)) m in
  set_ctx (set_ctx_processed
             (wrap64 (ctx_total_events_processed (m_ctx m1) + 1)) (m_ctx m1))
    m1.

(** A process pass told on lists: each of the queued events [evs] in turn
    is taken off the queue, offered to the registered handlers [hs] in list
    order, and retired.  Every call of a callback goes through [call]. *)
Fixpoint serve (call : func_ptr → machine → loc → ptr → Z * machine)
    (m : machine) (hs evs : list loc) : machine * list call_record :=
  match evs with
  | [] => (m, [])
  | e :: evs' =>
    let '(m1, tr1) := visit_all call (popped m) e hs in
    let '(m2, tr2) := serve call (retire e m1) hs evs' in
    (m2, tr1 ++ tr2)
  end.

(** The calls that did not return [GOON_SUCCESS]. *)
Definition failures (calls : list call_record) : list call_record :=
  filter (λ r, cr_result r ≠ GOON_SUCCESS) calls.

(** The loaded sample with the counter handler disabled. *)
Definition sample_disabled : machine :=
  set_handlers
    (goon_handler_disable (m_handlers sample_loaded) (Some 2%positive)).2
    sample_loaded.

(** The loaded sample after [goon_pause]. *)
Definition sample_paused : machine := (goon_pause sample_loaded).2.

(** The array of a stack has [capacity] cells and [size] stays within. *)
Definition stack_wf (stack : goon_stack) : Prop :=
  length (s_items stack) = s_capacity stack
  ∧ (s_size stack ≤ s_capacity stack)%nat.

(** An operation on a queue and what it returns. *)
Inductive queue_op :=
| QPush (event : ptr)
| QPop.

Inductive queue_result :=
| RPush (rc : Z)
| RPop (event : ptr).

(** A client's run of pushes and pops, in any order. *)
Fixpoint queue_run (ops : list queue_op) (E : gmap loc goon_event)
    (queue : goon_queue) : list queue_result * gmap loc goon_event * goon_queue :=
  match ops with
  | [] => ([], E, queue)
  | QPush event :: rest =>
    let '(rc, E1, q1) := goon_queue_push E queue event in
    let '(rs, E2, q2) := queue_run rest E1 q1 in
    (RPush rc :: rs, E2, q2)
  | QPop :: rest =>
    let '(event, E1, q1) := goon_queue_pop E queue in
    let '(rs, E2, q2) := queue_run rest E1 q1 in
    (RPop event :: rs, E2, q2)
  end.

(** The same run on a bounded FIFO of locations, the reference the queue is
    compared with. *)
Fixpoint fifo_run (max_size : Z) (ops : list queue_op) (ls : list loc)
    : list queue_result * list loc :=
  match ops with
  | [] => ([], ls)
  | QPush None :: rest =>
    let '(rs, ls') := fifo_run max_size rest ls in
    (RPush GOON_ERROR_NULL_PTR :: rs, ls')
  | QPush (Some e) :: rest =>
    if max_size <=? Z.of_nat (length ls) then
      let '(rs, ls') := fifo_run max_size rest ls in
      (RPush GOON_ERROR_OVERFLOW :: rs, ls')
    else
      let '(rs, ls') := fifo_run max_size rest (ls ++ [e]) in
      (RPush GOON_SUCCESS :: rs, ls')
  | QPop :: rest =>
    let '(rs, ls') := fifo_run max_size rest (tail ls) in
    (RPop (head ls) :: rs, ls')
  end.

(** Every push that is admitted pushes an allocated event that is not in
    the queue at that moment (the client owns it). *)
Fixpoint pushes_owned (allocated : gset loc) (max_size : Z)
    (ops : list queue_op) (ls : list loc) : Prop :=
  match ops with
  | [] => True
  | QPush None :: rest => pushes_owned allocated max_size rest ls
  | QPush (Some e) :: rest =>
    match max_size <=? Z.of_nat (length ls) with
    | true => pushes_owned allocated max_size rest ls
    | false =>
      e ∈ allocated ∧ (e ∉ ls)
      ∧ pushes_owned allocated max_size rest (ls ++ [e])
    end
  | QPop :: rest => pushes_owned allocated max_size rest (tail ls)
  end.

(** The entries of a C array of pointers that are not [NULL]. *)
Definition non_null (a : list ptr) : list loc := omap id a.

(** A running context with a queue of two places, the three sample
    handlers registered and the three sample events allocated. *)
Definition sample_small : machine :=
  set_events sample_events
    (set_ctx (set_ctx_queue (goon_queue_create 2) (m_ctx sample_registered))
       sample_registered).

(** The handler at [h] carries the name [name]. *)
Definition has_name (H : gmap loc goon_handler) (name : string) (h : loc)
    : bool :=
  bool_decide (h_name <$> H !! h = Some name).

(** A handler without its link: what a registration or an unregistration of
    another handler leaves untouched. *)
Definition unlinked (H : gmap loc goon_handler) (h : loc)
    : option goon_handler :=
  set_h_next None <$> H !! h.

(** The invariant of the cache: the arrays have their 64 cells, [count]
    stays within, and no two slots in use hold the same key. *)
Definition cache_inv (cache : goon_cache) : Prop :=
  cache_wf cache
  ∧ (c_count cache ≤ GOON_CACHE_SIZE)%nat
  ∧ ∀ i j, (i < c_count cache)%nat → (j < c_count cache)%nat →
           read_key (c_keys cache) i = read_key (c_keys cache) j → i = j.

(** The key fits the key array of a slot. *)
Definition short_key (key : string) : Prop :=
  (String.length key ≤ GOON_MAX_NAME_LEN - 1)%nat.

(** The slot [goon_cache_set] writes for the key. *)
Definition set_slot (cache : goon_cache) (key : string) : nat :=
  match cache_find cache key with
  | Some i => i
  | None =>
    if (GOON_CACHE_SIZE <=? c_count cache)%nat then cache_oldest cache
    else c_count cache
  end.

(** A [set] of [key] evicts the entry of [key']. *)
Definition evicts (cache : goon_cache) (key key' : string) : Prop :=
  cache_find cache key = None
  ∧ c_count cache = GOON_CACHE_SIZE
  ∧ cache_find cache key' = Some (cache_oldest cache).

(** The pool owns the object: one of its slots holds it. *)
Definition owns (pool : goon_pool) (o : loc) : Prop :=
  ∃ i, (i < p_size pool)%nat ∧ read_ptr (p_objects pool) i = Some o.

(** The object is handed out: its slot is marked in use. *)
Definition held (pool : goon_pool) (o : loc) : Prop :=
  ∃ i, (i < p_size pool)%nat ∧ read_ptr (p_objects pool) i = Some o
       ∧ read_flag (p_in_use pool) i = true.

(** The invariant of the pool: the arrays have [capacity] cells, and the
    slots below [size] hold objects that are not [NULL] and pairwise
    distinct. *)
Definition pool_inv (pool : goon_pool) : Prop :=
  pool_wf pool
  ∧ (∀ i, (i < p_size pool)%nat → read_ptr (p_objects pool) i ≠ None)
  ∧ ∀ i j, (i < p_size pool)%nat → (j < p_size pool)%nat →
           read_ptr (p_objects pool) i = read_ptr (p_objects pool) j → i = j.

(** Every key in use fits its slot, as [goon_cache_set] stores them. *)
Definition cache_keys_fit (cache : goon_cache) : Prop :=
  cache_wf cache
  ∧ (c_count cache ≤ GOON_CACHE_SIZE)%nat
  ∧ ∀ j, (j < c_count cache)%nat → short_key (read_key (c_keys cache) j).

(** The sample machine with a third event, whose name has 125
    characters. *)
Definition sample_long_name : machine :=
  set_events
    (<[3%positive :=
         sample_event 3 (string_of_list_ascii (replicate 125 "n"%char))
           GOON_PRIORITY_NORMAL]> (m_events sample_machine))
    sample_machine.

(** The entry array of a configuration store has [capacity] cells and
    [count] stays within. *)
Definition config_wf (config : goon_config) : Prop :=
  length (cfg_entries config) = cfg_capacity config
  ∧ (cfg_count config ≤ cfg_capacity config)%nat.

(** A callback that takes three ticks of processor time. *)
Definition three_tick_call (f : func_ptr) (m : machine) (event : loc)
    (user_data : ptr) : Z * machine :=
  (GOON_SUCCESS, set_clock (m_clock m + 3) m).

(** The running sample with the echo handler alone registered and the
    three sample events queued. *)
Definition sample_three : machine :=
  (goon_context_emit_batch
     (register_all (set_events sample_events sample_machine) [1%positive])
     [Some 1; Some 2; Some 3]%positive).2.

(** * Properties *)

(** The module's demonstration in small: two events through the three
    sample handlers, last registered first; the validator rejects the event
    with the empty name, the counter has counted both events. *)
Example sample_process_runs :
  ∃ m' tr, goon_context_process_events sample_call 10 sample_loaded
           = Done (2, m', tr)
    ∧ (λ r, (Zpos (cr_event r), Zpos (cr_handler r), cr_result r)) <$> tr
      = [(1, 3, 0); (1, 2, 0); (1, 1, 0); (2, 3, -3); (2, 2, 0); (2, 1, 0)]
    ∧ m_user m' !! 1%positive = Some 2
    ∧ ctx_total_events_processed (m_ctx m') = 2
    ∧ m_events m' = ∅.
Proof. eexists _, _. split; [vm_compute; reflexivity|]. vm_compute. auto. Qed.

(** ** Array scans *)

Lemma first_index_Some test start n i :
  first_index test start n = Some i →
  (start ≤ i < start + n)%nat ∧ test i = true
  ∧ ∀ j, (start ≤ j < i)%nat → test j = false.
Proof.
  revert start. induction n as [|n IH]; intros start; simpl; [done|].
  destruct (test start) eqn:Ht.
  - intros [= <-]. split_and!; [lia..|done|intros; lia].
  - intros Hi. destruct (IH _ Hi) as (Hr & Hti & Hlow).
    split_and!; [lia..|done|].
    intros j Hj. destruct (decide (j = start)) as [->|]; [done|].
    apply Hlow. lia.
Qed.

Lemma first_index_None test start n :
  first_index test start n = None →
  ∀ j, (start ≤ j < start + n)%nat → test j = false.
Proof.
  revert start. induction n as [|n IH]; intros start; simpl; [intros; lia|].
  destruct (test start) eqn:Ht; [done|].
  intros Hn j Hj. destruct (decide (j = start)) as [->|]; [done|].
  apply (IH _ Hn). lia.
Qed.

Lemma first_index_intro test start n i :
  (start ≤ i < start + n)%nat → test i = true →
  (∀ j, (start ≤ j < i)%nat → test j = false) →
  first_index test start n = Some i.
Proof.
  revert start. induction n as [|n IH]; intros start Hr Ht Hlow; [lia|].
  simpl. destruct (decide (i = start)) as [->|Hne].
  - by rewrite Ht.
  - rewrite Hlow; [|lia]. apply IH; [lia|done|]. intros j Hj. apply Hlow. lia.
Qed.

(** ** Object pool *)

Lemma goon_pool_create_wf capacity : pool_wf (goon_pool_create capacity).
Proof.
  unfold pool_wf, goon_pool_create; simpl.
  rewrite !length_replicate. split_and!; [done..|lia].
Qed.

Lemma goon_pool_acquire_wf pool size alloc :
  pool_wf pool → pool_wf (goon_pool_acquire pool size alloc).2.
Proof.
  intros (Ho & Hu & Hs). unfold goon_pool_acquire.
  destruct (first_index _ _ _); simpl.
  - unfold pool_wf; simpl. by rewrite length_insert.
  - destruct (Nat.ltb_spec (p_size pool) (p_capacity pool)); [|done].
    destruct (alloc size); [|done].
    unfold pool_wf; simpl. rewrite !length_insert. split_and!; [done..|lia].
Qed.

Lemma goon_pool_release_wf pool obj :
  pool_wf pool → pool_wf (goon_pool_release pool obj).2.
Proof.
  intros (Ho & Hu & Hs). unfold goon_pool_release.
  destruct obj; [|done]. destruct (first_index _ _ _); [|done].
  unfold pool_wf; simpl. by rewrite length_insert.
Qed.

Lemma read_ptr_Some (a : list ptr) i o :
  read_ptr a i = Some o ↔ a !! i = Some (Some o).
Proof.
  unfold read_ptr. destruct (a !! i) as [[?|]|]; simpl; naive_solver.
Qed.

Lemma read_flag_false_insert (a : list bool) i :
  (i < length a)%nat → read_flag a i = true →
  <[i := true]> (<[i := false]> a) = a.
Proof.
  intros Hi Hr. rewrite list_insert_insert_eq. apply list_insert_id.
  unfold read_flag in Hr. destruct (a !! i) as [[]|] eqn:E; simpl in *; done.
Qed.

Lemma read_flag_insert_ne (a : list bool) i j b :
  i ≠ j → read_flag (<[i := b]> a) j = read_flag a j.
Proof. intros. unfold read_flag. by rewrite list_lookup_insert_ne. Qed.

Lemma read_flag_insert_eq (a : list bool) i b :
  (i < length a)%nat → read_flag (<[i := b]> a) i = b.
Proof. intros. unfold read_flag. by rewrite list_lookup_insert_eq. Qed.

Lemma read_flag_true (a : list bool) i :
  read_flag a i = true ↔ a !! i = Some true.
Proof. unfold read_flag. destruct (a !! i) as [[]|]; simpl; naive_solver. Qed.

(** What a successful [goon_pool_acquire] leaves: the object sits in a slot
    that is in use, and no slot before it is free. *)
Lemma goon_pool_acquire_Some pool size alloc o pool1 :
  pool_wf pool →
  goon_pool_acquire pool size alloc = (Some o, pool1) →
  ∃ k, (k < p_size pool1)%nat
    ∧ p_objects pool1 !! k = Some (Some o)
    ∧ p_in_use pool1 !! k = Some true
    ∧ ∀ j, (j < k)%nat →
        read_flag (p_in_use pool1) j = true ∨ read_ptr (p_objects pool1) j = None.
Proof.
  intros (Ho & Hu & Hs). unfold goon_pool_acquire.
  destruct (first_index _ _ _) as [k|] eqn:Hscan.
  - intros [= Hobj <-]; simpl.
    apply first_index_Some in Hscan as (Hk & Htest & Hlow).
    exists k. split_and!; [lia|by apply read_ptr_Some| |].
    + apply list_lookup_insert_eq. lia.
    + intros j Hj. rewrite read_flag_insert_ne; [|lia].
      specialize (Hlow j ltac:(lia)).
      apply andb_false_iff in Hlow as [Hf|Hn].
      * left. by apply negb_false_iff.
      * right. apply bool_decide_eq_false in Hn.
        by destruct (read_ptr (p_objects pool) j); [exfalso; apply Hn|].
  - destruct (Nat.ltb_spec (p_size pool) (p_capacity pool)) as [Hlt|]; [|done].
    destruct (alloc size) as [obj|]; [|done].
    intros [= -> <-]; simpl. exists (p_size pool).
    split_and!; [lia|apply list_lookup_insert_eq; lia
                |apply list_lookup_insert_eq; lia|].
    intros j Hj. rewrite read_flag_insert_ne; [|lia].
    unfold read_ptr. rewrite list_lookup_insert_ne; [|lia].
    pose proof (first_index_None _ _ _ Hscan j ltac:(lia)) as Hlow.
    apply andb_false_iff in Hlow as [Hf|Hn].
    + left. by apply negb_false_iff.
    + right. apply bool_decide_eq_false in Hn.
      by destruct (mjoin (p_objects pool !! j)) eqn:E;
        [exfalso; apply Hn; unfold read_ptr; rewrite E|].
Qed.

(** C9. Pool reuse: after [acquire] returned [o] and [release(o)]
    succeeded, the next [acquire], whatever size it asks for, returns the
    pointer [o] again and puts the pool back in the state it had after the
    first [acquire]: the slot of [o], free after the release, is in use. *)
Theorem pool_reuse pool size1 alloc1 o pool1 pool2 size2 alloc2 :
  pool_wf pool →
  goon_pool_acquire pool size1 alloc1 = (Some o, pool1) →
  goon_pool_release pool1 (Some o) = (GOON_SUCCESS, pool2) →
  goon_pool_acquire pool2 size2 alloc2 = (Some o, pool1)
  ∧ ∃ i, (i < p_size pool1)%nat
      ∧ p_objects pool1 !! i = Some (Some o)
      ∧ p_in_use pool2 !! i = Some false
      ∧ p_in_use pool1 !! i = Some true.
Proof.
  intros Hwf Hacq Hrel.
  destruct (goon_pool_acquire_Some _ _ _ _ _ Hwf Hacq)
    as (k & Hk & Hobj & Huse & Hlow).
  unfold goon_pool_release in Hrel.
  destruct (first_index _ _ _) as [k'|] eqn:Hscan; [|done].
  injection Hrel as <-.
  apply first_index_Some in Hscan as (Hk' & Htest & Hlow').
  apply bool_decide_eq_true in Htest.
  assert (k' ≤ k)%nat as Hle.
  { destruct (decide (k' ≤ k)%nat); [done|].
    specialize (Hlow' k ltac:(lia)). apply bool_decide_eq_false in Hlow'.
    exfalso. apply Hlow'. by apply read_ptr_Some. }
  assert (p_in_use pool1 !! k' = Some true) as Huse'.
  { destruct (decide (k' = k)) as [->|]; [done|].
    destruct (Hlow k' ltac:(lia)) as [?|Hnull]; [by apply read_flag_true|].
    congruence. }
  assert (k' < length (p_in_use pool1))%nat as Hlen
    by (by eapply lookup_lt_Some).
  split.
  - unfold goon_pool_acquire; simpl.
    rewrite (first_index_intro _ _ _ k'); [|lia| |].
    + rewrite Htest. f_equal. destruct pool1; simpl in *. f_equal.
      apply read_flag_false_insert; [done|by apply read_flag_true].
    + rewrite read_flag_insert_eq, Htest; [|done]. by rewrite bool_decide_true.
    + intros j Hj. rewrite read_flag_insert_ne; [|lia].
      destruct (Hlow j ltac:(lia)) as [-> | ->]; [done|].
      rewrite bool_decide_false; [|by intros []]. by rewrite andb_false_r.
  - exists k'. split_and!; [lia|by apply read_ptr_Some| |done].
    simpl. by apply list_lookup_insert_eq.
Qed.

Lemma pool_reuse_witness :
  ∃ pool1 pool2,
    goon_pool_acquire sample_pool 16 (λ _, None) = (Some 10%positive, pool1)
    ∧ goon_pool_release pool1 (Some 10%positive) = (GOON_SUCCESS, pool2)
    ∧ goon_pool_acquire pool2 4096 (λ _, None) = (Some 10%positive, pool1).
Proof.
  eexists _, _. split; [reflexivity|]. split; [reflexivity|].
  refine (proj1 (pool_reuse sample_pool 16 (λ _, None) 10%positive _ _
                   4096 (λ _, None) _ _ _)).
  - unfold pool_wf; simpl. split_and!; [reflexivity..|lia].
  - reflexivity.
  - reflexivity.
Defined.

(** C10. Releasing a pool-owned object whose slots are all marked free
    returns [GOON_SUCCESS] and leaves the pool as it is: a double release
    is not an error. *)
Theorem pool_release_idempotent pool o i :
  (i < p_size pool)%nat →
  p_objects pool !! i = Some (Some o) →
  (∀ j, (j < p_size pool)%nat → p_objects pool !! j = Some (Some o) →
        p_in_use pool !! j = Some false) →
  goon_pool_release pool (Some o) = (GOON_SUCCESS, pool).
Proof.
  intros Hi Hobj Hfree. unfold goon_pool_release.
  destruct (first_index _ _ _) as [k|] eqn:Hscan.
  - apply first_index_Some in Hscan as (Hk & Htest & _).
    apply bool_decide_eq_true, read_ptr_Some in Htest.
    f_equal. destruct pool; simpl in *. f_equal.
    apply list_insert_id, Hfree; [lia|done].
  - pose proof (first_index_None _ _ _ Hscan i ltac:(lia)) as Hno.
    apply bool_decide_eq_false in Hno. exfalso. apply Hno.
    by apply read_ptr_Some.
Qed.

Lemma pool_release_idempotent_witness :
  goon_pool_release sample_pool (Some 10%positive)
  = (GOON_SUCCESS, sample_pool).
Proof.
  apply (pool_release_idempotent sample_pool 10%positive 0); simpl.
  - lia.
  - reflexivity.
  - intros [|[|j]] Hj; simpl; [done|discriminate|lia].
Defined.

(** A second release right after a release changes nothing more, whatever
    the first one did. *)
Lemma goon_pool_release_twice pool obj :
  goon_pool_release (goon_pool_release pool obj).2 obj
  = goon_pool_release pool obj.
Proof.
  destruct obj as [o|]; [|done]. unfold goon_pool_release at 2 3.
  destruct (first_index _ _ _) as [k|] eqn:Hscan;
    unfold goon_pool_release; simpl; rewrite Hscan; [|done].
  by rewrite list_insert_insert_eq.
Qed.

(** ** Recency cache *)

Lemma goon_cache_create_wf : cache_wf goon_cache_create.
Proof. by unfold cache_wf. Qed.

Lemma goon_cache_set_wf cache key value size now mem :
  cache_wf cache → cache_wf (goon_cache_set cache key value size now mem).2.
Proof.
  intros (Hk & Hv & Ht & Hs). unfold goon_cache_set, cache_wf.
  destruct (cache_find cache key); [|destruct (_ <=? _)%nat];
    destruct mem; simpl; by rewrite ?length_insert.
Qed.

Lemma strncpy_short n s : (String.length s ≤ n)%nat → strncpy n s = s.
Proof.
  revert n. induction s as [|c s IH]; intros [|n] Hn; simpl in *;
    [done..|lia|]. f_equal. apply IH. lia.
Qed.

Lemma strncpy_length n s : (String.length (strncpy n s) ≤ n)%nat.
Proof.
  revert s. induction n as [|n IH]; intros [|c s]; simpl; [lia..|].
  specialize (IH s). lia.
Qed.

(** The key scan finds nothing exactly when no slot in use holds the key. *)
Lemma cache_find_None cache key :
  (c_count cache ≤ length (c_keys cache))%nat →
  cache_find cache key = None ↔
  ∀ j, (j < c_count cache)%nat → c_keys cache !! j ≠ Some key.
Proof.
  intros Hlen. unfold cache_find, streq, read_key. split.
  - intros Hscan j Hj Hkey.
    pose proof (first_index_None _ _ _ Hscan j ltac:(lia)) as Hno.
    simpl in Hno. rewrite Hkey in Hno. simpl in Hno.
    by apply bool_decide_eq_false in Hno.
  - intros Hno. destruct (first_index _ _ _) as [i|] eqn:Hscan; [|done].
    apply first_index_Some in Hscan as (Hi & Htest & _).
    apply bool_decide_eq_true in Htest.
    destruct (lookup_lt_is_Some_2 (c_keys cache) i ltac:(lia)) as [k Hk].
    rewrite Hk in Htest. simpl in Htest. exfalso. apply (Hno i); [lia|].
    by rewrite Hk, Htest.
Qed.

(** The eviction scan returns the first slot of minimal timestamp among
    those it has seen. *)
Lemma oldest_scan_spec ts i n idx :
  (idx < i)%nat →
  (∀ j, (j < i)%nat → read_time ts idx ≤ read_time ts j) →
  (∀ j, (j < idx)%nat → read_time ts idx < read_time ts j) →
  let r := oldest_scan ts i n idx (read_time ts idx) in
  (r < i + n)%nat
  ∧ (∀ j, (j < i + n)%nat → read_time ts r ≤ read_time ts j)
  ∧ (∀ j, (j < r)%nat → read_time ts r < read_time ts j).
Proof.
  revert i idx. induction n as [|n IH]; intros i idx Hidx Hmin Hfirst; simpl.
  - split_and!; [lia| |done]. intros j Hj. apply Hmin. lia.
  - destruct (Z.ltb_spec (read_time ts i) (read_time ts idx)) as [Hlt|Hge].
    + destruct (IH (S i) i) as (Hr & Hm & Hf); [lia| | |].
      * intros j Hj. destruct (decide (j = i)) as [->|]; [lia|].
        specialize (Hmin j ltac:(lia)). lia.
      * intros j Hj. specialize (Hmin j ltac:(lia)). lia.
      * split_and!; [lia| |done]. intros j Hj. apply Hm. lia.
    + destruct (IH (S i) idx) as (Hr & Hm & Hf); [lia| |done|].
      * intros j Hj. destruct (decide (j = i)) as [->|]; [lia|].
        apply Hmin. lia.
      * split_and!; [lia| |done]. intros j Hj. apply Hm. lia.
Qed.

Lemma cache_oldest_spec cache :
  let i := cache_oldest cache in
  (i < GOON_CACHE_SIZE)%nat
  ∧ (∀ j, (j < GOON_CACHE_SIZE)%nat →
       read_time (c_timestamps cache) i ≤ read_time (c_timestamps cache) j)
  ∧ (∀ j, (j < i)%nat →
       read_time (c_timestamps cache) i < read_time (c_timestamps cache) j).
Proof.
  unfold cache_oldest.
  destruct (oldest_scan_spec (c_timestamps cache) 1 (GOON_CACHE_SIZE - 1) 0)
    as (Hr & Hm & Hf); [lia| |intros; lia|].
  - intros j Hj. replace j with 0%nat by lia. lia.
  - split_and!; [exact Hr|exact Hm|exact Hf].
Qed.

(** C6 (as the code has it). In a full cache, a successful [set] of a key
    that is not present overwrites, in place, the slot of minimal timestamp
    (the lowest such index on a tie) with the key as [strncpy] stores it
    (the key itself when it has at most 127 characters), a copy of the
    value, the size and the time of the call; every other slot and the count
    stay as they are. *)
Theorem cache_set_evicts_oldest cache key value size now :
  cache_wf cache →
  c_count cache = GOON_CACHE_SIZE →
  (∀ j, (j < c_count cache)%nat → c_keys cache !! j ≠ Some key) →
  let i := cache_oldest cache in
  ∃ cache',
    goon_cache_set cache key value size now true = (GOON_SUCCESS, cache')
    ∧ (i < GOON_CACHE_SIZE)%nat
    ∧ (∀ j, (j < GOON_CACHE_SIZE)%nat →
         read_time (c_timestamps cache) i ≤ read_time (c_timestamps cache) j)
    ∧ (∀ j, (j < i)%nat →
         read_time (c_timestamps cache) i < read_time (c_timestamps cache) j)
    ∧ c_keys cache' !! i = Some (strncpy (GOON_MAX_NAME_LEN - 1) key)
    ∧ ((String.length key ≤ GOON_MAX_NAME_LEN - 1)%nat →
         c_keys cache' !! i = Some key)
    ∧ c_values cache' !! i = Some (Some (copy_bytes value size))
    ∧ c_sizes cache' !! i = Some size
    ∧ c_timestamps cache' !! i = Some now
    ∧ (∀ j, j ≠ i →
         c_keys cache' !! j = c_keys cache !! j
         ∧ c_values cache' !! j = c_values cache !! j
         ∧ c_sizes cache' !! j = c_sizes cache !! j
         ∧ c_timestamps cache' !! j = c_timestamps cache !! j)
    ∧ c_count cache' = GOON_CACHE_SIZE.
Proof.
  intros (Hk & Hv & Ht & Hs) Hcount Habsent i.
  destruct (cache_oldest_spec cache) as (Hi & Hmin & Hfirst). fold i in Hi, Hmin, Hfirst.
  unfold goon_cache_set.
  rewrite (proj2 (cache_find_None cache key ltac:(lia)) Habsent).
  rewrite Hcount. simpl (_ <=? _)%nat. cbv iota. fold i.
  eexists. split; [reflexivity|].
  cbn [c_keys c_values c_sizes c_timestamps c_count].
  split_and!; try done.
  - apply list_lookup_insert_eq. lia.
  - intros Hlen. rewrite strncpy_short by done. apply list_lookup_insert_eq. lia.
  - apply list_lookup_insert_eq. lia.
  - apply list_lookup_insert_eq. lia.
  - apply list_lookup_insert_eq. lia.
  - intros j Hj. by rewrite !list_lookup_insert_ne.
Qed.

Lemma sample_full_cache_wf : cache_wf sample_full_cache.
Proof. unfold cache_wf. split_and!; vm_compute; reflexivity. Qed.

Lemma sample_full_cache_absent key :
  cache_find sample_full_cache key = None →
  ∀ j, (j < c_count sample_full_cache)%nat →
       c_keys sample_full_cache !! j ≠ Some key.
Proof. apply cache_find_None. vm_compute. lia. Qed.

Lemma cache_set_evicts_oldest_witness :
  cache_oldest sample_full_cache = 0%nat
  ∧ ∃ cache',
      goon_cache_set sample_full_cache "fresh" [Byte.x02; Byte.x03] 2 500 true
      = (GOON_SUCCESS, cache')
      ∧ c_keys cache' !! 0%nat = Some "fresh"%string
      ∧ c_values cache' !! 0%nat = Some (Some [Byte.x02; Byte.x03])
      ∧ c_timestamps cache' !! 0%nat = Some 500
      ∧ c_keys cache' !! 1%nat = c_keys sample_full_cache !! 1%nat.
Proof.
  split; [vm_compute; reflexivity|].
  destruct (cache_set_evicts_oldest sample_full_cache "fresh"
              [Byte.x02; Byte.x03] 2 500)
    as (cache' & Hset & _ & _ & _ & _ & Hkey & Hval & _ & Htime & Hrest & _).
  - exact sample_full_cache_wf.
  - vm_compute. reflexivity.
  - apply sample_full_cache_absent. vm_compute. reflexivity.
  - exists cache'. split; [exact Hset|].
    change (cache_oldest sample_full_cache) with 0%nat in Hkey, Hval, Htime, Hrest.
    split_and!.
    + apply Hkey. vm_compute. lia.
    + exact Hval.
    + exact Htime.
    + apply (Hrest 1%nat). lia.
Defined.

(** C6 does not hold as worded: the evicted slot does not receive the new
    key when the key has more than 127 characters.  The key is absent from
    the full cache before the call, the call succeeds, and afterwards no slot
    holds the key: slot 0, the oldest, holds its first 127 characters. *)
Lemma cache_set_long_key_counterexample :
  c_count sample_full_cache = GOON_CACHE_SIZE
  ∧ cache_find sample_full_cache long_key = None
  ∧ ∃ cache',
      goon_cache_set sample_full_cache long_key [Byte.x02] 1 500 true
      = (GOON_SUCCESS, cache')
      ∧ cache_oldest sample_full_cache = 0%nat
      ∧ c_keys cache' !! 0%nat ≠ Some long_key
      ∧ c_keys cache' !! 0%nat
        = Some (string_of_list_ascii (replicate 127 "k"%char))
      ∧ cache_find cache' long_key = None.
Proof.
  split; [vm_compute; reflexivity|]. split; [vm_compute; reflexivity|].
  eexists. split; [vm_compute; reflexivity|].
  split; [vm_compute; reflexivity|].
  split; [|split; vm_compute; reflexivity].
  vm_compute. intros [=].
Qed.

(** Eviction in the full sample cache: the new key takes slot 0, whose key
    was the oldest; the oldest key is gone and the 63 others are where they
    were. *)
Example cache_eviction_scenario :
  let cache' :=
    (goon_cache_set sample_full_cache "fresh" [Byte.x02] 1 500 true).2 in
  cache_find cache' "fresh" = Some 0%nat
  ∧ cache_find cache' (sample_key 0) = None
  ∧ Forall (λ i, cache_find cache' (sample_key i) = Some i) (seq 1 63).
Proof.
  split; [vm_compute; reflexivity|]. split; [vm_compute; reflexivity|].
  apply (bool_decide_unpack _). vm_compute. exact I.
Qed.

(** A hit of [goon_cache_get] refreshes the timestamp, so the slot is no
    longer the one to evict: after a [get] of the oldest key the next [set]
    of a new key evicts slot 1. *)
Example cache_refresh_on_get :
  let cache1 := (goon_cache_get sample_full_cache (sample_key 0) 400).2 in
  cache_oldest sample_full_cache = 0%nat ∧ cache_oldest cache1 = 1%nat.
Proof. split; vm_compute; reflexivity. Qed.

(** ** Linked lists in a heap *)

Lemma chain_det N p ls1 ls2 : chain N p ls1 → chain N p ls2 → ls1 = ls2.
Proof.
  revert p ls2. induction ls1 as [|l ls1 IH]; intros p [|l2 ls2]; simpl.
  - done.
  - intros -> [? _]. done.
  - intros [-> _] ?. done.
  - intros [-> (n & Hn & Hc)] [[= <-] (n2 & Hn2 & Hc2)].
    f_equal. rewrite Hn in Hn2. injection Hn2 as <-. by eapply IH.
Qed.

Lemma chain_suffix N p ls1 ls2 :
  chain N p (ls1 ++ ls2) → ∃ q, chain N q ls2.
Proof.
  revert p. induction ls1 as [|l ls1 IH]; intros p; simpl; [by eexists|].
  intros [_ (n & _ & Hc)]. by eapply IH.
Qed.

(** A null-terminated chain visits no location twice. *)
Lemma chain_NoDup N p ls : chain N p ls → NoDup ls.
Proof.
  revert p. induction ls as [|l ls IH]; intros p; simpl; [constructor|].
  intros [-> (n & Hn & Hc)]. constructor; [|by eapply IH].
  intros Hin. apply list_elem_of_split in Hin as (l1 & l2 & ->).
  destruct (chain_suffix _ _ _ _ Hc) as (q & Hq).
  assert (chain N (Some l) (l :: l1 ++ l :: l2)) as Hall
    by (simpl; eauto).
  pose proof Hq as [-> _].
  pose proof (chain_det _ _ _ _ Hall Hq) as Heq.
  apply (f_equal length) in Heq. simpl in Heq.
  rewrite length_app in Heq. simpl in Heq. lia.
Qed.

Lemma chain_allocated N p ls l : chain N p ls → l ∈ ls → is_Some (N !! l).
Proof.
  revert p. induction ls as [|l' ls IH]; intros p; simpl.
  - intros _ Hin. by apply elem_of_nil in Hin.
  - intros [_ (n & Hn & Hc)] [->|Hin]%elem_of_cons; [by eexists|].
    by eapply IH.
Qed.

Lemma chain_alter_notin N p ls l f :
  l ∉ ls → chain N p ls → chain (alter f l N) p ls.
Proof.
  revert p. induction ls as [|l' ls IH]; intros p; simpl; [done|].
  intros Hnotin [-> (n & Hn & Hc)]. apply not_elem_of_cons in Hnotin as [? ?].
  split; [done|]. exists n. rewrite lookup_alter_ne by done. auto.
Qed.

Lemma chain_delete_notin N p ls l :
  l ∉ ls → chain N p ls → chain (delete l N) p ls.
Proof.
  revert p. induction ls as [|l' ls IH]; intros p; simpl; [done|].
  intros Hnotin [-> (n & Hn & Hc)]. apply not_elem_of_cons in Hnotin as [? ?].
  split; [done|]. exists n. rewrite lookup_delete_ne by done. auto.
Qed.

(** Linking a fresh cell [e] behind the last cell [t]. *)
Lemma chain_alter_snoc N p ls t e :
  chain N p (ls ++ [t]) → e ∉ ls ++ [t] → is_Some (N !! e) →
  chain (alter (λ _, Some e) t (alter (λ _, None) e N)) p (ls ++ [t; e]).
Proof.
  intros Hc Hnotin [ne Hne]. pose proof (chain_NoDup _ _ _ Hc) as Hnd.
  revert p Hc Hnotin Hnd. induction ls as [|l ls IH]; intros p; simpl.
  - intros [-> (n & Hn & _)] Hnotin _.
    assert (e ≠ t) by (intros ->; apply Hnotin; by left).
    split; [done|]. exists (Some e). split.
    { rewrite lookup_alter_eq, lookup_alter_ne, Hn by done. done. }
    split; [done|]. exists None. split; [|done].
    rewrite lookup_alter_ne, lookup_alter_eq, Hne by done. done.
  - intros [-> (n & Hn & Hc)] Hnotin Hnd.
    apply not_elem_of_cons in Hnotin as [? ?].
    apply NoDup_cons in Hnd as [Hl ?].
    assert (l ≠ t) by (intros ->; apply Hl, elem_of_app; right; by left).
    split; [done|]. exists n. split; [|by apply IH].
    rewrite !lookup_alter_ne, Hn by done. done.
Qed.

Lemma next_alter_event (E : gmap loc goon_event) (e : loc) (n : ptr) :
  ev_next <$> alter (set_ev_next n) e E = alter (λ _, n) e (ev_next <$> E).
Proof. by apply fmap_alter. Qed.

Lemma next_alter_handler (H : gmap loc goon_handler) (h : loc) (n : ptr) :
  h_next <$> alter (set_h_next n) h H = alter (λ _, n) h (h_next <$> H).
Proof. by apply fmap_alter. Qed.

(** ** Event queue *)

Lemma goon_queue_create_holds E max_size :
  max_size < 2 ^ 64 → queue_holds E (goon_queue_create max_size) [].
Proof.
  intros Hmax. unfold queue_holds, goon_queue_create; simpl.
  split_and!; [done..| |]; destruct (Z.ltb_spec 0 max_size);
    unfold GOON_MAX_QUEUE_SIZE; lia.
Qed.

Lemma goon_queue_push_holds E q ls e :
  queue_holds E q ls → e ∉ ls → is_Some (E !! e) →
  q_size q < q_max_size q →
  ∃ E' q', goon_queue_push E q (Some e) = (GOON_SUCCESS, E', q')
    ∧ queue_holds E' q' (ls ++ [e])
    ∧ dom E' = dom E.
Proof.
  intros (Hc & Htail & Hsize & Hmax) Hnotin Halloc Hroom.
  unfold goon_queue_push.
  destruct (Z.leb_spec (q_max_size q) (q_size q)) as [|_]; [lia|].
  assert (wrap64 (q_size q + 1) = q_size q + 1) as Hsz.
  { unfold wrap64. rewrite Z.mod_small; lia. }
  assert (Z.of_nat (length (ls ++ [e])) = q_size q + 1) as Hlen.
  { rewrite length_app; simpl. lia. }
  destruct (q_tail q) as [t|] eqn:Ht.
  - symmetry in Htail. apply last_Some in Htail as (ls0 & ->).
    eexists _, _. split; [reflexivity|]. split.
    + unfold queue_holds; simpl. rewrite Hsz, Hlen.
      split_and!; [| |done|lia|lia].
      * rewrite !next_alter_event, <-(assoc_L (++)). simpl.
        apply chain_alter_snoc; [done..|].
        rewrite lookup_fmap. by apply fmap_is_Some.
      * by rewrite last_snoc.
    + by rewrite !dom_alter_L.
  - symmetry in Htail. apply last_None in Htail as ->.
    eexists _, _. split; [reflexivity|]. split.
    + unfold queue_holds; simpl. rewrite Hsz. simpl in Hsize.
      split_and!; [done| |done|lia|lia|lia].
      exists None. split; [|done].
      destruct Halloc as [ev Hev].
      by rewrite lookup_fmap, lookup_alter_eq, Hev.
    + by rewrite dom_alter_L.
Qed.

Lemma goon_queue_pop_holds E q e ls :
  queue_holds E q (e :: ls) →
  ∃ E' q', goon_queue_pop E q = (Some e, E', q')
    ∧ queue_holds E' q' ls
    ∧ dom E' = dom E.
Proof.
  intros (Hc & Htail & Hsize & Hmax).
  pose proof (chain_NoDup _ _ _ Hc) as [Hnotin _]%NoDup_cons.
  destruct Hc as [Hhead (n & Hn & Hc)].
  unfold goon_queue_pop. rewrite Hhead.
  assert (E !! e ≫= ev_next = n) as ->.
  { rewrite lookup_fmap in Hn. destruct (E !! e); simpl in *; congruence. }
  eexists _, _. split; [reflexivity|]. split.
  - unfold queue_holds; simpl. split_and!.
    + rewrite next_alter_event. by apply chain_alter_notin.
    + destruct ls as [|l ls]; simpl in Hc; [by rewrite Hc|].
      destruct Hc as [-> _]. done.
    + unfold wrap64. simpl in Hsize. rewrite Z.mod_small; lia.
    + unfold wrap64. simpl in Hsize. rewrite Z.mod_small; lia.
    + lia.
  - by rewrite dom_alter_L.
Qed.

Lemma goon_queue_pop_empty E q :
  queue_holds E q [] → goon_queue_pop E q = (None, E, q).
Proof. intros (Hc & _). simpl in Hc. unfold goon_queue_pop. by rewrite Hc. Qed.

(** C5. A push on a queue whose size equals [max_size] returns
    [GOON_ERROR_OVERFLOW] and changes neither the queue structure (size,
    head, tail) nor the heap of events, so the linked sequence is the same. *)
Theorem queue_push_full E q e :
  q_size q = q_max_size q →
  goon_queue_push E q (Some e) = (GOON_ERROR_OVERFLOW, E, q).
Proof.
  intros Hfull. unfold goon_queue_push.
  by destruct (Z.leb_spec (q_max_size q) (q_size q)); [|lia].
Qed.

Lemma goon_queue_push_success E q e E' q' :
  goon_queue_push E q (Some e) = (GOON_SUCCESS, E', q') →
  q_size q < q_max_size q.
Proof.
  unfold goon_queue_push.
  destruct (Z.leb_spec (q_max_size q) (q_size q)); [discriminate|done].
Qed.

Lemma push_all_holds es : ∀ E q ls rcs E1 q1,
  queue_holds E q ls → NoDup es →
  (∀ e, e ∈ es → e ∉ ls) → (∀ e, e ∈ es → is_Some (E !! e)) →
  push_all E q es = (rcs, E1, q1) →
  Forall (λ rc, rc = GOON_SUCCESS) rcs →
  queue_holds E1 q1 (ls ++ es).
Proof.
  induction es as [|e es IH]; intros E q ls rcs E1 q1 Hq Hnd Hfresh Halloc;
    cbn [push_all].
  - intros [= <- <- <-] _. by rewrite app_nil_r.
  - destruct (goon_queue_push E q (Some e)) as [[rc E'] q'] eqn:Hpush.
    destruct (push_all E' q' es) as [[rcs' E2] q2] eqn:Hrest.
    intros [= <- <- <-] [-> Hok]%Forall_cons.
    apply NoDup_cons in Hnd as [Hne Hnd].
    destruct (goon_queue_push_holds E q ls e) as (E'' & q'' & Hp & Hq' & Hdom);
      [done|apply Hfresh; by left|apply Halloc; by left
      |by eapply goon_queue_push_success|].
    rewrite Hpush in Hp. injection Hp as <- <-.
    rewrite (assoc_L (++) ls [e] es : ls ++ e :: es = (ls ++ [e]) ++ es).
    eapply IH; [exact Hq'|done| | |exact Hrest|done].
    + intros e' Hin [Hl|He]%elem_of_app.
      * apply (Hfresh e'); [by right|done].
      * apply list_elem_of_singleton in He as ->. done.
    + intros e' Hin. apply elem_of_dom. rewrite Hdom. apply elem_of_dom.
      apply Halloc. by right.
Qed.

Lemma pop_n_holds ls : ∀ E q,
  queue_holds E q ls →
  ∃ E' q', pop_n (length ls) E q = (Some <$> ls, E', q') ∧ queue_holds E' q' [].
Proof.
  induction ls as [|e ls IH]; intros E q Hq; simpl.
  - by eexists _, _.
  - destruct (goon_queue_pop_holds _ _ _ _ Hq) as (E1 & q1 & -> & Hq1 & _).
    destruct (IH _ _ Hq1) as (E2 & q2 & -> & Hq2). by eexists _, _.
Qed.

(** C4. Queue FIFO: on a queue holding the events [old], after the pushes
    of distinct allocated events [es] that are not in the queue, all of them
    successful, the pops return the events of [old] and then those of [es],
    each in the order of its push, and the pop that follows returns [NULL]. *)
Theorem queue_fifo E q old es rcs E1 q1 :
  queue_holds E q old →
  NoDup es →
  (∀ e, e ∈ es → e ∉ old) →
  (∀ e, e ∈ es → is_Some (E !! e)) →
  push_all E q es = (rcs, E1, q1) →
  Forall (λ rc, rc = GOON_SUCCESS) rcs →
  ∃ E2 q2,
    pop_n (length old + length es) E1 q1 = (Some <$> (old ++ es), E2, q2)
    ∧ goon_queue_pop E2 q2 = (None, E2, q2).
Proof.
  intros Hq Hnd Hfresh Halloc Hpush Hok.
  pose proof (push_all_holds es E q old rcs E1 q1 Hq Hnd Hfresh Halloc
                Hpush Hok) as Hq1.
  destruct (pop_n_holds _ _ _ Hq1) as (E2 & q2 & Hpop & Hq2).
  exists E2, q2. rewrite length_app in Hpop.
  split; [exact Hpop|by apply goon_queue_pop_empty].
Qed.

Lemma queue_fifo_witness :
  let '(rcs, E1, q1) :=
    push_all sample_events (goon_queue_create 8) [3; 1; 2]%positive in
  rcs = [GOON_SUCCESS; GOON_SUCCESS; GOON_SUCCESS]
  ∧ ∃ E2 q2,
      pop_n 3 E1 q1 = ([Some 3; Some 1; Some 2]%positive, E2, q2)
      ∧ goon_queue_pop E2 q2 = (None, E2, q2).
Proof.
  destruct (push_all sample_events (goon_queue_create 8) [3; 1; 2]%positive)
    as [[rcs E1] q1] eqn:Hpush.
  assert (rcs = [GOON_SUCCESS; GOON_SUCCESS; GOON_SUCCESS]) as Hrcs.
  { apply (f_equal (λ x, x.1.1)) in Hpush. vm_compute in Hpush.
    symmetry. exact Hpush. }
  split; [exact Hrcs|].
  apply (queue_fifo sample_events (goon_queue_create 8) []
           [3; 1; 2]%positive rcs E1 q1).
  - by apply goon_queue_create_holds.
  - apply (bool_decide_unpack _). vm_compute. exact I.
  - intros e _ Hin. by apply elem_of_nil in Hin.
  - intros e Hin. apply elem_of_dom.
    revert e Hin. apply Forall_forall.
    repeat constructor; apply (bool_decide_unpack _); vm_compute; exact I.
  - exact Hpush.
  - rewrite Hrcs. repeat constructor.
Defined.

Lemma queue_push_full_witness :
  ∃ E q,
    push_all sample_events (goon_queue_create 2) [1; 2]%positive
    = ([GOON_SUCCESS; GOON_SUCCESS], E, q)
    ∧ q_size q = q_max_size q
    ∧ goon_queue_push E q (Some 3%positive) = (GOON_ERROR_OVERFLOW, E, q).
Proof.
  eexists _, _. split; [vm_compute; reflexivity|].
  split; [reflexivity|].
  apply queue_push_full. reflexivity.
Defined.

(** Pushing an event that is still queued breaks the list: after the pushes
    of 1, 2 and 1 again, the first pop returns 1 and the second [NULL],
    although [size] still counts two events. *)
Example push_queued_event_again :
  let '(rcs, E1, q1) :=
    push_all sample_events (goon_queue_create 8) [1; 2; 1]%positive in
  rcs = [GOON_SUCCESS; GOON_SUCCESS; GOON_SUCCESS]
  ∧ (pop_n 2 E1 q1).1.1 = [Some 1%positive; None]
  ∧ q_size (pop_n 2 E1 q1).2 = 2.
Proof. vm_compute. auto. Qed.

(** ** Event text serialization *)

Example format_event_example :
  string_of_list_ascii
    (format_event {| ev_id := 42; ev_name := "hello"; ev_priority := 1;
                     ev_timestamp := -7; ev_data := None;
                     ev_user_data := None; ev_next := None |})
  = "EVENT{id:42,name:hello,priority:1,timestamp:-7}"%string.
Proof. reflexivity. Qed.

Example deserialize_example :
  (goon_event_deserialize
     (Some (list_ascii_of_string "EVENT{id:42,name:hello,priority:1,timestamp:-7}"))
     {| g_next_handler_id := 1; g_next_event_id := 5; g_next_context_id := 1 |}
     1000 true).1
  = Some {| ev_id := 42; ev_name := "hello"; ev_priority := 1;
            ev_timestamp := -7; ev_data := None;
            ev_user_data := None; ev_next := None |}.
Proof. reflexivity. Qed.

(** Numerals that do not fit: the id beyond [ULONG_MAX] is stored as
    [UINT_MAX], the priority beyond [LONG_MAX] as [-1] (the low 32 bits of
    [LONG_MAX]) and the timestamp below [LONG_MIN] as [LONG_MIN]; a priority
    within [long] keeps its low 32 bits. *)
Example deserialize_out_of_range :
  sscanf_event
    (list_ascii_of_string
       "EVENT{id:18446744073709551621,name:a,priority:9223372036854775813,timestamp:-9223372036854775813}")
  = Some (4294967295, "a"%string, -1, -9223372036854775808)
  ∧ sscanf_event
      (list_ascii_of_string
         "EVENT{id:-5,name:a,priority:4294967301,timestamp:5}")
    = Some (4294967291, "a"%string, 5, 5).
Proof. split; vm_compute; reflexivity. Qed.

Lemma digit_char_is_digit d : 0 ≤ d < 10 → is_digit (digit_char d) = true.
Proof.
  intros Hd. unfold is_digit, digit_char.
  rewrite N_ascii_embedding by lia.
  apply andb_true_iff. split; apply N.leb_le; lia.
Qed.

Lemma digit_val_char d : 0 ≤ d < 10 → digit_val (digit_char d) = d.
Proof.
  intros Hd. unfold digit_val, digit_char.
  rewrite N_ascii_embedding by lia. lia.
Qed.

Lemma is_digit_not_space c : is_digit c = true → isspace c = false.
Proof.
  unfold is_digit, isspace. intros [H1 H2]%andb_true_iff.
  apply N.leb_le in H1. apply N.leb_le in H2.
  apply orb_false_iff. split.
  - apply N.eqb_neq. lia.
  - apply andb_false_iff. right. apply N.leb_gt. lia.
Qed.

Lemma is_digit_not_sign c :
  is_digit c = true → Ascii.eqb c "-" = false ∧ Ascii.eqb c "+" = false.
Proof.
  intros Hd. split; apply Ascii.eqb_neq; intros ->; discriminate.
Qed.

Lemma print_digits_app fuel n acc rest :
  print_digits fuel n acc ++ rest = print_digits fuel n (acc ++ rest).
Proof.
  revert n acc. induction fuel as [|fuel IH]; intros n acc; simpl; [done|].
  destruct (n <? 10); [done|]. by rewrite IH.
Qed.

Lemma print_digits_head fuel n acc :
  ∃ c t, print_digits (S fuel) n acc = c :: t ∧ is_digit c = true.
Proof.
  revert n acc. induction fuel as [|fuel IH]; intros n acc.
  - simpl. exists (digit_char (n mod 10)), acc.
    split; [by destruct (n <? 10)|].
    apply digit_char_is_digit, Z.mod_pos_bound. lia.
  - cbn [print_digits]. destruct (n <? 10).
    + exists (digit_char (n mod 10)), acc. split; [done|].
      apply digit_char_is_digit, Z.mod_pos_bound. lia.
    + apply IH.
Qed.

(** Reading back the digits of [n] leaves [n] in the accumulator. *)
Lemma scan_print_digits fuel n acc :
  0 ≤ n < 2 ^ Z.of_nat fuel →
  scan_digits (print_digits fuel n acc) 0 = scan_digits acc n.
Proof.
  revert n acc. induction fuel as [|fuel IH]; intros n acc Hn.
  - simpl in *. by replace n with 0 by lia.
  - cbn [print_digits].
    assert (0 ≤ n mod 10 < 10) as Hmod by (apply Z.mod_pos_bound; lia).
    destruct (Z.ltb_spec n 10) as [Hlt|Hge].
    + cbn [scan_digits]. rewrite digit_char_is_digit, digit_val_char by done.
      f_equal. rewrite Z.mod_small; lia.
    + rewrite IH.
      * cbn [scan_digits].
        rewrite digit_char_is_digit, digit_val_char by done.
        f_equal. pose proof (Z.div_mod n 10). lia.
      * rewrite Nat2Z.inj_succ, Z.pow_succ_r in Hn by lia.
        split; [apply Z.div_pos; lia|].
        apply Z.div_lt_upper_bound; lia.
Qed.

Lemma scan_digits_stop s acc : no_digit_ahead s → scan_digits s acc = (acc, s).
Proof. destruct s as [|c s]; simpl; [done|]. by intros ->. Qed.

Lemma print_unsigned_fuel n :
  0 ≤ n → n < 2 ^ Z.of_nat (S (Z.to_nat (Z.log2 n))).
Proof.
  intros Hn. rewrite Nat2Z.inj_succ, Z2Nat.id by apply Z.log2_nonneg.
  destruct (decide (n = 0)) as [->|]; [done|].
  apply Z.log2_spec. lia.
Qed.

Lemma scan_int_unsigned n rest :
  0 ≤ n → no_digit_ahead rest →
  scan_int (print_unsigned n ++ rest) = Some (n, rest).
Proof.
  intros Hn Hrest. unfold print_unsigned. rewrite print_digits_app. simpl app.
  destruct (print_digits_head (Z.to_nat (Z.log2 n)) n rest)
    as (c & t & Hprint & Hc).
  pose proof (scan_print_digits _ n rest
                (conj Hn (print_unsigned_fuel n Hn))) as Hscan.
  rewrite Hprint in *. unfold scan_int. cbn [skip_space].
  rewrite (is_digit_not_space c Hc).
  destruct (is_digit_not_sign c Hc) as [-> ->]. rewrite Hc, Hscan.
  by rewrite scan_digits_stop.
Qed.

Lemma scan_int_minus c t v rest :
  is_digit c = true →
  scan_int (c :: t) = Some (v, rest) →
  scan_int ("-"%char :: c :: t) = Some (- v, rest).
Proof.
  intros Hc. unfold scan_int. cbn [skip_space].
  change (isspace "-") with false. cbv iota.
  change (Ascii.eqb "-" "-") with true. cbv iota.
  rewrite (is_digit_not_space c Hc).
  destruct (is_digit_not_sign c Hc) as [-> ->]. rewrite Hc.
  destruct (scan_digits (c :: t) 0) as [w r]. by intros [= -> ->].
Qed.

Lemma scan_int_signed v rest :
  no_digit_ahead rest → scan_int (print_signed v ++ rest) = Some (v, rest).
Proof.
  intros Hrest. unfold print_signed.
  destruct (Z.ltb_spec v 0) as [Hneg|Hpos]; [|by apply scan_int_unsigned].
  pose proof (scan_int_unsigned (- v) rest ltac:(lia) Hrest) as Hu.
  rewrite <-app_comm_cons.
  unfold print_unsigned in *. rewrite print_digits_app in *.
  destruct (print_digits_head (Z.to_nat (Z.log2 (- v))) (- v) ([] ++ rest))
    as (c & t & Hprint & Hc).
  rewrite Hprint in *.
  rewrite (scan_int_minus c t (- v) rest Hc Hu). do 2 f_equal. lia.
Qed.

Lemma scan_literal_app lit rest : scan_literal lit (lit ++ rest) = Some rest.
Proof.
  induction lit as [|c lit IH]; simpl; [by destruct rest|].
  by rewrite Ascii.eqb_refl.
Qed.

Lemma scan_not_comma_app width name rest :
  (length name ≤ width)%nat → ","%char ∉ name →
  scan_not_comma width (name ++ ","%char :: rest) = (name, ","%char :: rest).
Proof.
  revert width. induction name as [|c name IH]; intros width Hlen Hno.
  - by destruct width.
  - destruct width as [|width]; [simpl in Hlen; lia|].
    apply not_elem_of_cons in Hno as [Hc Hno].
    simpl. destruct (Ascii.eqb_spec c ","); [done|].
    rewrite IH; [done|simpl in Hlen; lia|done].
Qed.

Lemma list_ascii_length s :
  length (list_ascii_of_string s) = String.length s.
Proof. induction s as [|c s IH]; simpl; [done|]. by rewrite IH. Qed.

Lemma scan_name_app name rest :
  name ≠ [] → (length name ≤ 127)%nat → ","%char ∉ name →
  scan_name (name ++ ","%char :: rest) = Some (name, ","%char :: rest).
Proof.
  intros Hne Hlen Hno. unfold scan_name.
  rewrite scan_not_comma_app by done. by destruct name.
Qed.

(** What [sscanf] reads back from the text of [snprintf]: the four fields,
    as stored in their C types. *)
Lemma sscanf_format_event event :
  0 ≤ ev_id event →
  ev_name event ≠ EmptyString →
  (String.length (ev_name event) ≤ 127)%nat →
  ","%char ∉ list_ascii_of_string (ev_name event) →
  sscanf_event (format_event event)
  = Some (store_u (ev_id event), ev_name event, store_d (ev_priority event),
          store_ld (ev_timestamp event)).
Proof.
  intros Hid Hne Hlen Hcomma. unfold sscanf_event, format_event.
  rewrite scan_literal_app. cbn [mbind option_bind].
  rewrite scan_int_unsigned; [|done|done]. cbn [mbind option_bind].
  rewrite scan_literal_app. cbn [mbind option_bind].
  change (list_ascii_of_string ",priority:" ++ ?rest)
    with (","%char :: (list_ascii_of_string "priority:" ++ rest)).
  rewrite scan_name_app; [| |by rewrite list_ascii_length|done].
  2:{ intros Hnil. apply Hne.
      by rewrite <-(string_of_list_ascii_of_string (ev_name event)), Hnil. }
  cbn [mbind option_bind].
  change (","%char :: (list_ascii_of_string "priority:" ++ ?rest))
    with (list_ascii_of_string ",priority:" ++ rest).
  rewrite scan_literal_app. cbn [mbind option_bind].
  rewrite scan_int_signed; [|done]. cbn [mbind option_bind].
  rewrite scan_literal_app. cbn [mbind option_bind].
  rewrite scan_int_signed; [|done]. cbn [mbind option_bind].
  by rewrite string_of_list_ascii_of_string.
Qed.

Lemma wrap32_small z : 0 ≤ z < 2 ^ 32 → wrap32 z = z.
Proof. intros. unfold wrap32. by apply Z.mod_small. Qed.

Lemma swrap_small w z :
  0 < w → - 2 ^ (w - 1) ≤ z < 2 ^ (w - 1) → swrap w z = z.
Proof.
  intros Hw Hz. unfold swrap.
  assert (2 ^ w = 2 * 2 ^ (w - 1)) as Hpow.
  { rewrite <-Z.pow_succ_r by lia. f_equal. lia. }
  rewrite Z.mod_small; lia.
Qed.

Lemma store_u_small z : 0 ≤ z < 2 ^ 32 → store_u z = z.
Proof.
  intros Hz. unfold store_u, strtoul.
  destruct (Z.leb_spec (2 ^ 64) (Z.abs z)) as [Hbig|_]; [lia|].
  unfold wrap64. rewrite Z.mod_small by lia. by apply wrap32_small.
Qed.

Lemma store_d_small z : - 2 ^ 31 ≤ z < 2 ^ 31 → store_d z = z.
Proof.
  intros Hz. unfold store_d, strtol.
  rewrite Z.min_l, Z.max_r by lia. apply swrap_small; lia.
Qed.

Lemma store_ld_small z : - 2 ^ 63 ≤ z < 2 ^ 63 → store_ld z = z.
Proof. intros Hz. unfold store_ld, strtol. lia. Qed.

(** C8 (as the code has it). Round trip: an event whose name is non-empty
    and has no comma, serialized into a buffer larger than its text and
    deserialized (with the allocation of the new event succeeding), gives an
    event with the same id, name, priority and timestamp. *)
Theorem serialize_roundtrip event buffer_size g now :
  event_wf event →
  ev_name event ≠ EmptyString →
  ","%char ∉ list_ascii_of_string (ev_name event) →
  Z.of_nat (length (format_event event)) < buffer_size →
  ∃ text event' g',
    goon_event_serialize event true buffer_size = (GOON_SUCCESS, Some text)
    ∧ goon_event_deserialize (Some text) g now true = (Some event', g')
    ∧ ev_id event' = ev_id event
    ∧ ev_name event' = ev_name event
    ∧ ev_priority event' = ev_priority event
    ∧ ev_timestamp event' = ev_timestamp event.
Proof.
  intros (Hid & Hprio & Htime & Hlen) Hne Hcomma Hsize.
  unfold GOON_MAX_NAME_LEN in Hlen. simpl in Hlen.
  exists (format_event event). eexists _, _. split.
  - unfold goon_event_serialize. cbn [negb orb].
    destruct (Z.eqb_spec buffer_size 0) as [->|_]; [lia|].
    destruct (Z.leb_spec buffer_size (Z.of_nat (length (format_event event))));
      [lia|].
    rewrite take_ge by lia. done.
  - unfold goon_event_deserialize.
    rewrite sscanf_format_event by (done || lia).
    unfold goon_event_create. split; [reflexivity|]. cbn [ev_id ev_name
      ev_priority ev_timestamp].
    split_and!.
    + apply store_u_small. lia.
    + by apply strncpy_short.
    + apply store_d_small; lia.
    + apply store_ld_small; lia.
Qed.

Lemma serialize_roundtrip_witness :
  ∃ text event',
    goon_event_serialize (sample_event 7 "hello world" GOON_PRIORITY_HIGH)
      true 128 = (GOON_SUCCESS, Some text)
    ∧ string_of_list_ascii text
      = "EVENT{id:7,name:hello world,priority:2,timestamp:1700000000}"%string
    ∧ (goon_event_deserialize (Some text) sample_globals 1800000000 true).1
      = Some event'
    ∧ ev_id event' = 7
    ∧ ev_name event' = "hello world"%string
    ∧ ev_priority event' = GOON_PRIORITY_HIGH
    ∧ ev_timestamp event' = 1700000000.
Proof.
  destruct (serialize_roundtrip
              (sample_event 7 "hello world" GOON_PRIORITY_HIGH) 128
              sample_globals 1800000000)
    as (text & event' & g' & Hser & Hde & Hid & Hname & Hprio & Htime).
  - unfold event_wf. split_and!; try (by vm_compute). simpl. lia.
  - discriminate.
  - apply (bool_decide_unpack _). vm_compute. exact I.
  - vm_compute. reflexivity.
  - exists text, event'. split; [exact Hser|].
    split; [|rewrite Hde; by split_and!].
    assert (Some text
            = Some (format_event
                      (sample_event 7 "hello world" GOON_PRIORITY_HIGH)))
      as [= ->]; [|reflexivity].
    transitivity (goon_event_serialize
                    (sample_event 7 "hello world" GOON_PRIORITY_HIGH)
                    true 128).2; [by rewrite Hser|reflexivity].
Defined.

(** C8 does not hold as worded for the empty name, which contains
    neither a comma nor a closing brace: the text is written, and
    [%127[^,]] finds nothing to match, so [goon_event_deserialize] returns
    [NULL]. *)
Lemma deserialize_empty_name_counterexample :
  let event := sample_event 7 "" GOON_PRIORITY_HIGH in
  event_wf event
  ∧ ∃ text,
      goon_event_serialize event true 128 = (GOON_SUCCESS, Some text)
      ∧ string_of_list_ascii text
        = "EVENT{id:7,name:,priority:2,timestamp:1700000000}"%string
      ∧ goon_event_deserialize (Some text) sample_globals 1800000000 true
        = (None, sample_globals).
Proof.
  split; [unfold event_wf; split_and!; try (by vm_compute); simpl; lia|].
  eexists. split; [reflexivity|]. split; reflexivity.
Qed.

(** ** The driver *)

Lemma sample_call_keeps_links : keeps_links sample_call.
Proof.
  intros f m event user_data. unfold sample_call.
  destruct (f =? fn_echo)%N; [done|].
  destruct (f =? fn_counter)%N.
  { unfold goon_handler_counter. by destruct user_data. }
  destruct (f =? fn_validator)%N; [|done].
  unfold goon_handler_validator. destruct (m_events m !! event); [|done].
  destruct (_ =? _)%nat; [done|]. by destruct (_ || _).
Qed.

(** C2. On a context that is not [Running], [process_events] returns
    [GOON_ERROR] and the machine is the one it was given: the queue and the
    event heap are untouched, no handler has been called and no statistics
    field has changed. *)
Theorem process_events_not_running call fuel m :
  ctx_state (m_ctx m) ≠ GOON_STATE_RUNNING →
  goon_context_process_events call fuel m = Done (GOON_ERROR, m, []).
Proof.
  intros Hstate. unfold goon_context_process_events.
  by rewrite bool_decide_true.
Qed.

(** [goon_stop] changes the state and nothing else: the process pass it
    runs sees the state [Stopping] and returns at its guard. *)
Lemma goon_stop_only_sets_state call fuel m :
  goon_stop call fuel m
  = Done (GOON_SUCCESS,
          set_ctx (set_ctx_state GOON_STATE_TERMINATED (m_ctx m)) m).
Proof.
  unfold goon_stop, goon_context_process_events. cbn.
  by rewrite bool_decide_true.
Qed.

Lemma next_record_call (H : gmap loc goon_handler) h result t :
  h_next <$> alter (record_call result t) h H = h_next <$> H.
Proof.
  rewrite (fmap_alter h_next _ id) by done.
  apply map_eq. intros i. rewrite lookup_alter.
  destruct (decide (h = i)) as [->|]; [|done].
  by destruct ((h_next <$> H) !! i).
Qed.

Lemma enabled_record_call (H : gmap loc goon_handler) h result t h' :
  enabled_in (alter (record_call result t) h H) h' = enabled_in H h'.
Proof.
  unfold enabled_in. rewrite lookup_alter.
  destruct (decide (h = h')) as [->|]; [|done]. by destruct (H !! h').
Qed.

Lemma next_apply_trace trace (H : gmap loc goon_handler) :
  h_next <$> apply_trace trace H = h_next <$> H.
Proof.
  revert H. induction trace as [|r trace IH]; intros H; [done|].
  unfold apply_trace in *. simpl. by rewrite IH, next_record_call.
Qed.

Lemma enabled_apply_trace trace (H : gmap loc goon_handler) h :
  enabled_in (apply_trace trace H) h = enabled_in H h.
Proof.
  revert H. induction trace as [|r trace IH]; intros H; [done|].
  unfold apply_trace in *. simpl. by rewrite IH, enabled_record_call.
Qed.

Lemma apply_trace_app tr1 tr2 (H : gmap loc goon_handler) :
  apply_trace (tr1 ++ tr2) H = apply_trace tr2 (apply_trace tr1 H).
Proof. apply foldl_app. Qed.

(** A handler ends with the accounting of its own calls. *)
Lemma apply_trace_lookup trace (H : gmap loc goon_handler) h :
  apply_trace trace H !! h
  = (λ hd, account hd (calls_of h trace)) <$> H !! h.
Proof.
  revert H. induction trace as [|r trace IH]; intros H.
  - simpl. by destruct (H !! h).
  - unfold apply_trace, calls_of, account in *. cbn [foldl].
    rewrite IH, lookup_alter, filter_cons.
    destruct (decide (cr_handler r = h)) as [->|Hne]; [|done].
    by destruct (H !! h).
Qed.

(** The walk over a well-formed handler list ends, calls the enabled
    handlers in list order, and accounts each call. *)
Lemma dispatch_spec call hs :
  keeps_links call →
  ∀ m p fuel event,
    chain (h_next <$> m_handlers m) p hs →
    (length hs ≤ fuel)%nat →
    ∃ m' trace,
      dispatch call fuel m event p = Done (m', trace)
      ∧ cr_handler <$> trace = filter (λ h, enabled_in (m_handlers m) h) hs
      ∧ Forall (λ r, cr_event r = event) trace
      ∧ m_handlers m' = apply_trace trace (m_handlers m)
      ∧ ctx_handlers (m_ctx m') = ctx_handlers (m_ctx m)
      ∧ ctx_event_queue (m_ctx m') = ctx_event_queue (m_ctx m)
      ∧ ev_next <$> m_events m' = ev_next <$> m_events m.
Proof.
  intros Hcall. induction hs as [|h hs IH]; intros m p fuel event Hc Hfuel.
  - simpl in Hc. subst p. exists m, []. by destruct fuel.
  - destruct Hc as [-> (n & Hn & Hc)].
    destruct fuel as [|fuel]; [simpl in Hfuel; lia|].
    rewrite lookup_fmap in Hn.
    destruct (m_handlers m !! h) as [hd|] eqn:Hhd; [|done].
    injection Hn as Hn. cbn [dispatch]. rewrite Hhd.
    assert (enabled_in (m_handlers m) h = h_enabled hd) as Hen
      by (unfold enabled_in; by rewrite Hhd).
    rewrite filter_cons, Hen.
    destruct (h_enabled hd) eqn:Henabled.
    + destruct (call (h_func hd) m event (h_user_data hd))
        as [result m1] eqn:Hrun.
      pose proof (Hcall (h_func hd) m event (h_user_data hd)) as Hframe.
      rewrite Hrun in Hframe. simpl in Hframe.
      destruct Hframe as (HH & Hreg & Hq & HE).
      cbv beta iota zeta. rewrite HH, Hhd.
      set (t := exec_time_ms (m_clock m) (m_clock m1)).
      set (m2 := set_handlers _ m1).
      assert (m_handlers m2 = alter (record_call result t) h (m_handlers m))
        as Hm2.
      { subst m2. simpl. symmetry. by apply alter_alt_Some. }
      change (h_next (record_call result t hd)) with (h_next hd). rewrite Hn.
      destruct (IH m2 n fuel event)
        as (m3 & trace & -> & Htr & Hev & Hm3 & Hreg3 & Hq3 & HE3);
        [by rewrite Hm2, next_record_call|simpl in Hfuel; lia|].
      eexists _, _. split; [reflexivity|].
      rewrite decide_True by done.
      split_and!.
      * rewrite fmap_cons, Htr. cbn [cr_handler]. f_equal.
        apply list_filter_iff. intros h'.
        by rewrite Hm2, enabled_record_call.
      * by constructor.
      * by rewrite Hm3, Hm2.
      * by rewrite Hreg3.
      * by rewrite Hq3.
      * by rewrite HE3.
    + rewrite Hn.
      destruct (IH m n fuel event) as (m3 & trace & -> & Htr & Hrest);
        [done|simpl in Hfuel; lia|].
      eexists _, _. split; [reflexivity|].
      rewrite decide_False by (by intros []). exact (conj Htr Hrest).
Qed.

(** A handler whose [next] is itself, as a second registration of the same
    object leaves it: the walk never ends. *)
Lemma dispatch_self_loop call :
  keeps_links call →
  ∀ fuel m event h hd,
    m_handlers m !! h = Some hd → h_next hd = Some h →
    dispatch call fuel m event (Some h) = OutOfFuel.
Proof.
  intros Hcall. induction fuel as [|fuel IH]; intros m event h hd Hhd Hnext;
    [done|].
  cbn [dispatch]. rewrite Hhd. destruct (h_enabled hd).
  - destruct (call (h_func hd) m event (h_user_data hd))
      as [result m1] eqn:Hrun.
    pose proof (Hcall (h_func hd) m event (h_user_data hd)) as Hframe.
    rewrite Hrun in Hframe. destruct Hframe as (HH & _).
    cbv beta iota zeta. simpl in HH. rewrite HH, Hhd.
    change (h_next (record_call ?r ?t hd)) with (h_next hd). rewrite Hnext.
    rewrite (IH _ event h (record_call result
                             (exec_time_ms (m_clock m) (m_clock m1)) hd));
      [done| |done].
    cbn [m_handlers set_handlers]. by rewrite lookup_insert_eq.
  - rewrite Hnext. by eapply IH.
Qed.

Example register_twice_never_returns fuel :
  goon_context_process_events sample_call fuel
    (register_all sample_ready [1; 1]%positive)
  = OutOfFuel.
Proof.
  unfold goon_context_process_events.
  rewrite bool_decide_false by (by intros []).
  destruct fuel as [|fuel]; [reflexivity|].
  cbn [process_loop].
  change (goon_queue_is_empty _) with false. cbv iota.
  destruct (goon_queue_pop _ _) as [[ev E] q] eqn:Hpop.
  vm_compute in Hpop. injection Hpop as <- <- <-.
  match goal with
  | |- context [dispatch sample_call fuel ?m1 _ ?p] =>
      change p with (Some 1%positive);
      erewrite (dispatch_self_loop sample_call sample_call_keeps_links
                  fuel m1 _ 1%positive);
      [done|vm_compute; reflexivity|reflexivity]
  end.
Qed.

Lemma dispatch_calls trace event (hs : list loc) :
  cr_handler <$> trace = hs →
  Forall (λ r, cr_event r = event) trace →
  (λ r, (cr_event r, cr_handler r)) <$> trace = (λ h, (event, h)) <$> hs.
Proof.
  revert hs. induction trace as [|r trace IH]; intros hs <- Hev; [done|].
  apply Forall_cons in Hev as [<- Hev]. rewrite !fmap_cons. f_equal.
  by apply IH.
Qed.

Lemma expected_calls_ext (H H' : gmap loc goon_handler) hs evs :
  (∀ h, enabled_in H' h = enabled_in H h) →
  expected_calls H' hs evs = expected_calls H hs evs.
Proof.
  intros Hen. unfold expected_calls.
  replace (filter (λ h, enabled_in H' h) hs)
    with (filter (λ h, enabled_in H h) hs); [done|].
  apply list_filter_iff. intros h. by rewrite Hen.
Qed.

(** The drain of a well-formed queue ends, empties the queue, and makes the
    expected calls. *)
Lemma process_loop_spec call hs evs :
  keeps_links call →
  ∀ m fuel processed,
    queue_holds (m_events m) (ctx_event_queue (m_ctx m)) evs →
    chain (h_next <$> m_handlers m) (ctx_handlers (m_ctx m)) hs →
    (length evs + length hs ≤ fuel)%nat →
    ∃ m' trace,
      process_loop call fuel m processed
      = Done (processed + Z.of_nat (length evs), m', trace)
      ∧ (λ r, (cr_event r, cr_handler r)) <$> trace
        = expected_calls (m_handlers m) hs evs
      ∧ m_handlers m' = apply_trace trace (m_handlers m)
      ∧ ctx_handlers (m_ctx m') = ctx_handlers (m_ctx m)
      ∧ queue_holds (m_events m') (ctx_event_queue (m_ctx m')) [].
Proof.
  intros Hcall. induction evs as [|e evs IH];
    intros m fuel processed Hq Hh Hfuel.
  - exists m, []. split_and!; try done.
    destruct Hq as (_ & _ & Hsize & _).
    destruct fuel; simpl; unfold goon_queue_is_empty; rewrite Hsize;
      simpl; by rewrite Z.add_0_r.
  - pose proof Hq as (Hc & _ & Hsize & _).
    pose proof (chain_NoDup _ _ _ Hc) as [Hfresh _]%NoDup_cons.
    destruct fuel as [|fuel]; [simpl in Hfuel; lia|].
    destruct (goon_queue_pop_holds _ _ _ _ Hq) as (E1 & q1 & Hpop & Hq1 & _).
    cbn [process_loop]. unfold goon_queue_is_empty. rewrite Hsize, Hpop.
    cbn [length]. rewrite Nat2Z.inj_succ.
    destruct (Z.eqb_spec (Z.succ (Z.of_nat (length evs))) 0) as [|_]; [lia|].
    set (m1 := set_ctx _ (set_events E1 m)).
    destruct (dispatch_spec call hs Hcall m1 (ctx_handlers (m_ctx m)) fuel e)
      as (m2 & tr1 & Hd & Htr1 & Hev1 & HH2 & Hreg2 & Hq2 & HE2);
      [done|simpl in Hfuel; lia|].
    change (ctx_handlers (m_ctx m1)) with (ctx_handlers (m_ctx m)).
    rewrite Hd. cbn [mbind outcome_bind].
    set (m4 := set_ctx _ (set_events _ m2)).
    destruct (IH m4 fuel (processed + 1)) as (m' & tr2 & -> & Htr2 & HH' & Hreg' & Hq').
    { subst m4. cbn. rewrite Hq2. subst m1. cbn.
      destruct Hq1 as (Hc1 & Ht1 & Hs1 & Hm1).
      unfold queue_holds. split_and!; [|done|done|lia|lia].
      rewrite fmap_delete, HE2. cbn. by apply chain_delete_notin. }
    { subst m4. cbn. rewrite HH2, Hreg2, next_apply_trace. done. }
    { simpl in Hfuel. lia. }
    eexists _, _. split; [cbn [mbind outcome_bind]; do 3 f_equal; lia|].
    split_and!.
    + rewrite fmap_app, Htr2.
      rewrite (expected_calls_ext (m_handlers m) (m_handlers m4)).
      * unfold expected_calls. rewrite bind_cons. f_equal.
        by apply dispatch_calls.
      * intros h. subst m4. cbn. by rewrite HH2, enabled_apply_trace.
    + rewrite HH'. subst m4. cbn. by rewrite HH2, apply_trace_app.
    + rewrite Hreg'. subst m4. cbn. by rewrite Hreg2.
    + done.
Qed.

(** The walk over the linked handlers is the visit of the list they form:
    every enabled handler is called through [call], in list order. *)
Lemma dispatch_visits call hs :
  keeps_links call →
  ∀ m p fuel event,
    chain (h_next <$> m_handlers m) p hs →
    (length hs ≤ fuel)%nat →
    dispatch call fuel m event p = Done (visit_all call m event hs).
Proof.
  intros Hcall. induction hs as [|h hs IH]; intros m p fuel event Hc Hfuel.
  - simpl in Hc. subst p. by destruct fuel.
  - destruct Hc as [-> (n & Hn & Hc)].
    destruct fuel as [|fuel]; [simpl in Hfuel; lia|].
    rewrite lookup_fmap in Hn.
    destruct (m_handlers m !! h) as [hd|] eqn:Hhd; [|done].
    injection Hn as Hn. cbn [dispatch visit_all]. unfold visit. rewrite Hhd.
    destruct (h_enabled hd) eqn:Henabled.
    + destruct (call (h_func hd) m event (h_user_data hd))
        as [result m1] eqn:Hrun.
      pose proof (Hcall (h_func hd) m event (h_user_data hd)) as Hframe.
      rewrite Hrun in Hframe. simpl in Hframe.
      destruct Hframe as (HH & _).
      cbv beta iota zeta. rewrite HH, Hhd.
      set (t := exec_time_ms (m_clock m) (m_clock m1)).
      assert (<[h := record_call result t hd]> (m_handlers m)
              = alter (record_call result t) h (m_handlers m)) as ->
        by (symmetry; by apply alter_alt_Some).
      change (h_next (record_call result t hd)) with (h_next hd). rewrite Hn.
      rewrite IH; [|cbn; by rewrite next_record_call|simpl in Hfuel; lia].
      by destruct (visit_all call _ event hs).
    + rewrite Hn, IH; [|done|simpl in Hfuel; lia].
      by destruct (visit_all call m event hs).
Qed.

(** The drain of a well-formed queue is the process pass told on lists. *)
Lemma process_loop_serves call hs evs :
  keeps_links call →
  ∀ m fuel processed,
    queue_holds (m_events m) (ctx_event_queue (m_ctx m)) evs →
    chain (h_next <$> m_handlers m) (ctx_handlers (m_ctx m)) hs →
    (length evs + length hs ≤ fuel)%nat →
    process_loop call fuel m processed
    = Done (processed + Z.of_nat (length evs),
            (serve call m hs evs).1, (serve call m hs evs).2).
Proof.
  intros Hcall. induction evs as [|e evs IH];
    intros m fuel processed Hq Hh Hfuel.
  - destruct Hq as (_ & _ & Hsize & _).
    destruct fuel; simpl; unfold goon_queue_is_empty; rewrite Hsize;
      simpl; by rewrite Z.add_0_r.
  - pose proof Hq as (Hc & _ & Hsize & _).
    pose proof (chain_NoDup _ _ _ Hc) as [Hfresh _]%NoDup_cons.
    destruct fuel as [|fuel]; [simpl in Hfuel; lia|].
    destruct (goon_queue_pop_holds _ _ _ _ Hq) as (E1 & q1 & Hpop & Hq1 & _).
    cbn [process_loop serve]. unfold goon_queue_is_empty, popped.
    rewrite Hsize, Hpop.
    cbn [length]. rewrite Nat2Z.inj_succ.
    destruct (Z.eqb_spec (Z.succ (Z.of_nat (length evs))) 0) as [|_]; [lia|].
    set (m1 := set_ctx _ (set_events E1 m)).
    destruct (dispatch_spec call hs Hcall m1 (ctx_handlers (m_ctx m)) fuel e)
      as (m2 & tr1 & Hd & _ & _ & HH2 & Hreg2 & Hq2 & HE2);
      [done|simpl in Hfuel; lia|].
    pose proof (dispatch_visits call hs Hcall m1 (ctx_handlers (m_ctx m))
                  fuel e Hh ltac:(simpl in Hfuel; lia)) as Hv.
    rewrite Hd in Hv. injection Hv as Hv.
    change (ctx_handlers (m_ctx m1)) with (ctx_handlers (m_ctx m)).
    rewrite Hd, <-Hv. cbn [mbind outcome_bind].
    fold (retire e m2).
    rewrite (IH (retire e m2) fuel (processed + 1)).
    + destruct (serve call (retire e m2) hs evs) as [m3 tr2].
      cbn [mbind outcome_bind fst snd]. do 3 f_equal. lia.
    + unfold retire. cbn. rewrite Hq2. subst m1. cbn.
      destruct Hq1 as (Hc1 & Ht1 & Hs1 & Hm1).
      unfold queue_holds. split_and!; [|done|done|lia|lia].
      rewrite fmap_delete, HE2. cbn. by apply chain_delete_notin.
    + unfold retire. cbn. rewrite HH2, Hreg2, next_apply_trace. done.
    + simpl in Hfuel. lia.
Qed.

Lemma process_events_serves call m hs evs fuel :
  keeps_links call →
  ctx_state (m_ctx m) = GOON_STATE_RUNNING →
  chain (h_next <$> m_handlers m) (ctx_handlers (m_ctx m)) hs →
  queue_holds (m_events m) (ctx_event_queue (m_ctx m)) evs →
  (length evs + length hs ≤ fuel)%nat →
  goon_context_process_events call fuel m
  = Done (Z.of_nat (length evs),
          (serve call m hs evs).1, (serve call m hs evs).2).
Proof.
  intros Hcall Hrun Hc Hq Hfuel. unfold goon_context_process_events.
  rewrite bool_decide_false by (rewrite Hrun; by intros []).
  by rewrite (process_loop_serves call hs evs Hcall m fuel 0 Hq Hc Hfuel).
Qed.

Lemma enabled_set_h_next (H : gmap loc goon_handler) h n h' :
  enabled_in (alter (set_h_next n) h H) h' = enabled_in H h'.
Proof.
  unfold enabled_in. rewrite lookup_alter.
  destruct (decide (h = h')) as [->|]; [|done]. by destruct (H !! h').
Qed.

(** Registrations of distinct, allocated handlers that are not in the
    registry put them in front of it, last registered first; they touch
    neither the flags of the handlers nor the queue, the events or the
    state. *)
Lemma register_all_spec hs :
  ∀ m hs0,
    chain (h_next <$> m_handlers m) (ctx_handlers (m_ctx m)) hs0 →
    NoDup hs →
    (∀ h, h ∈ hs → h ∉ hs0) →
    (∀ h, h ∈ hs → is_Some (m_handlers m !! h)) →
    let m' := register_all m hs in
    chain (h_next <$> m_handlers m') (ctx_handlers (m_ctx m')) (rev hs ++ hs0)
    ∧ (∀ h, enabled_in (m_handlers m') h = enabled_in (m_handlers m) h)
    ∧ m_events m' = m_events m
    ∧ ctx_event_queue (m_ctx m') = ctx_event_queue (m_ctx m)
    ∧ ctx_state (m_ctx m') = ctx_state (m_ctx m).
Proof.
  induction hs as [|h hs IH]; intros m hs0 Hc Hnd Hfresh Halloc; [done|].
  apply NoDup_cons in Hnd as [Hh Hnd].
  unfold register_all. cbn [foldl]. fold (register_all).
  set (m1 := (goon_context_register_handler m (Some h)).2).
  destruct (IH m1 (h :: hs0)) as (Hc' & Hen' & HE' & Hq' & Hs'); [|done| | |].
  - subst m1. cbn. rewrite next_alter_handler. split; [done|].
    exists (ctx_handlers (m_ctx m)). split.
    + destruct (Halloc h ltac:(by left)) as [hd Hhd].
      by rewrite lookup_alter_eq, lookup_fmap, Hhd.
    + apply chain_alter_notin; [|done]. apply Hfresh. by left.
  - intros h' Hin [->|Hin0]%elem_of_cons; [done|].
    apply (Hfresh h'); [by right|done].
  - intros h' Hin. subst m1. cbn. apply elem_of_dom. rewrite dom_alter_L.
    apply elem_of_dom, Halloc. by right.
  - cbn zeta. fold (register_all m1 hs).
    split_and!; [|intros h'; rewrite Hen'; subst m1; cbn;
                   by rewrite enabled_set_h_next|done..].
    cbn [rev]. by rewrite <-(assoc_L (++)).
Qed.

Lemma calls_of_one_event trace event (hs : list loc) :
  (λ r, (cr_event r, cr_handler r)) <$> trace = (λ h, (event, h)) <$> hs →
  cr_handler <$> trace = hs ∧ Forall (λ r, cr_event r = event) trace.
Proof.
  revert hs. induction trace as [|r trace IH]; intros [|h hs]; try done.
  rewrite !fmap_cons. intros [= He Hh Hrest].
  destruct (IH _ Hrest) as [-> Hall]. split; [by rewrite Hh|].
  by constructor.
Qed.


Lemma sample_handlers_allocated h :
  h ∈ [1; 2; 3]%positive → is_Some (m_handlers sample_ready !! h).
Proof.
  revert h. apply Forall_forall.
  repeat constructor; apply elem_of_dom, (bool_decide_unpack _);
    vm_compute; exact I.
Qed.


(** ** Statistics *)

Lemma wrap64_small z : 0 ≤ z < 2 ^ 64 → wrap64 z = z.
Proof. intros. unfold wrap64. by apply Z.mod_small. Qed.

Lemma account_call_count calls : ∀ hd,
  0 ≤ h_call_count hd →
  h_call_count hd + Z.of_nat (length calls) < 2 ^ 64 →
  h_call_count (account hd calls)
  = h_call_count hd + Z.of_nat (length calls).
Proof.
  induction calls as [|r calls IH]; intros hd Hlo Hhi.
  - simpl. lia.
  - unfold account in *. cbn [foldl length] in *.
    rewrite Nat2Z.inj_succ in *. rewrite IH; cbn [h_call_count record_call];
      rewrite wrap64_small; lia.
Qed.

Lemma account_error_count calls : ∀ hd,
  0 ≤ h_error_count hd →
  h_error_count hd + Z.of_nat (length calls) < 2 ^ 64 →
  h_error_count (account hd calls)
  = h_error_count hd + Z.of_nat (length (failures calls)).
Proof.
  induction calls as [|r calls IH]; intros hd Hlo Hhi.
  - simpl. lia.
  - unfold account, failures in *. cbn [foldl length] in *.
    rewrite Nat2Z.inj_succ in Hhi. rewrite filter_cons.
    destruct (decide (cr_result r ≠ GOON_SUCCESS)) as [Hne|Heq].
    + rewrite IH; cbn [h_error_count record_call];
        destruct (Z.eqb_spec (cr_result r) GOON_SUCCESS); try done;
        rewrite wrap64_small by lia; cbn [length]; lia.
    + apply dec_stable in Heq.
      rewrite IH; cbn [h_error_count record_call];
        destruct (Z.eqb_spec (cr_result r) GOON_SUCCESS); try done; lia.
Qed.

(** The average a handler ends with is the running mean of the times of
    its calls, updated call by call in [double] arithmetic. *)
Lemma account_running_mean calls : ∀ hd,
  0 ≤ h_call_count hd →
  h_call_count hd + Z.of_nat (length calls) < 2 ^ 64 →
  h_avg_exec_time (account hd calls)
  = running_mean (h_avg_exec_time hd) (h_call_count hd)
      (cr_exec_time <$> calls).
Proof.
  induction calls as [|r calls IH]; intros hd Hlo Hhi; [done|].
  unfold account in *. cbn [foldl length fmap list_fmap running_mean] in *.
  rewrite Nat2Z.inj_succ in Hhi.
  rewrite IH; cbn [h_call_count h_avg_exec_time record_call];
    rewrite ?(wrap64_small (h_call_count hd + 1)) by lia; [|lia..].
  replace (h_call_count hd + 1 - 1) with (h_call_count hd) by lia.
  by rewrite (wrap64_small (h_call_count hd)) by lia.
Qed.

Lemma filter_eq_NoDup (l : list loc) h :
  NoDup l → h ∈ l → filter (λ x, x = h) l = [h].
Proof.
  induction l as [|x l IH]; intros Hnd Hin; [by apply elem_of_nil in Hin|].
  apply NoDup_cons in Hnd as [Hx Hnd]. rewrite filter_cons.
  destruct (decide (x = h)) as [->|Hne].
  - f_equal. destruct (filter (λ x, x = h) l) as [|y t] eqn:Hf; [done|].
    assert (y ∈ filter (λ x, x = h) l) as [-> Hy]%list_elem_of_filter
      by (rewrite Hf; by left).
    done.
  - apply elem_of_cons in Hin as [->|Hin]; [done|]. by apply IH.
Qed.

Lemma calls_of_pairs h trace :
  (λ r, (cr_event r, cr_handler r)) <$> calls_of h trace
  = filter (λ p, p.2 = h) ((λ r, (cr_event r, cr_handler r)) <$> trace).
Proof.
  unfold calls_of. induction trace as [|r trace IH]; [done|].
  rewrite fmap_cons, !filter_cons. cbn [snd].
  destruct (decide (cr_handler r = h)); [|done].
  by rewrite fmap_cons, IH.
Qed.

(** In the expected calls, an enabled handler of a duplicate-free list
    occurs once for each event, in the order of the events. *)
Lemma expected_calls_of (H : gmap loc goon_handler) hs evs h :
  NoDup hs → h ∈ hs → enabled_in H h = true →
  filter (λ p, p.2 = h) (expected_calls H hs evs) = (λ e, (e, h)) <$> evs.
Proof.
  intros Hnd Hin Hen. unfold expected_calls.
  induction evs as [|e evs IH]; [done|].
  rewrite bind_cons, filter_app, IH, fmap_cons. f_equal.
  assert (∀ l : list loc,
    filter (λ p : loc * loc, p.2 = h) ((λ h', (e, h')) <$> l)
    = (λ h', (e, h')) <$> filter (λ x, x = h) l) as Hmap.
  { induction l as [|x l IHl]; [done|].
    rewrite fmap_cons, !filter_cons. cbn [snd].
    destruct (decide (x = h)); [|done]. by rewrite fmap_cons, IHl. }
  rewrite Hmap, filter_eq_NoDup; [done| |].
  - by apply NoDup_filter.
  - apply list_elem_of_filter. split; [by rewrite Hen|done].
Qed.

(** In the expected calls a handler that is disabled or not registered
    does not occur. *)
Lemma expected_calls_skip (H : gmap loc goon_handler) hs evs h :
  enabled_in H h = false ∨ h ∉ hs →
  filter (λ p, p.2 = h) (expected_calls H hs evs) = [].
Proof.
  intros Hskip. unfold expected_calls.
  induction evs as [|e evs IH]; [done|].
  rewrite bind_cons, filter_app, IH, app_nil_r.
  assert (∀ x, x ∈ filter (λ h', enabled_in H h') hs → x ≠ h) as Hne.
  { intros x [Hen Hin]%list_elem_of_filter ->.
    destruct Hskip as [Hoff|Hout]; [by rewrite Hoff in Hen|done]. }
  revert Hne. generalize (filter (λ h', enabled_in H h') hs).
  induction l as [|x l IHl]; intros Hne; [done|].
  rewrite fmap_cons, filter_cons. cbn [snd].
  rewrite decide_False by (apply Hne; by left).
  apply IHl. intros y Hy. apply Hne. by right.
Qed.


Lemma sample_loaded_handlers :
  chain (h_next <$> m_handlers sample_loaded)
    (ctx_handlers (m_ctx sample_loaded)) [3; 2; 1]%positive.
Proof.
  repeat (split; [reflexivity|]; eexists; split; [vm_compute; reflexivity|]).
  reflexivity.
Qed.

Lemma sample_loaded_queue :
  queue_holds (m_events sample_loaded) (ctx_event_queue (m_ctx sample_loaded))
    [1; 2]%positive.
Proof.
  unfold queue_holds. split_and!; try (by vm_compute).
  repeat (split; [reflexivity|]; eexists; split; [vm_compute; reflexivity|]).
  reflexivity.
Qed.



(** The average is a running mean in [double] arithmetic, not the
    arithmetic mean: each of three calls takes three ticks and is measured
    as the double nearest to 0.003 ms, so that their arithmetic mean is that
    very number; the average the handler ends with is the next double
    above it. *)
Example running_mean_rounds :
  ∃ m' trace hd',
    goon_context_process_events three_tick_call 10 sample_three
    = Done (3, m', trace)
    ∧ cr_exec_time <$> trace
      = replicate 3 (S754_finite false 6917529027641082 (-61))
    ∧ m_handlers m' !! 1%positive = Some hd'
    ∧ h_call_count hd' = 3
    ∧ h_avg_exec_time hd' = S754_finite false 6917529027641083 (-61).
Proof.
  eexists _, _, _.
  split; [vm_compute; reflexivity|].
  split; [vm_compute; reflexivity|].
  split; [vm_compute; reflexivity|].
  split; reflexivity.
Qed.

Lemma process_events_not_running_witness :
  goon_context_process_events sample_call 10 sample_paused
  = Done (GOON_ERROR, sample_paused, [])
  ∧ q_size (ctx_event_queue (m_ctx sample_paused)) = 2.
Proof.
  split; [|reflexivity].
  apply (process_events_not_running sample_call 10 sample_paused).
  vm_compute. discriminate.
Defined.

(** C1, where the code departs from it. [goon_stop] on the running sample,
    whose queue holds two events and whose three handlers are enabled:
    the context ends [Terminated], but the "final process pass" runs in
    state [Stopping], which the guard of [goon_context_process_events]
    rejects: both events are still queued and allocated, and no handler has
    been called.  A process pass on the same machine drains the two events
    with six calls. *)
Theorem goon_stop_does_not_drain :
  ∃ m',
    goon_stop sample_call 10 sample_loaded = Done (GOON_SUCCESS, m')
    ∧ ctx_state (m_ctx m') = GOON_STATE_TERMINATED
    ∧ ctx_event_queue (m_ctx m') = ctx_event_queue (m_ctx sample_loaded)
    ∧ q_size (ctx_event_queue (m_ctx m')) = 2
    ∧ m_events m' = m_events sample_loaded
    ∧ m_handlers m' = m_handlers sample_loaded
    ∧ h_call_count <$> m_handlers m'
      = <[1%positive := 0]> (<[2%positive := 0]> (<[3%positive := 0]> ∅))
    ∧ ∃ m'' trace,
        goon_context_process_events sample_call 10 sample_loaded
        = Done (2, m'', trace)
        ∧ length trace = 6%nat
        ∧ q_size (ctx_event_queue (m_ctx m'')) = 0.
Proof.
  eexists. split; [apply goon_stop_only_sets_state|].
  split_and!; try (vm_compute; reflexivity).
  eexists _, _. split; [vm_compute; reflexivity|]. split; reflexivity.
Qed.

(** * Further properties *)

#[local] Set Warnings "-clear-no-such-hyp".

(** ** Stack *)

Lemma goon_stack_push_success stack item stack' :
  stack_wf stack →
  goon_stack_push stack item = (GOON_SUCCESS, stack') →
  stack_wf stack'
  ∧ s_size stack' = S (s_size stack)
  ∧ s_capacity stack' = s_capacity stack
  ∧ take (s_size stack') (s_items stack')
    = take (s_size stack) (s_items stack) ++ [item].
Proof.
  intros [Hlen Hsize]. unfold goon_stack_push.
  destruct (Nat.leb_spec (s_capacity stack) (s_size stack)); [done|].
  intros [= <-]. unfold stack_wf. cbn.
  rewrite length_insert. split_and!; [done|lia|done..|].
  rewrite (take_S_r _ _ item) by (apply list_lookup_insert_eq; lia).
  by rewrite take_insert_ge by lia.
Qed.

Lemma stack_push_all_spec items : ∀ stack rcs stack',
  stack_wf stack →
  stack_push_all stack items = (rcs, stack') →
  Forall (λ rc, rc = GOON_SUCCESS) rcs →
  stack_wf stack'
  ∧ s_size stack' = (s_size stack + length items)%nat
  ∧ s_capacity stack' = s_capacity stack
  ∧ take (s_size stack') (s_items stack')
    = take (s_size stack) (s_items stack) ++ items.
Proof.
  induction items as [|x items IH]; intros stack rcs stack' Hwf;
    cbn [stack_push_all].
  - intros [= <- <-] _. rewrite Nat.add_0_r, app_nil_r. done.
  - destruct (goon_stack_push stack x) as [rc s1] eqn:Hpush.
    destruct (stack_push_all s1 items) as [rcs' s2] eqn:Hrest.
    intros [= <- <-] [-> Hok]%Forall_cons.
    destruct (goon_stack_push_success _ _ _ Hwf Hpush)
      as (Hwf1 & Hs1 & Hc1 & Ht1).
    destruct (IH _ _ _ Hwf1 Hrest Hok) as (Hwf2 & Hs2 & Hc2 & Ht2).
    split_and!; [done|simpl; lia|congruence|].
    rewrite Ht2, Ht1, <-(assoc_L (++)). done.
Qed.

Lemma stack_pop_n_spec items : ∀ stack base,
  (s_size stack = length base + length items)%nat →
  take (s_size stack) (s_items stack) = base ++ items →
  stack_pop_n (length items) stack
  = (rev items,
     {| s_items := s_items stack; s_size := length base;
        s_capacity := s_capacity stack |}).
Proof.
  induction items as [|x items IH] using rev_ind; intros stack base Hsize Htake.
  - simpl in *. destruct stack; simpl in *. f_equal. f_equal. lia.
  - rewrite length_app in *. simpl in Hsize |- *.
    rewrite Nat.add_1_r. cbn [stack_pop_n].
    unfold goon_stack_pop.
    destruct (Nat.eqb_spec (s_size stack) 0) as [|_]; [lia|].
    assert (read_ptr (s_items stack) (s_size stack - 1) = x) as ->.
    { unfold read_ptr.
      rewrite <-(lookup_take_lt (s_items stack) (s_size stack)) by lia.
      rewrite Htake, (assoc_L (++)), lookup_app_r;
        rewrite length_app; [|lia].
      replace (s_size stack - 1 - (length base + length items))%nat
        with 0%nat by lia. done. }
    rewrite (IH _ base); cbn [s_size s_items s_capacity].
    + rewrite rev_app_distr. done.
    + lia.
    + replace (take (s_size stack - 1) (s_items stack))
        with (take (s_size stack - 1) (take (s_size stack) (s_items stack)))
        by (rewrite take_take; f_equal; lia).
      rewrite Htake, (assoc_L (++)). apply take_app_length'.
      rewrite length_app. lia.
Qed.

(** X1. Stack LIFO: after pushes that all succeed, as many pops return the
    pushed items in reverse order and bring the stack back to its size, with
    the cells that were in use before untouched. *)
Theorem stack_lifo stack items rcs stack1 :
  stack_wf stack →
  stack_push_all stack items = (rcs, stack1) →
  Forall (λ rc, rc = GOON_SUCCESS) rcs →
  ∃ stack2,
    stack_pop_n (length items) stack1 = (rev items, stack2)
    ∧ s_size stack2 = s_size stack
    ∧ s_capacity stack2 = s_capacity stack
    ∧ take (s_size stack) (s_items stack2) = take (s_size stack) (s_items stack).
Proof.
  intros Hwf Hpush Hok.
  destruct (stack_push_all_spec _ _ _ _ Hwf Hpush Hok)
    as (Hwf1 & Hs1 & Hc1 & Ht1).
  eexists. split; [apply (stack_pop_n_spec items stack1
                            (take (s_size stack) (s_items stack)))|].
  - rewrite length_take. destruct Hwf as [Hlen Hsize]. lia.
  - done.
  - cbn. destruct Hwf as [Hlen Hsize]. rewrite length_take.
    split_and!; [lia|done|].
    replace (s_size stack `min` length (s_items stack))%nat
      with (s_size stack) by lia.
    apply (f_equal (take (s_size stack))) in Ht1.
    rewrite take_take, take_app_le in Ht1 by (rewrite length_take; lia).
    rewrite take_take in Ht1.
    replace (s_size stack `min` s_size stack1)%nat with (s_size stack) in Ht1
      by lia.
    by replace (s_size stack `min` s_size stack)%nat with (s_size stack) in Ht1
      by lia.
Qed.

Lemma stack_lifo_witness :
  let stack := (goon_stack_push (goon_stack_create 4) (Some 9%positive)).2 in
  ∃ stack1 stack2,
    stack_push_all stack [Some 1; None; Some 3]%positive
    = ([GOON_SUCCESS; GOON_SUCCESS; GOON_SUCCESS], stack1)
    ∧ stack_pop_n 3 stack1 = ([Some 3; None; Some 1]%positive, stack2)
    ∧ s_size stack2 = 1%nat
    ∧ goon_stack_peek stack2 = Some 9%positive.
Proof.
  intros stack. eexists.
  destruct (stack_lifo stack [Some 1; None; Some 3]%positive
              [GOON_SUCCESS; GOON_SUCCESS; GOON_SUCCESS]
              (stack_push_all stack [Some 1; None; Some 3]%positive).2)
    as (stack2 & Hpop & Hsize & _ & Htake).
  - split; [reflexivity|]. vm_compute. lia.
  - reflexivity.
  - repeat constructor.
  - exists stack2. split; [reflexivity|]. split; [exact Hpop|].
    split; [exact Hsize|].
    unfold goon_stack_peek. rewrite Hsize. cbn.
    change (s_size stack) with 1%nat in Htake.
    unfold read_ptr. rewrite <-(lookup_take_lt _ 1) by lia.
    by rewrite Htake.
Defined.

(** ** Queue: any interleaving *)

Lemma goon_queue_push_max_size E q event :
  q_max_size (goon_queue_push E q event).2 = q_max_size q.
Proof.
  unfold goon_queue_push. destruct event; [|done].
  destruct (_ <=? _); [done|]. by destruct (q_tail q).
Qed.

Lemma goon_queue_pop_max_size E q :
  q_max_size (goon_queue_pop E q).2 = q_max_size q.
Proof. unfold goon_queue_pop. by destruct (q_head q). Qed.

(** X2. The queue is a bounded FIFO under any interleaving of pushes and
    pops: as long as every admitted push is of an allocated event that is
    not queued at that moment, each operation returns what the reference
    FIFO returns (the pushed events in push order, [NULL] when empty,
    [GOON_ERROR_OVERFLOW] when [max_size] events are queued,
    [GOON_ERROR_NULL_PTR] for a [NULL] event) and the queue keeps its
    invariant. *)
Theorem queue_refines_fifo ops : ∀ E q ls,
  queue_holds E q ls →
  pushes_owned (dom E) (q_max_size q) ops ls →
  ∃ E' q',
    queue_run ops E q = ((fifo_run (q_max_size q) ops ls).1, E', q')
    ∧ queue_holds E' q' (fifo_run (q_max_size q) ops ls).2.
Proof.
  induction ops as [|op ops IH]; intros E q ls Hq Hown.
  - by exists E, q.
  - destruct op as [[e|]|]; cbn [queue_run fifo_run pushes_owned] in *.
    + pose proof Hq as (_ & _ & Hsize & _).
      destruct (Z.leb_spec (q_max_size q) (Z.of_nat (length ls))) as [Hfull|Hroom].
      * assert (goon_queue_push E q (Some e) = (GOON_ERROR_OVERFLOW, E, q))
          as -> by (unfold goon_queue_push;
                    destruct (Z.leb_spec (q_max_size q) (q_size q)); [done|lia]).
        destruct (IH E q ls Hq Hown) as (E' & q' & -> & Hq').
        destruct (fifo_run (q_max_size q) ops ls). by exists E', q'.
      * destruct Hown as (Halloc & Hfresh & Hown).
        destruct (goon_queue_push_holds E q ls e Hq Hfresh)
          as (E1 & q1 & Hpush & Hq1 & Hdom); [by apply elem_of_dom|lia|].
        pose proof (goon_queue_push_max_size E q (Some e)) as Hmax.
        rewrite Hpush in Hmax |- *. cbn in Hmax.
        destruct (IH E1 q1 (ls ++ [e]) Hq1) as (E' & q' & -> & Hq');
          [by rewrite Hmax, Hdom|].
        rewrite Hmax in *.
        destruct (fifo_run (q_max_size q) ops (ls ++ [e])). by exists E', q'.
    + change (goon_queue_push E q None) with (GOON_ERROR_NULL_PTR, E, q).
      cbv iota beta.
      destruct (IH E q ls Hq Hown) as (E' & q' & -> & Hq').
      destruct (fifo_run (q_max_size q) ops ls). by exists E', q'.
    + destruct ls as [|e ls].
      * rewrite (goon_queue_pop_empty E q Hq).
        destruct (IH E q [] Hq Hown) as (E' & q' & -> & Hq').
        cbn [tail head] in *.
        destruct (fifo_run (q_max_size q) ops []). by exists E', q'.
      * destruct (goon_queue_pop_holds E q e ls Hq)
          as (E1 & q1 & Hpop & Hq1 & Hdom).
        pose proof (goon_queue_pop_max_size E q) as Hmax.
        rewrite Hpop in Hmax |- *. cbn in Hmax.
        destruct (IH E1 q1 ls Hq1) as (E' & q' & -> & Hq');
          [by rewrite Hmax, Hdom|].
        rewrite Hmax in *. cbn [tail head] in *.
        destruct (fifo_run (q_max_size q) ops ls). by exists E', q'.
Qed.

Lemma queue_refines_fifo_witness :
  let ops := [QPush (Some 1); QPush (Some 2); QPush (Some 3); QPop;
              QPush (Some 1); QPush None; QPop; QPop; QPop]%positive in
  (queue_run ops sample_events (goon_queue_create 2)).1.1
  = [RPush GOON_SUCCESS; RPush GOON_SUCCESS; RPush GOON_ERROR_OVERFLOW;
     RPop (Some 1%positive); RPush GOON_SUCCESS; RPush GOON_ERROR_NULL_PTR;
     RPop (Some 2%positive); RPop (Some 1%positive); RPop None].
Proof.
  intros ops.
  destruct (queue_refines_fifo ops sample_events (goon_queue_create 2) [])
    as (E' & q' & Hrun & _).
  - by apply goon_queue_create_holds.
  - assert (∀ e, e ∈ [1; 2; 3]%positive → e ∈ dom sample_events) as Hdom.
    { apply Forall_forall.
      repeat constructor; apply (bool_decide_unpack _); vm_compute; exact I. }
    repeat match goal with
           | |- _ ∧ _ => split
           | |- _ ∈ dom _ => apply Hdom
           | |- _ ∈ _ => apply (bool_decide_unpack _); vm_compute; exact I
           | |- _ ∉ _ => apply (bool_decide_unpack _); vm_compute; exact I
           | |- True => exact I
           | _ => progress simpl
           end.
  - rewrite Hrun. reflexivity.
Defined.

(** ** Emitting *)

Lemma goon_context_emit_event_full m e :
  q_max_size (ctx_event_queue (m_ctx m)) ≤ q_size (ctx_event_queue (m_ctx m)) →
  goon_context_emit_event m (Some e) = (GOON_ERROR_OVERFLOW, m).
Proof.
  intros Hfull. unfold goon_context_emit_event, goon_queue_push.
  destruct (Z.leb_spec (q_max_size (ctx_event_queue (m_ctx m)))
              (q_size (ctx_event_queue (m_ctx m)))); [|lia].
  cbn. by destruct m as [? ? ? ? []].
Qed.

Lemma goon_context_emit_event_room m ls e :
  queue_holds (m_events m) (ctx_event_queue (m_ctx m)) ls →
  e ∉ ls → is_Some (m_events m !! e) →
  q_size (ctx_event_queue (m_ctx m)) < q_max_size (ctx_event_queue (m_ctx m)) →
  ∃ m',
    goon_context_emit_event m (Some e) = (GOON_SUCCESS, m')
    ∧ queue_holds (m_events m') (ctx_event_queue (m_ctx m')) (ls ++ [e])
    ∧ q_max_size (ctx_event_queue (m_ctx m'))
      = q_max_size (ctx_event_queue (m_ctx m))
    ∧ dom (m_events m') = dom (m_events m)
    ∧ ctx_event_count (m_ctx m') = wrap64 (ctx_event_count (m_ctx m) + 1)
    ∧ m_handlers m' = m_handlers m
    ∧ ctx_handlers (m_ctx m') = ctx_handlers (m_ctx m)
    ∧ ctx_state (m_ctx m') = ctx_state (m_ctx m).
Proof.
  intros Hq Hfresh Halloc Hroom.
  destruct (goon_queue_push_holds _ _ _ _ Hq Hfresh Halloc Hroom)
    as (E' & q' & Hpush & Hq' & Hdom).
  pose proof (goon_queue_push_max_size (m_events m)
                (ctx_event_queue (m_ctx m)) (Some e)) as Hmax.
  unfold goon_context_emit_event. rewrite Hpush in Hmax |- *.
  eexists. split; [reflexivity|]. by cbn.
Qed.

Lemma wrap64_add_l z n : wrap64 (wrap64 z + n) = wrap64 (z + n).
Proof. unfold wrap64. by rewrite Zplus_mod_idemp_l. Qed.

(** The array loop of [goon_context_emit_batch]: the events are admitted in
    array order until the queue is full. *)
Lemma emit_batch_loop_spec events : ∀ m old success,
  queue_holds (m_events m) (ctx_event_queue (m_ctx m)) old →
  0 ≤ ctx_event_count (m_ctx m) < 2 ^ 64 →
  NoDup (non_null events) →
  (∀ e, e ∈ non_null events → (e ∉ old) ∧ is_Some (m_events m !! e)) →
  let room := Z.to_nat (q_max_size (ctx_event_queue (m_ctx m))
                        - q_size (ctx_event_queue (m_ctx m))) in
  let accepted := take room (non_null events) in
  ∃ m',
    emit_batch_loop m events success
    = (success + Z.of_nat (length accepted), m')
    ∧ queue_holds (m_events m') (ctx_event_queue (m_ctx m')) (old ++ accepted)
    ∧ ctx_event_count (m_ctx m')
      = wrap64 (ctx_event_count (m_ctx m) + Z.of_nat (length accepted))
    ∧ dom (m_events m') = dom (m_events m)
    ∧ m_handlers m' = m_handlers m
    ∧ ctx_handlers (m_ctx m') = ctx_handlers (m_ctx m)
    ∧ ctx_state (m_ctx m') = ctx_state (m_ctx m).
Proof.
  induction events as [|[e|] events IH];
    intros m old success Hq Hcount Hnd Hfresh; cbn zeta.
  - exists m. change (non_null []) with (@nil loc).
    rewrite take_nil, app_nil_r. cbn.
    rewrite !Z.add_0_r, wrap64_small by done. done.
  - change (non_null (Some e :: events)) with (e :: non_null events) in *.
    apply NoDup_cons in Hnd as [He Hnd].
    destruct (Hfresh e ltac:(by left)) as [Hold Halloc].
    pose proof Hq as (_ & _ & Hsize & Hbound).
    cbn [emit_batch_loop].
    destruct (Z.le_gt_cases (q_max_size (ctx_event_queue (m_ctx m)))
                (q_size (ctx_event_queue (m_ctx m)))) as [Hfull|Hroom].
    + rewrite goon_context_emit_event_full by done. cbn.
      destruct (IH m old success Hq Hcount Hnd) as (m' & Hrun & Hrest).
      { intros e' Hin. apply Hfresh. by right. }
      replace (Z.to_nat _) with 0%nat in * by lia.
      rewrite take_0 in *. by exists m'.
    + destruct (goon_context_emit_event_room m old e Hq Hold Halloc Hroom)
        as (m1 & -> & Hq1 & Hmax1 & Hdom1 & Hc1 & HH1 & Hreg1 & Hs1).
      change (GOON_SUCCESS =? GOON_SUCCESS) with true. cbv iota.
      destruct (IH m1 (old ++ [e]) (success + 1) Hq1)
        as (m' & Hrun & Hq' & Hc' & Hdom' & HH' & Hreg' & Hs'); [| done | |].
      { rewrite Hc1. unfold wrap64. apply Z.mod_pos_bound. lia. }
      { intros e' Hin. split.
        - intros [Hin'|Hin']%elem_of_app.
          + by apply (Hfresh e' ltac:(by right)).
          + apply list_elem_of_singleton in Hin'. by subst e'.
        - apply elem_of_dom. rewrite Hdom1. apply elem_of_dom.
          by apply (Hfresh e' ltac:(by right)). }
      pose proof Hq1 as (_ & _ & Hsize1 & _).
      rewrite length_app in Hsize1. simpl in Hsize1.
      set (room := Z.to_nat (q_max_size (ctx_event_queue (m_ctx m))
                             - q_size (ctx_event_queue (m_ctx m)))) in *.
      set (room1 := Z.to_nat (q_max_size (ctx_event_queue (m_ctx m1))
                              - q_size (ctx_event_queue (m_ctx m1)))) in *.
      assert (room = S room1) as -> by (subst room room1; lia).
      rewrite firstn_cons. exists m'. cbn [length].
      rewrite <-(assoc_L (++)) in Hq'.
      split_and!;
        [ rewrite Hrun; f_equal; lia
        | exact Hq'
        | rewrite Hc', Hc1, wrap64_add_l; f_equal; lia
        | congruence.. ].
  - apply IH; done.
Qed.

(** X3. [goon_context_emit_batch] admits the non-null events of the array
    in array order until the queue is full: it returns the number admitted,
    the queue holds the old events followed by the admitted ones,
    [event_count] grows by that number, and the events that did not fit are
    left out.  The events are distinct, allocated and not queued. *)
Theorem emit_batch_admits_in_order m old events :
  queue_holds (m_events m) (ctx_event_queue (m_ctx m)) old →
  0 ≤ ctx_event_count (m_ctx m) < 2 ^ 64 →
  NoDup (non_null events) →
  (∀ e, e ∈ non_null events → (e ∉ old) ∧ is_Some (m_events m !! e)) →
  let room := Z.to_nat (q_max_size (ctx_event_queue (m_ctx m))
                        - q_size (ctx_event_queue (m_ctx m))) in
  let accepted := take room (non_null events) in
  ∃ m',
    goon_context_emit_batch m events = (Z.of_nat (length accepted), m')
    ∧ queue_holds (m_events m') (ctx_event_queue (m_ctx m')) (old ++ accepted)
    ∧ ctx_event_count (m_ctx m')
      = wrap64 (ctx_event_count (m_ctx m) + Z.of_nat (length accepted))
    ∧ m_handlers m' = m_handlers m
    ∧ ctx_handlers (m_ctx m') = ctx_handlers (m_ctx m)
    ∧ ctx_state (m_ctx m') = ctx_state (m_ctx m).
Proof.
  intros Hq Hcount Hnd Hfresh room accepted.
  destruct (emit_batch_loop_spec events m old 0 Hq Hcount Hnd Hfresh)
    as (m' & Hrun & Hq' & Hc' & _ & HH & Hreg & Hs).
  exists m'. unfold goon_context_emit_batch. by rewrite Hrun.
Qed.

Lemma sample_events_allocated e :
  e ∈ [1; 2; 3]%positive → is_Some (sample_events !! e).
Proof.
  revert e. apply Forall_forall.
  repeat constructor; apply elem_of_dom, (bool_decide_unpack _);
    vm_compute; exact I.
Qed.

Lemma emit_batch_admits_in_order_witness :
  ∃ m',
    goon_context_emit_batch sample_small [Some 3; None; Some 1; Some 2]%positive
    = (2, m')
    ∧ queue_holds (m_events m') (ctx_event_queue (m_ctx m')) [3; 1]%positive
    ∧ ctx_event_count (m_ctx m') = 2.
Proof.
  destruct (emit_batch_admits_in_order sample_small []
              [Some 3; None; Some 1; Some 2]%positive)
    as (m' & Hrun & Hq & Hcount & _).
  - by apply goon_queue_create_holds.
  - by vm_compute.
  - apply (bool_decide_unpack _). vm_compute. exact I.
  - intros e Hin. split; [by intros ?%elem_of_nil|].
    apply sample_events_allocated.
    change (non_null [Some 3; None; Some 1; Some 2]%positive)
      with [3; 1; 2]%positive in Hin.
    revert Hin. rewrite !elem_of_cons, !elem_of_nil. naive_solver.
  - exists m'. split; [exact Hrun|]. split; [exact Hq|]. exact Hcount.
Defined.

(** ** The driver, continued *)

(** The drain of a well-formed queue, with the fate of the events: the
    queued events are freed, every other location stays allocated. *)
Lemma process_loop_full call hs evs :
  keeps_links call →
  ∀ m fuel processed,
    queue_holds (m_events m) (ctx_event_queue (m_ctx m)) evs →
    chain (h_next <$> m_handlers m) (ctx_handlers (m_ctx m)) hs →
    (length evs + length hs ≤ fuel)%nat →
    ∃ m' trace,
      process_loop call fuel m processed
      = Done (processed + Z.of_nat (length evs), m', trace)
      ∧ (λ r, (cr_event r, cr_handler r)) <$> trace
        = expected_calls (m_handlers m) hs evs
      ∧ m_handlers m' = apply_trace trace (m_handlers m)
      ∧ ctx_handlers (m_ctx m') = ctx_handlers (m_ctx m)
      ∧ queue_holds (m_events m') (ctx_event_queue (m_ctx m')) []
      ∧ dom (m_events m') = dom (m_events m) ∖ list_to_set evs.
Proof.
  intros Hcall. induction evs as [|e evs IH];
    intros m fuel processed Hq Hh Hfuel.
  - exists m, []. split_and!; try done.
    + destruct Hq as (_ & _ & Hsize & _).
      destruct fuel; simpl; unfold goon_queue_is_empty; rewrite Hsize;
        simpl; by rewrite Z.add_0_r.
    + simpl. set_solver.
  - pose proof Hq as (Hc & _ & Hsize & _).
    pose proof (chain_NoDup _ _ _ Hc) as [Hfresh _]%NoDup_cons.
    destruct fuel as [|fuel]; [simpl in Hfuel; lia|].
    destruct (goon_queue_pop_holds _ _ _ _ Hq)
      as (E1 & q1 & Hpop & Hq1 & Hdom1).
    cbn [process_loop]. unfold goon_queue_is_empty. rewrite Hsize, Hpop.
    cbn [length]. rewrite Nat2Z.inj_succ.
    destruct (Z.eqb_spec (Z.succ (Z.of_nat (length evs))) 0) as [|_]; [lia|].
    set (m1 := set_ctx _ (set_events E1 m)).
    destruct (dispatch_spec call hs Hcall m1 (ctx_handlers (m_ctx m)) fuel e)
      as (m2 & tr1 & Hd & Htr1 & Hev1 & HH2 & Hreg2 & Hq2 & HE2);
      [done|simpl in Hfuel; lia|].
    change (ctx_handlers (m_ctx m1)) with (ctx_handlers (m_ctx m)).
    rewrite Hd. cbn [mbind outcome_bind].
    set (m4 := set_ctx _ (set_events _ m2)).
    destruct (IH m4 fuel (processed + 1))
      as (m' & tr2 & -> & Htr2 & HH' & Hreg' & Hq' & Hdom').
    { subst m4. cbn. rewrite Hq2. subst m1. cbn.
      destruct Hq1 as (Hc1 & Ht1 & Hs1 & Hm1).
      unfold queue_holds. split_and!; [|done|done|lia|lia].
      rewrite fmap_delete, HE2. cbn. by apply chain_delete_notin. }
    { subst m4. cbn. rewrite HH2, Hreg2, next_apply_trace. done. }
    { simpl in Hfuel. lia. }
    eexists _, _. split; [cbn [mbind outcome_bind]; do 3 f_equal; lia|].
    split_and!.
    + rewrite fmap_app, Htr2.
      rewrite (expected_calls_ext (m_handlers m) (m_handlers m4)).
      * unfold expected_calls. rewrite bind_cons. f_equal.
        by apply dispatch_calls.
      * intros h. subst m4. cbn. by rewrite HH2, enabled_apply_trace.
    + rewrite HH'. subst m4. cbn. by rewrite HH2, apply_trace_app.
    + rewrite Hreg'. subst m4. cbn. by rewrite Hreg2.
    + done.
    + rewrite Hdom'. subst m4. cbn. rewrite dom_delete_L.
      assert (dom (m_events m2) = dom (m_events m)) as ->.
      { rewrite <-(dom_fmap_L ev_next (m_events m2)), HE2, dom_fmap_L.
        subst m1. cbn. done. }
      set_solver.
Qed.

Lemma process_events_full call m hs evs fuel :
  keeps_links call →
  ctx_state (m_ctx m) = GOON_STATE_RUNNING →
  chain (h_next <$> m_handlers m) (ctx_handlers (m_ctx m)) hs →
  queue_holds (m_events m) (ctx_event_queue (m_ctx m)) evs →
  (length evs + length hs ≤ fuel)%nat →
  ∃ m' trace,
    goon_context_process_events call fuel m
    = Done (Z.of_nat (length evs), m', trace)
    ∧ (λ r, (cr_event r, cr_handler r)) <$> trace
      = expected_calls (m_handlers m) hs evs
    ∧ m_handlers m' = apply_trace trace (m_handlers m)
    ∧ ctx_handlers (m_ctx m') = ctx_handlers (m_ctx m)
    ∧ queue_holds (m_events m') (ctx_event_queue (m_ctx m')) []
    ∧ dom (m_events m') = dom (m_events m) ∖ list_to_set evs.
Proof.
  intros Hcall Hrun Hc Hq Hfuel.
  destruct (process_loop_full call hs evs Hcall m fuel 0 Hq Hc Hfuel)
    as (m' & trace & Hp & Hrest).
  exists m', trace. split; [|exact Hrest].
  unfold goon_context_process_events.
  rewrite bool_decide_false by (rewrite Hrun; by intros []).
  exact Hp.
Qed.

Lemma expected_calls_handlers (H : gmap loc goon_handler) hs evs e h :
  (e, h) ∈ expected_calls H hs evs →
  e ∈ evs ∧ h ∈ hs ∧ enabled_in H h = true.
Proof.
  unfold expected_calls. intros (e' & Hin & He)%list_elem_of_bind.
  apply list_elem_of_fmap in Hin as (h' & [= -> ->] & Hh).
  apply list_elem_of_filter in Hh as [Hen Hh].
  split_and!; [done..|]. by apply Is_true_true.
Qed.







(** ** Clearing the queue *)

Lemma clear_loop_spec evs : ∀ m fuel cleared,
  queue_holds (m_events m) (ctx_event_queue (m_ctx m)) evs →
  (length evs ≤ fuel)%nat →
  ∃ m' cleared',
    clear_loop fuel m cleared = Done (cleared', m')
    ∧ queue_holds (m_events m') (ctx_event_queue (m_ctx m')) []
    ∧ (∀ e, e ∈ evs → m_events m' !! e = None)
    ∧ (∀ e, e ∉ evs → m_events m' !! e = m_events m !! e)
    ∧ m_handlers m' = m_handlers m
    ∧ m_user m' = m_user m
    ∧ ctx_handlers (m_ctx m') = ctx_handlers (m_ctx m)
    ∧ ctx_state (m_ctx m') = ctx_state (m_ctx m)
    ∧ ctx_total_events_processed (m_ctx m')
      = ctx_total_events_processed (m_ctx m).
Proof.
  induction evs as [|e evs IH]; intros m fuel cleared Hq Hfuel.
  - exists m, cleared. split_and!; try done.
    + destruct Hq as (_ & _ & Hsize & _).
      destruct fuel; simpl; unfold goon_queue_is_empty; by rewrite Hsize.
    + intros e He. by apply elem_of_nil in He.
  - pose proof Hq as (Hc & _ & Hsize & _).
    pose proof (chain_NoDup _ _ _ Hc) as [Hfresh _]%NoDup_cons.
    destruct fuel as [|fuel]; [simpl in Hfuel; lia|].
    destruct (goon_queue_pop_holds _ _ _ _ Hq)
      as (E1 & q1 & Hpop & Hq1 & Hdom1).
    cbn [clear_loop]. unfold goon_queue_is_empty. rewrite Hsize, Hpop.
    cbn [length]. rewrite Nat2Z.inj_succ.
    destruct (Z.eqb_spec (Z.succ (Z.of_nat (length evs))) 0) as [|_]; [lia|].
    assert (E1 = alter (set_ev_next None) e (m_events m)) as HE1.
    { unfold goon_queue_pop in Hpop. destruct Hc as [Hhead _].
      rewrite Hhead in Hpop. by injection Hpop as <- <-. }
    set (m2 := set_events _ _).
    destruct (IH m2 fuel (wrap64 (cleared + 1)))
      as (m' & cleared' & -> & Hq' & Hfreed & Hkept & HH & HU & Hreg & Hs & Ht).
    { subst m2. cbn. destruct Hq1 as (Hc1 & Ht1 & Hs1 & Hm1).
      unfold queue_holds. split_and!; [|done|done|lia|lia].
      rewrite fmap_delete. by apply chain_delete_notin. }
    { simpl in Hfuel. lia. }
    exists m', cleared'. split_and!; try done.
    + intros e' [Heq|He']%elem_of_cons; [subst e'|by apply Hfreed].
      destruct (decide (e ∈ evs)) as [?|Hno]; [by apply Hfreed|].
      rewrite (Hkept _ Hno). subst m2. cbn. apply lookup_delete_eq.
    + intros e' [Hne Hno]%not_elem_of_cons. rewrite (Hkept _ Hno).
      subst m2. cbn. rewrite lookup_delete_ne by done.
      rewrite HE1. by rewrite lookup_alter_ne.
Qed.



(** ** Handler registry *)

Lemma register_batch_loop_eq handlers : ∀ m success,
  register_batch_loop m handlers success
  = (success + Z.of_nat (length (non_null handlers)),
     register_all m (non_null handlers)).
Proof.
  induction handlers as [|[h|] handlers IH]; intros m success.
  - cbn. f_equal. lia.
  - cbn [register_batch_loop].
    change (goon_context_register_handler m (Some h))
      with (GOON_SUCCESS, (goon_context_register_handler m (Some h)).2).
    cbv iota beta. rewrite IH.
    change (non_null (Some h :: handlers)) with (h :: non_null handlers).
    cbn [length]. rewrite Nat2Z.inj_succ. f_equal.
    change (GOON_SUCCESS =? GOON_SUCCESS) with true. cbv iota. lia.
  - cbn [register_batch_loop]. apply IH.
Qed.

Lemma register_all_count hs : ∀ m,
  0 ≤ ctx_handler_count (m_ctx m) < 2 ^ 64 →
  ctx_handler_count (m_ctx (register_all m hs))
  = wrap64 (ctx_handler_count (m_ctx m) + Z.of_nat (length hs)).
Proof.
  induction hs as [|h hs IH]; intros m Hcount.
  - cbn. rewrite Z.add_0_r. symmetry. by apply wrap64_small.
  - unfold register_all. cbn [foldl]. fold register_all.
    rewrite IH.
    + cbn. rewrite wrap64_add_l. f_equal. lia.
    + cbn. unfold wrap64. apply Z.mod_pos_bound. lia.
Qed.

(** X8. [goon_context_register_batch] registers the non-null entries of the
    array in array order: it returns their number, the registry holds them
    in reverse array order in front of the handlers registered before,
    [handler_count] grows by their number, and neither the [enabled] flags
    nor the events nor the queue change.  The entries are distinct,
    allocated and not registered. *)
Theorem register_batch_prepends_reversed m hs0 handlers :
  chain (h_next <$> m_handlers m) (ctx_handlers (m_ctx m)) hs0 →
  0 ≤ ctx_handler_count (m_ctx m) < 2 ^ 64 →
  NoDup (non_null handlers) →
  (∀ h, h ∈ non_null handlers → (h ∉ hs0) ∧ is_Some (m_handlers m !! h)) →
  let r := goon_context_register_batch m handlers in
  r.1 = Z.of_nat (length (non_null handlers))
  ∧ chain (h_next <$> m_handlers r.2) (ctx_handlers (m_ctx r.2))
      (rev (non_null handlers) ++ hs0)
  ∧ ctx_handler_count (m_ctx r.2)
    = wrap64 (ctx_handler_count (m_ctx m)
              + Z.of_nat (length (non_null handlers)))
  ∧ (∀ h, enabled_in (m_handlers r.2) h = enabled_in (m_handlers m) h)
  ∧ m_events r.2 = m_events m
  ∧ ctx_event_queue (m_ctx r.2) = ctx_event_queue (m_ctx m).
Proof.
  intros Hc Hcount Hnd Hfresh r. subst r.
  unfold goon_context_register_batch. rewrite register_batch_loop_eq.
  cbn [fst snd].
  destruct (register_all_spec (non_null handlers) m hs0 Hc Hnd)
    as (Hc' & Hen & HE & Hq & _).
  { intros h Hin. by apply Hfresh. }
  { intros h Hin. by apply Hfresh. }
  split_and!; [lia|exact Hc'|by apply register_all_count|exact Hen
              |exact HE|exact Hq].
Qed.

Lemma sample_handlers_fresh h :
  h ∈ [2; 3; 1]%positive → is_Some (m_handlers sample_machine !! h).
Proof.
  rewrite !elem_of_cons, elem_of_nil.
  intros [->|[->|[->|[]]]]; vm_compute; eauto.
Qed.

Lemma register_batch_prepends_reversed_witness :
  let r := goon_context_register_batch sample_machine
             [Some 2; None; Some 3; Some 1]%positive in
  r.1 = 3
  ∧ chain (h_next <$> m_handlers r.2) (ctx_handlers (m_ctx r.2))
      [1; 3; 2]%positive
  ∧ ctx_handler_count (m_ctx r.2) = 3.
Proof.
  destruct (register_batch_prepends_reversed sample_machine []
              [Some 2; None; Some 3; Some 1]%positive)
    as (Hr & Hc & Hn & _).
  - reflexivity.
  - by vm_compute.
  - apply (bool_decide_unpack _). vm_compute. exact I.
  - intros h Hin. split; [by intros ?%elem_of_nil|].
    by apply sample_handlers_fresh.
  - split_and!; [exact Hr|exact Hc|exact Hn].
Defined.

Lemma find_loop_spec H name hs : ∀ p fuel,
  chain (h_next <$> H) p hs →
  (length hs ≤ fuel)%nat →
  find_loop fuel H name p
  = Done (head (filter (λ h, has_name H name h) hs)).
Proof.
  induction hs as [|l hs IH]; intros p fuel Hc Hfuel.
  - simpl in Hc. subst p. by destruct fuel.
  - destruct Hc as [-> (n & Hn & Hc)].
    destruct fuel as [|fuel]; [simpl in Hfuel; lia|].
    rewrite lookup_fmap in Hn.
    destruct (H !! l) as [hd|] eqn:Hl; [|done]. injection Hn as <-.
    cbn [find_loop]. rewrite Hl. unfold streq.
    destruct (decide (h_name hd = name)) as [Hname|Hname].
    + rewrite bool_decide_eq_true_2 by done.
      rewrite filter_cons_True; [done|].
      unfold has_name. rewrite Hl. cbn. apply bool_decide_pack. by f_equal.
    + rewrite bool_decide_eq_false_2 by done.
      rewrite filter_cons_False.
      * apply IH; [done|simpl in Hfuel; lia].
      * unfold has_name. rewrite Hl. cbn. intros Hb.
        apply bool_decide_unpack in Hb. congruence.
Qed.

(** X9. [goon_context_find_handler] returns the first handler of the list
    that carries the name, which is the one registered last, and [NULL]
    when no registered handler carries it.  A walk over a list of [n]
    handlers ends within [n] steps. *)
Theorem find_handler_first_match m hs name fuel :
  chain (h_next <$> m_handlers m) (ctx_handlers (m_ctx m)) hs →
  (length hs ≤ fuel)%nat →
  goon_context_find_handler fuel m name
  = Done (head (filter (λ h, has_name (m_handlers m) name h) hs)).
Proof.
  intros Hc Hfuel. by apply find_loop_spec.
Qed.

Lemma find_handler_first_match_witness :
  goon_context_find_handler 3 sample_loaded "counter" = Done (Some 2%positive)
  ∧ goon_context_find_handler 3 sample_loaded "missing" = Done None.
Proof.
  split.
  - by rewrite (find_handler_first_match sample_loaded [3; 2; 1]%positive
                  "counter" 3 sample_loaded_handlers ltac:(simpl; lia)).
  - by rewrite (find_handler_first_match sample_loaded [3; 2; 1]%positive
                  "missing" 3 sample_loaded_handlers ltac:(simpl; lia)).
Defined.

(** Unlinking the cell [h] behind the cell [t]. *)
Lemma chain_unlink N p pre t h ls n :
  chain N p (pre ++ t :: h :: ls) → N !! h = Some n →
  chain (delete h (alter (λ _, n) t N)) p (pre ++ t :: ls).
Proof.
  intros Hc Hh. pose proof (chain_NoDup _ _ _ Hc) as Hnd.
  revert p Hc Hnd. induction pre as [|x pre IH]; intros p; simpl.
  - intros [-> (n0 & Ht & -> & n1 & Hh1 & Hc)] Hnd.
    rewrite Hh in Hh1. injection Hh1 as <-.
    apply NoDup_cons in Hnd as [Ht1 Hnd]. apply NoDup_cons in Hnd as [Hh1 _].
    apply not_elem_of_cons in Ht1 as [Hne Ht1].
    split; [done|]. exists n. split.
    + by rewrite lookup_delete_ne, lookup_alter_eq, Ht.
    + by apply chain_delete_notin, chain_alter_notin.
  - intros [-> (n0 & Hx & Hc)] Hnd. apply NoDup_cons in Hnd as [Hx1 Hnd].
    assert (x ≠ t ∧ x ≠ h) as [? ?].
    { split; intros ->; apply Hx1; rewrite elem_of_app, !elem_of_cons; auto. }
    split; [done|]. exists n0. split; [|by apply IH].
    by rewrite lookup_delete_ne, lookup_alter_ne.
Qed.

Lemma unlinked_alter (H : gmap loc goon_handler) t n h :
  unlinked (alter (set_h_next n) t H) h = unlinked H h.
Proof.
  unfold unlinked. rewrite lookup_alter.
  destruct (decide (t = h)) as [->|]; [|done]. by destruct (H !! h).
Qed.

(** The walk of [goon_context_unregister_handler] with the cursor behind
    the handlers [pre]: the first handler that carries the name is unlinked
    and freed. *)
Lemma unregister_loop_spec name l1 : ∀ m pre p fuel h l2,
  chain (h_next <$> m_handlers m) (ctx_handlers (m_ctx m))
    (pre ++ l1 ++ h :: l2) →
  chain (h_next <$> m_handlers m) p (l1 ++ h :: l2) →
  (∀ h', h' ∈ l1 → has_name (m_handlers m) name h' = false) →
  has_name (m_handlers m) name h = true →
  (length l1 < fuel)%nat →
  ∃ m',
    unregister_loop fuel m name (last pre) p = Done (GOON_SUCCESS, m')
    ∧ chain (h_next <$> m_handlers m') (ctx_handlers (m_ctx m'))
        (pre ++ l1 ++ l2)
    ∧ m_handlers m' !! h = None
    ∧ ctx_handler_count (m_ctx m')
      = wrap64 (ctx_handler_count (m_ctx m) - 1)
    ∧ (∀ h', h' ≠ h → unlinked (m_handlers m') h' = unlinked (m_handlers m) h')
    ∧ m_events m' = m_events m
    ∧ ctx_event_queue (m_ctx m') = ctx_event_queue (m_ctx m)
    ∧ ctx_state (m_ctx m') = ctx_state (m_ctx m).
Proof.
  induction l1 as [|l l1 IH]; intros m pre p fuel h l2 Hall Hc Hno Hyes Hfuel.
  - destruct Hc as [-> (n & Hn & Hc)].
    destruct fuel as [|fuel]; [simpl in Hfuel; lia|].
    pose proof Hn as Hn'. rewrite lookup_fmap in Hn'.
    destruct (m_handlers m !! h) as [hd|] eqn:Hh; [|done]. injection Hn' as Hnext.
    cbn [unregister_loop]. rewrite Hh.
    unfold has_name in Hyes. rewrite Hh in Hyes. cbn in Hyes.
    apply bool_decide_eq_true in Hyes. injection Hyes as Hname.
    unfold streq. rewrite bool_decide_eq_true_2 by done. rewrite Hnext.
    destruct pre as [|t pre _] using rev_ind.
    + cbn [last app] in *. eexists. split; [reflexivity|]. cbn.
      destruct Hall as [_ (n' & Hn' & Hall)].
      rewrite Hn in Hn'. injection Hn' as <-.
      pose proof (chain_NoDup _ _ _ Hc) as Hnd.
      assert (h ∉ l2) as Hfresh.
      { intros Hin. assert (chain (h_next <$> m_handlers m) (Some h) (h :: l2))
          as Hc2 by (simpl; eauto).
        by apply chain_NoDup, NoDup_cons in Hc2 as [? _]. }
      split_and!; [|apply lookup_delete_eq| done | | done..].
      * rewrite fmap_delete. by apply chain_delete_notin.
      * intros h' Hne. unfold unlinked. by rewrite lookup_delete_ne.
    + rewrite last_snoc. eexists. split; [reflexivity|]. cbn.
      split_and!; [|apply lookup_delete_eq| done | | done..].
      * rewrite fmap_delete, next_alter_handler.
        rewrite <-(assoc_L (++)) in Hall |- *. cbn [app] in Hall |- *.
        by apply chain_unlink.
      * intros h' Hne. unfold unlinked. rewrite lookup_delete_ne by done.
        apply unlinked_alter.
  - destruct Hc as [-> (n & Hn & Hc)].
    destruct fuel as [|fuel]; [simpl in Hfuel; lia|].
    rewrite lookup_fmap in Hn.
    destruct (m_handlers m !! l) as [hd|] eqn:Hl; [|done]. injection Hn as <-.
    cbn [unregister_loop]. rewrite Hl.
    pose proof (Hno l ltac:(by left)) as Hname.
    unfold has_name in Hname. rewrite Hl in Hname. cbn in Hname.
    apply bool_decide_eq_false in Hname.
    unfold streq. rewrite bool_decide_eq_false_2 by congruence.
    destruct (IH m (pre ++ [l]) (h_next hd) fuel h l2)
      as (m' & Hrun & Hc' & Hrest); [|done| |done| |].
    + by rewrite <-(assoc_L (++)).
    + intros h' Hin. apply Hno. by right.
    + simpl in Hfuel. lia.
    + rewrite last_snoc in Hrun. exists m'. split; [exact Hrun|].
      split; [|exact Hrest]. by rewrite <-(assoc_L (++)) in Hc'.
Qed.

(** X10. [goon_context_unregister_handler] removes the first handler of
    the list that carries the name, and only that one: it returns
    [GOON_SUCCESS], the handlers before and behind it stay registered in
    their order, the handler is freed, [handler_count] drops by one, and no
    other handler object changes apart from the link of the predecessor.  A
    later handler with the same name stays registered. *)
Theorem unregister_removes_first_match m l1 h l2 name fuel :
  chain (h_next <$> m_handlers m) (ctx_handlers (m_ctx m)) (l1 ++ h :: l2) →
  (∀ h', h' ∈ l1 → has_name (m_handlers m) name h' = false) →
  has_name (m_handlers m) name h = true →
  (length l1 < fuel)%nat →
  ∃ m',
    goon_context_unregister_handler fuel m name = Done (GOON_SUCCESS, m')
    ∧ chain (h_next <$> m_handlers m') (ctx_handlers (m_ctx m')) (l1 ++ l2)
    ∧ m_handlers m' !! h = None
    ∧ ctx_handler_count (m_ctx m')
      = wrap64 (ctx_handler_count (m_ctx m) - 1)
    ∧ (∀ h', h' ≠ h → unlinked (m_handlers m') h' = unlinked (m_handlers m) h')
    ∧ m_events m' = m_events m
    ∧ ctx_event_queue (m_ctx m') = ctx_event_queue (m_ctx m).
Proof.
  intros Hc Hno Hyes Hfuel.
  destruct (unregister_loop_spec name l1 m [] (ctx_handlers (m_ctx m)) fuel
              h l2 Hc Hc Hno Hyes Hfuel)
    as (m' & Hrun & Hc' & Hfree & Hcount & Hrest & HE & Hq & _).
  exists m'. unfold goon_context_unregister_handler. done.
Qed.

Lemma unregister_removes_first_match_witness :
  ∃ m',
    goon_context_unregister_handler 3 sample_loaded "counter"
    = Done (GOON_SUCCESS, m')
    ∧ chain (h_next <$> m_handlers m') (ctx_handlers (m_ctx m'))
        [3; 1]%positive
    ∧ m_handlers m' !! 2%positive = None
    ∧ ctx_handler_count (m_ctx m') = 2.
Proof.
  destruct (unregister_removes_first_match sample_loaded [3%positive]
              2%positive [1%positive] "counter" 3)
    as (m' & Hrun & Hc & Hfree & Hcount & _).
  - exact sample_loaded_handlers.
  - intros h' ->%list_elem_of_singleton. vm_compute. reflexivity.
  - vm_compute. reflexivity.
  - simpl. lia.
  - exists m'. split_and!; [exact Hrun|exact Hc|exact Hfree|exact Hcount].
Defined.

Lemma unregister_loop_absent name hs : ∀ m prev p fuel,
  chain (h_next <$> m_handlers m) p hs →
  (∀ h, h ∈ hs → has_name (m_handlers m) name h = false) →
  (length hs ≤ fuel)%nat →
  unregister_loop fuel m name prev p = Done (GOON_ERROR_NOT_FOUND, m).
Proof.
  induction hs as [|l hs IH]; intros m prev p fuel Hc Hno Hfuel.
  - simpl in Hc. subst p. by destruct fuel.
  - destruct Hc as [-> (n & Hn & Hc)].
    destruct fuel as [|fuel]; [simpl in Hfuel; lia|].
    rewrite lookup_fmap in Hn.
    destruct (m_handlers m !! l) as [hd|] eqn:Hl; [|done]. injection Hn as <-.
    cbn [unregister_loop]. rewrite Hl.
    pose proof (Hno l ltac:(by left)) as Hname.
    unfold has_name in Hname. rewrite Hl in Hname. cbn in Hname.
    apply bool_decide_eq_false in Hname.
    unfold streq. rewrite bool_decide_eq_false_2 by congruence.
    apply IH; [done| |simpl in Hfuel; lia].
    intros h Hin. apply Hno. by right.
Qed.

(** X11. Registration and unregistration are inverse on the registry: after
    [goon_context_register_handler] of an allocated handler that is not
    registered, [goon_context_unregister_handler] of its name removes that
    very handler, whatever handlers of the same name were registered
    before, and the registry holds the handlers it held, in their order,
    with the [handler_count] it had. *)
Theorem register_then_unregister m hs h hd fuel :
  chain (h_next <$> m_handlers m) (ctx_handlers (m_ctx m)) hs →
  0 ≤ ctx_handler_count (m_ctx m) < 2 ^ 64 →
  m_handlers m !! h = Some hd →
  h ∉ hs →
  (0 < fuel)%nat →
  ∃ m',
    goon_context_unregister_handler fuel
      (goon_context_register_handler m (Some h)).2 (h_name hd)
    = Done (GOON_SUCCESS, m')
    ∧ chain (h_next <$> m_handlers m') (ctx_handlers (m_ctx m')) hs
    ∧ ctx_handlers (m_ctx m') = ctx_handlers (m_ctx m)
    ∧ ctx_handler_count (m_ctx m') = ctx_handler_count (m_ctx m)
    ∧ m_handlers m' = delete h (m_handlers m).
Proof.
  intros Hc Hcount Hh Hfresh Hfuel.
  destruct fuel as [|fuel]; [lia|].
  unfold goon_context_unregister_handler.
  cbn [goon_context_register_handler snd set_ctx set_handlers m_ctx m_handlers
       set_ctx_registry ctx_handlers unregister_loop].
  rewrite lookup_alter_eq, Hh. cbn [fmap option_fmap option_map set_h_next h_name].
  unfold streq. rewrite bool_decide_eq_true_2 by done.
  eexists. split; [reflexivity|]. cbn.
  assert (delete h (alter (set_h_next (ctx_handlers (m_ctx m))) h
                      (m_handlers m)) = delete h (m_handlers m)) as Hdel.
  { apply map_eq. intros h'. destruct (decide (h' = h)) as [->|Hne].
    - by rewrite !lookup_delete_eq.
    - by rewrite !lookup_delete_ne, lookup_alter_ne. }
  rewrite Hdel. split_and!; [|done| |done].
  - rewrite fmap_delete. by apply chain_delete_notin.
  - rewrite <-Z.add_opp_r, wrap64_add_l.
    replace (_ + 1 + - (1)) with (ctx_handler_count (m_ctx m)) by lia.
    by apply wrap64_small.
Qed.

Lemma register_then_unregister_witness :
  ∃ m',
    goon_context_unregister_handler 1
      (goon_context_register_handler sample_machine (Some 2%positive)).2
      "counter"
    = Done (GOON_SUCCESS, m')
    ∧ ctx_handlers (m_ctx m') = None
    ∧ ctx_handler_count (m_ctx m') = 0.
Proof.
  destruct (register_then_unregister sample_machine [] 2%positive
              (sample_handler 2 "counter" fn_counter (Some 1%positive) true) 1)
    as (m' & Hrun & _ & Hhead & Hcount & _).
  - reflexivity.
  - by vm_compute.
  - reflexivity.
  - by intros ?%elem_of_nil.
  - lia.
  - exists m'. split_and!; [exact Hrun|exact Hhead|exact Hcount].
Defined.

(** X12. [goon_context_unregister_handler] of a name that no registered
    handler carries returns [GOON_ERROR_NOT_FOUND] and changes nothing. *)
Theorem unregister_unknown_name m hs name fuel :
  chain (h_next <$> m_handlers m) (ctx_handlers (m_ctx m)) hs →
  (∀ h, h ∈ hs → has_name (m_handlers m) name h = false) →
  (length hs ≤ fuel)%nat →
  goon_context_unregister_handler fuel m name
  = Done (GOON_ERROR_NOT_FOUND, m).
Proof.
  intros Hc Hno Hfuel. by eapply unregister_loop_absent.
Qed.

Lemma unregister_unknown_name_witness :
  goon_context_unregister_handler 3 sample_loaded "missing"
  = Done (GOON_ERROR_NOT_FOUND, sample_loaded).
Proof.
  apply (unregister_unknown_name sample_loaded [3; 2; 1]%positive).
  - exact sample_loaded_handlers.
  - intros h. rewrite !elem_of_cons, elem_of_nil.
    intros [->|[->|[->|[]]]]; vm_compute; reflexivity.
  - simpl. lia.
Defined.

(** ** Statistics reset *)

Lemma reset_loop_spec hs : ∀ H p fuel,
  chain (h_next <$> H) p hs →
  (length hs ≤ fuel)%nat →
  ∃ H',
    reset_loop fuel H p = Done H'
    ∧ (∀ h, h ∈ hs → H' !! h = reset_handler <$> H !! h)
    ∧ (∀ h, h ∉ hs → H' !! h = H !! h).
Proof.
  induction hs as [|l hs IH]; intros H p fuel Hc Hfuel.
  - simpl in Hc. subst p. exists H. split_and!; [by destruct fuel| |done].
    intros h Hin. by apply elem_of_nil in Hin.
  - pose proof (chain_NoDup _ _ _ Hc) as [Hfresh _]%NoDup_cons.
    destruct Hc as [-> (n & Hn & Hc)].
    destruct fuel as [|fuel]; [simpl in Hfuel; lia|].
    pose proof Hn as Hn'. rewrite lookup_fmap in Hn'.
    destruct (H !! l) as [hd|] eqn:Hl; [|done]. injection Hn' as <-.
    cbn [reset_loop]. rewrite Hl.
    destruct (IH (<[l := reset_handler hd]> H) (h_next hd) fuel)
      as (H' & Hrun & Hin' & Hout').
    { rewrite fmap_insert. cbn [reset_handler h_next].
      by rewrite insert_id. }
    { simpl in Hfuel. lia. }
    exists H'. split; [exact Hrun|]. split.
    + intros h [->|Hin]%elem_of_cons.
      * by rewrite (Hout' _ Hfresh), lookup_insert_eq, Hl.
      * rewrite (Hin' _ Hin). rewrite lookup_insert_ne; [done|].
        intros ->. done.
    + intros h [Hne Hout]%not_elem_of_cons.
      by rewrite (Hout' _ Hout), lookup_insert_ne.
Qed.

(** X13. [goon_context_reset_statistics] zeroes [call_count], [error_count]
    and [avg_exec_time] of every registered handler and nothing else of it,
    sets [total_events_processed] to 0 and [start_time] to the time of the
    call.  Handlers that are not registered keep their statistics, and the
    registry, the queue and [event_count] stay as they are. *)
Theorem reset_statistics_registered_only m hs fuel now :
  chain (h_next <$> m_handlers m) (ctx_handlers (m_ctx m)) hs →
  (length hs ≤ fuel)%nat →
  ∃ m',
    goon_context_reset_statistics fuel m now = Done (GOON_SUCCESS, m')
    ∧ (∀ h, h ∈ hs → m_handlers m' !! h = reset_handler <$> m_handlers m !! h)
    ∧ (∀ h, h ∉ hs → m_handlers m' !! h = m_handlers m !! h)
    ∧ chain (h_next <$> m_handlers m') (ctx_handlers (m_ctx m')) hs
    ∧ ctx_total_events_processed (m_ctx m') = 0
    ∧ ctx_start_time (m_ctx m') = now
    ∧ ctx_event_count (m_ctx m') = ctx_event_count (m_ctx m)
    ∧ ctx_handler_count (m_ctx m') = ctx_handler_count (m_ctx m)
    ∧ ctx_event_queue (m_ctx m') = ctx_event_queue (m_ctx m)
    ∧ m_events m' = m_events m.
Proof.
  intros Hc Hfuel.
  destruct (reset_loop_spec hs (m_handlers m) _ fuel Hc Hfuel)
    as (H' & Hrun & Hin & Hout).
  unfold goon_context_reset_statistics. rewrite Hrun.
  eexists. split; [reflexivity|]. cbn.
  split_and!; [exact Hin|exact Hout| |done..].
  replace (h_next <$> H') with (h_next <$> m_handlers m); [done|].
  apply map_eq. intros h. rewrite !lookup_fmap.
  destruct (decide (h ∈ hs)) as [Hh|Hh].
  - rewrite (Hin _ Hh). by destruct (m_handlers m !! h).
  - by rewrite (Hout _ Hh).
Qed.

Lemma reset_statistics_registered_only_witness :
  ∃ m',
    goon_context_reset_statistics 3 sample_loaded 1700000100
    = Done (GOON_SUCCESS, m')
    ∧ ctx_start_time (m_ctx m') = 1700000100
    ∧ ctx_total_events_processed (m_ctx m') = 0
    ∧ ctx_event_count (m_ctx m') = 2.
Proof.
  destruct (reset_statistics_registered_only sample_loaded [3; 2; 1]%positive
              3 1700000100)
    as (m' & Hrun & _ & _ & _ & Htotal & Hstart & Hcount & _).
  - exact sample_loaded_handlers.
  - simpl. lia.
  - exists m'. split_and!; [exact Hrun|exact Hstart|exact Htotal|].
    rewrite Hcount. reflexivity.
Defined.

(** ** Recency cache: lookups *)

Lemma read_key_insert_eq keys i k :
  (i < length keys)%nat → read_key (<[i := k]> keys) i = k.
Proof. intros. unfold read_key. by rewrite list_lookup_insert_eq. Qed.

Lemma read_key_insert_ne keys i j k :
  i ≠ j → read_key (<[i := k]> keys) j = read_key keys j.
Proof. intros. unfold read_key. by rewrite list_lookup_insert_ne. Qed.

Lemma cache_find_Some cache key i :
  cache_find cache key = Some i →
  (i < c_count cache)%nat ∧ read_key (c_keys cache) i = key
  ∧ ∀ j, (j < i)%nat → read_key (c_keys cache) j ≠ key.
Proof.
  intros Hf. apply first_index_Some in Hf as (Hr & Ht & Hlow).
  unfold streq in *. split_and!; [lia|by apply bool_decide_eq_true in Ht|].
  intros j Hj. specialize (Hlow j ltac:(lia)).
  by apply bool_decide_eq_false in Hlow.
Qed.

Lemma cache_find_absent cache key :
  cache_find cache key = None ↔
  ∀ j, (j < c_count cache)%nat → read_key (c_keys cache) j ≠ key.
Proof.
  split.
  - intros Hf j Hj. pose proof (first_index_None _ _ _ Hf j ltac:(lia)) as Hno.
    by apply bool_decide_eq_false in Hno.
  - intros Hno. destruct (cache_find cache key) as [i|] eqn:Hf; [|done].
    apply cache_find_Some in Hf as (Hi & Hk & _). by destruct (Hno i Hi).
Qed.

Lemma cache_find_intro cache key i :
  (i < c_count cache)%nat → read_key (c_keys cache) i = key →
  (∀ j, (j < i)%nat → read_key (c_keys cache) j ≠ key) →
  cache_find cache key = Some i.
Proof.
  intros Hi Hk Hlow. apply first_index_intro; [lia| |].
  - unfold streq. by apply bool_decide_eq_true.
  - intros j Hj. unfold streq. apply bool_decide_eq_false, Hlow. lia.
Qed.

(** Under the invariant a key in use is found where it is. *)
Lemma cache_find_unique cache key i :
  cache_inv cache →
  (i < c_count cache)%nat → read_key (c_keys cache) i = key →
  cache_find cache key = Some i.
Proof.
  intros (_ & _ & Huniq) Hi Hk. apply cache_find_intro; [done..|].
  intros j Hj Hkj. specialize (Huniq j i ltac:(lia) Hi ltac:(congruence)). lia.
Qed.

(** The scan depends on the keys of the slots in use only. *)
Lemma cache_find_ext cache cache' key :
  c_count cache' = c_count cache →
  (∀ j, (j < c_count cache)%nat →
        read_key (c_keys cache') j = read_key (c_keys cache) j) →
  cache_find cache' key = cache_find cache key.
Proof.
  intros Hcount Hkeys. destruct (cache_find cache key) as [i|] eqn:Hf.
  - apply cache_find_Some in Hf as (Hi & Hk & Hlow).
    apply cache_find_intro; [lia|by rewrite Hkeys|].
    intros j Hj. rewrite Hkeys by lia. by apply Hlow.
  - apply cache_find_absent. intros j Hj. rewrite Hkeys by lia.
    rewrite Hcount in Hj. revert j Hj. by apply cache_find_absent.
Qed.

(** The slot [goon_cache_set] writes lies in the arrays. *)
Lemma set_slot_bound cache key :
  (c_count cache ≤ GOON_CACHE_SIZE)%nat →
  (set_slot cache key < GOON_CACHE_SIZE)%nat.
Proof.
  intros Hcount. unfold set_slot.
  destruct (cache_find cache key) as [i|] eqn:Hf.
  - apply cache_find_Some in Hf as (Hi & _). lia.
  - destruct (Nat.leb_spec GOON_CACHE_SIZE (c_count cache)); [|lia].
    apply cache_oldest_spec.
Qed.

(** After a successful [set] the scan finds the key in the slot written,
    which holds the copy of the value, the size and the time. *)
Lemma cache_find_set_same cache key value size now :
  cache_wf cache → (c_count cache ≤ GOON_CACHE_SIZE)%nat → short_key key →
  let r := goon_cache_set cache key value size now true in
  let s := set_slot cache key in
  r.1 = GOON_SUCCESS
  ∧ cache_find r.2 key = Some s
  ∧ c_values r.2 !! s = Some (Some (copy_bytes value size))
  ∧ c_sizes r.2 !! s = Some size
  ∧ c_timestamps r.2 !! s = Some now.
Proof.
  intros (Hk & Hv & Ht & Hs) Hcount Hshort r s.
  pose proof (set_slot_bound cache key Hcount) as Hbound. fold s in Hbound.
  subst r s. unfold goon_cache_set, set_slot in *.
  destruct (cache_find cache key) as [i|] eqn:Hf;
    [|destruct (Nat.leb_spec GOON_CACHE_SIZE (c_count cache)) as [Hfull|Hroom]];
    cbn [fst snd].
  - split; [done|]. split; [exact Hf|].
    cbn [c_values c_sizes c_timestamps].
    split_and!; apply list_lookup_insert_eq; lia.
  - split; [done|]. split.
    + pose proof (proj1 (cache_find_absent _ _) Hf) as Hno.
      apply cache_find_intro; cbn [c_count c_keys].
      * lia.
      * rewrite read_key_insert_eq by lia. by apply strncpy_short.
      * intros j Hj. rewrite read_key_insert_ne by lia. apply Hno. lia.
    + cbn [c_values c_sizes c_timestamps].
      split_and!; apply list_lookup_insert_eq; lia.
  - split; [done|]. split.
    + pose proof (proj1 (cache_find_absent _ _) Hf) as Hno.
      apply cache_find_intro; cbn [c_count c_keys].
      * lia.
      * rewrite read_key_insert_eq by lia. by apply strncpy_short.
      * intros j Hj. rewrite read_key_insert_ne by lia. by apply Hno.
    + cbn [c_values c_sizes c_timestamps].
      split_and!; apply list_lookup_insert_eq; lia.
Qed.

(** X14. A value stored is the value read: after a successful
    [goon_cache_set] of a key of at most 127 characters, whether the key was
    present, was added in a free slot or replaced the oldest entry,
    [goon_cache_get] of the key returns the copy of the value and the size
    that were stored. *)
Theorem cache_set_get cache key value size now now' :
  cache_wf cache → (c_count cache ≤ GOON_CACHE_SIZE)%nat → short_key key →
  let r := goon_cache_set cache key value size now true in
  r.1 = GOON_SUCCESS
  ∧ (goon_cache_get r.2 key now').1 = Some (Some (copy_bytes value size), size).
Proof.
  intros Hwf Hcount Hshort r.
  destruct (cache_find_set_same cache key value size now Hwf Hcount Hshort)
    as (Hrc & Hf & Hv & Hs & _).
  split; [exact Hrc|]. subst r. unfold goon_cache_get.
  rewrite Hf. cbn [fst]. by rewrite Hv, Hs.
Qed.

Lemma sample_full_cache_count :
  (c_count sample_full_cache ≤ GOON_CACHE_SIZE)%nat.
Proof. vm_compute. lia. Qed.

Lemma cache_set_get_witness :
  (goon_cache_get
     (goon_cache_set sample_full_cache "fresh" [Byte.x02; Byte.x03] 2 500
        true).2 "fresh" 600).1
  = Some (Some [Byte.x02; Byte.x03], 2).
Proof.
  apply (cache_set_get sample_full_cache "fresh" [Byte.x02; Byte.x03] 2 500 600).
  - exact sample_full_cache_wf.
  - exact sample_full_cache_count.
  - unfold short_key. vm_compute. lia.
Defined.

(** What a [set] of [key] does to the scan for another key: the entry of
    the other key disappears when its slot is the one evicted, and is found
    where it was, with its value and size, otherwise. *)
Lemma cache_find_set_other cache key value size now mem key' :
  cache_inv cache → short_key key → key' ≠ key →
  let cache' := (goon_cache_set cache key value size now mem).2 in
  (evicts cache key key' → cache_find cache' key' = None)
  ∧ (¬ evicts cache key key' →
       cache_find cache' key' = cache_find cache key'
       ∧ ∀ j, cache_find cache key' = Some j →
              c_values cache' !! j = c_values cache !! j
              ∧ c_sizes cache' !! j = c_sizes cache !! j).
Proof.
  intros ((Hk & Hv & Ht & Hs) & Hcount & Huniq) Hshort Hne cache'.
  subst cache'. unfold evicts, goon_cache_set.
  destruct (cache_find cache key) as [i|] eqn:Hf;
    [|destruct (Nat.leb_spec GOON_CACHE_SIZE (c_count cache)) as [Hfull|Hroom]].
  - split; [by intros [? _]|]. intros _.
    apply cache_find_Some in Hf as (Hi & Hki & _).
    assert (∀ j, cache_find cache key' = Some j → j ≠ i) as Hji.
    { intros j (_ & Hkj & _)%cache_find_Some ->. congruence. }
    destruct mem; cbn [snd]; (split; [by apply cache_find_ext|]);
      intros j Hj; specialize (Hji j Hj); cbn [c_values c_sizes];
      by rewrite ?list_lookup_insert_ne.
  - pose proof (cache_oldest_spec cache) as (Ho & _). cbv zeta in Ho.
    set (o := cache_oldest cache) in *.
    set (keys' := <[o := strncpy (GOON_MAX_NAME_LEN - 1) key]> (c_keys cache)).
    assert (∀ c', c_count c' = c_count cache → c_keys c' = keys' →
                  (cache_find cache key' = Some o → cache_find c' key' = None)
                  ∧ (cache_find cache key' ≠ Some o →
                       cache_find c' key' = cache_find cache key')) as Hcases.
    { intros c' Hc' Hk'. split.
      - intros (_ & Hko & _)%cache_find_Some. apply cache_find_absent.
        intros j Hj. rewrite Hk'. subst keys'.
        destruct (decide (j = o)) as [->|Hjo].
        + rewrite read_key_insert_eq by lia. rewrite strncpy_short by done.
          congruence.
        + rewrite read_key_insert_ne by done. intros Hkj.
          apply Hjo, Huniq; [lia..|congruence].
      - intros Hnot. destruct (cache_find cache key') as [j|] eqn:Hf'.
        + apply cache_find_Some in Hf' as (Hj & Hkj & Hlow).
          assert (j ≠ o) by congruence.
          apply cache_find_intro; [lia| |]; rewrite Hk'; subst keys'.
          * by rewrite read_key_insert_ne.
          * intros k Hkj'. destruct (decide (k = o)) as [->|Hko].
            -- rewrite read_key_insert_eq by lia.
               rewrite strncpy_short by done. congruence.
            -- rewrite read_key_insert_ne by done. by apply Hlow.
        + pose proof (proj1 (cache_find_absent _ _) Hf') as Hno.
          apply cache_find_absent. intros j Hj. rewrite Hk'. subst keys'.
          destruct (decide (j = o)) as [->|Hjo].
          * rewrite read_key_insert_eq by lia.
            rewrite strncpy_short by done. congruence.
          * rewrite read_key_insert_ne by done. apply Hno. lia. }
    destruct mem; cbn [snd];
      (match goal with
       | |- context [cache_find ?c key'] =>
         destruct (Hcases c eq_refl eq_refl) as [Hev Hkeep]
       end);
      (split; [intros (_ & _ & Hfo); by apply Hev|]);
      intros Hnot;
      (assert (cache_find cache key' ≠ Some o) as Hno
         by (intros Hfo; apply Hnot; split_and!; [done|lia|done]));
      (split; [by apply Hkeep|]);
      intros j Hj; cbn [c_values c_sizes];
      (assert (o ≠ j) by congruence);
      by rewrite ?list_lookup_insert_ne.
  - split; [intros (_ & ? & _); lia|]. intros _.
    pose proof (proj1 (cache_find_absent _ _) Hf) as Hno.
    assert (∀ j, cache_find cache key' = Some j → c_count cache ≠ j) as Hjn.
    { intros j (? & _)%cache_find_Some. lia. }
    destruct mem; cbn [snd].
    + split.
      * destruct (cache_find cache key') as [j|] eqn:Hf'.
        -- apply cache_find_Some in Hf' as (Hj & Hkj & Hlow).
           apply cache_find_intro; cbn [c_count c_keys]; [lia| |].
           ++ rewrite read_key_insert_ne by lia. done.
           ++ intros k Hk'. rewrite read_key_insert_ne by lia. by apply Hlow.
        -- pose proof (proj1 (cache_find_absent _ _) Hf') as Hno'.
           apply cache_find_absent. cbn [c_count c_keys]. intros j Hj.
           destruct (decide (j = c_count cache)) as [->|Hjn'].
           ++ rewrite read_key_insert_eq by lia.
              rewrite strncpy_short by done. congruence.
           ++ rewrite read_key_insert_ne by done. apply Hno'. lia.
      * intros j Hj. specialize (Hjn j Hj). cbn [c_values c_sizes].
        by rewrite !list_lookup_insert_ne.
    + split.
      * apply cache_find_ext; cbn [c_count c_keys]; [done|].
        intros j Hj. apply read_key_insert_ne. lia.
      * intros j Hj. specialize (Hjn j Hj). cbn [c_values c_sizes].
        by rewrite ?list_lookup_insert_ne.
Qed.

(** X15. A [goon_cache_set] of one key leaves the other keys alone, except
    the one it evicts: under the invariant of the cache and for a key of at
    most 127 characters, a later [goon_cache_get] of another key misses when
    the entry of that key was the oldest of a full cache that did not hold
    the key set, and returns what it returned before otherwise.  This holds
    whether or not the allocation of the value succeeds. *)
Theorem cache_set_keeps_other_keys cache key value size now mem key' now' :
  cache_inv cache → short_key key → key' ≠ key →
  let cache' := (goon_cache_set cache key value size now mem).2 in
  (evicts cache key key' → (goon_cache_get cache' key' now').1 = None)
  ∧ (¬ evicts cache key key' →
       (goon_cache_get cache' key' now').1 = (goon_cache_get cache key' now').1).
Proof.
  intros Hinv Hshort Hne cache'.
  destruct (cache_find_set_other cache key value size now mem key'
              Hinv Hshort Hne) as [Hev Hkeep].
  fold cache' in Hev, Hkeep. unfold goon_cache_get. split.
  - intros He. by rewrite (Hev He).
  - intros Hn. destruct (Hkeep Hn) as [Hf Hslots]. rewrite Hf.
    destruct (cache_find cache key') as [j|]; [|done].
    destruct (Hslots j eq_refl) as [-> ->]. done.
Qed.

Lemma sample_full_cache_inv : cache_inv sample_full_cache.
Proof.
  split; [exact sample_full_cache_wf|]. split; [exact sample_full_cache_count|].
  assert (Forall (λ i, Forall (λ j,
            read_key (c_keys sample_full_cache) i
            = read_key (c_keys sample_full_cache) j → i = j) (seq 0 64))
          (seq 0 64)) as Hall
    by (apply (bool_decide_unpack _); vm_compute; exact I).
  intros i j Hi Hj. rewrite Forall_forall in Hall.
  change (c_count sample_full_cache) with 64%nat in Hi, Hj.
  specialize (Hall i ltac:(apply elem_of_seq; lia)).
  rewrite Forall_forall in Hall. apply Hall, elem_of_seq. lia.
Qed.

Lemma cache_set_keeps_other_keys_witness :
  let cache' :=
    (goon_cache_set sample_full_cache "fresh" [Byte.x02] 1 500 true).2 in
  (goon_cache_get cache' (sample_key 0) 600).1 = None
  ∧ (goon_cache_get cache' (sample_key 1) 600).1 = Some (Some [Byte.x01], 1).
Proof.
  split.
  - apply (cache_set_keeps_other_keys sample_full_cache "fresh" [Byte.x02] 1
             500 true (sample_key 0) 600).
    + exact sample_full_cache_inv.
    + unfold short_key. vm_compute. lia.
    + vm_compute. intros [=].
    + split_and!; vm_compute; reflexivity.
  - etransitivity.
    + apply (cache_set_keeps_other_keys sample_full_cache "fresh" [Byte.x02] 1
               500 true (sample_key 1) 600).
      * exact sample_full_cache_inv.
      * unfold short_key. vm_compute. lia.
      * vm_compute. intros [=].
      * intros (_ & _ & Hf). vm_compute in Hf. discriminate Hf.
    + vm_compute. reflexivity.
Defined.

(** ** Recency cache: the invariant *)

(** Writing the key [k] into slot [s] keeps the keys in use distinct when
    no other slot in use holds [k]. *)
Lemma distinct_keys_insert keys n n' s k :
  (∀ i j, (i < n)%nat → (j < n)%nat →
          read_key keys i = read_key keys j → i = j) →
  (∀ j, (j < n)%nat → j ≠ s → read_key keys j ≠ k) →
  (∀ i, (i < n')%nat → i = s ∨ (i < n)%nat) →
  (s < length keys)%nat →
  ∀ i j, (i < n')%nat → (j < n')%nat →
         read_key (<[s := k]> keys) i = read_key (<[s := k]> keys) j → i = j.
Proof.
  intros Huniq Hfresh Hrange Hs i j Hi Hj.
  destruct (decide (i = s)) as [->|Hi'], (decide (j = s)) as [->|Hj'];
    rewrite ?read_key_insert_eq, ?(read_key_insert_ne _ s) by done; [done|..].
  - intros Heq. destruct (Hfresh j); [|done..].
    destruct (Hrange j Hj); [done|lia].
  - intros Heq. destruct (Hfresh i); [|done..].
    destruct (Hrange i Hi); [done|lia].
  - apply Huniq; [destruct (Hrange i Hi)|destruct (Hrange j Hj)]; done || lia.
Qed.

Lemma goon_cache_set_inv cache key value size now mem :
  cache_inv cache → short_key key →
  cache_inv (goon_cache_set cache key value size now mem).2.
Proof.
  intros (Hwf & Hcount & Huniq) Hshort.
  split; [by apply goon_cache_set_wf|].
  destruct Hwf as (Hk & _). unfold goon_cache_set.
  destruct (cache_find cache key) as [i|] eqn:Hf;
    [|destruct (Nat.leb_spec GOON_CACHE_SIZE (c_count cache)) as [Hfull|Hroom]].
  - destruct mem; cbn [snd c_count c_keys]; done.
  - pose proof (cache_oldest_spec cache) as (Ho & _). cbv zeta in Ho.
    pose proof (proj1 (cache_find_absent _ _) Hf) as Hno.
    destruct mem; cbn [snd c_count c_keys]; (split; [done|]);
      apply (distinct_keys_insert _ (c_count cache)); try done; try lia;
      intros j Hj _; rewrite strncpy_short by done; by apply Hno.
  - pose proof (proj1 (cache_find_absent _ _) Hf) as Hno.
    destruct mem; cbn [snd c_count c_keys]; (split; [lia|]);
      apply (distinct_keys_insert _ (c_count cache)); try done; try lia;
      intros j Hj _; rewrite strncpy_short by done; by apply Hno.
Qed.

Lemma goon_cache_get_inv cache key now :
  cache_inv cache → cache_inv (goon_cache_get cache key now).2.
Proof.
  intros ((Hk & Hv & Ht & Hs) & Hcount & Huniq). unfold goon_cache_get.
  destruct (cache_find cache key); [|done]. cbn [snd].
  split; [|done]. unfold cache_wf. cbn. by rewrite length_insert.
Qed.

(** ** Recency cache: removal *)

Lemma shift_left_length {A} (a : list A) i n :
  length (shift_left a i n) = length a.
Proof.
  revert a i. induction n as [|n IH]; intros a i; [done|].
  cbn [shift_left]. rewrite IH. destruct (a !! S i); [|done].
  by rewrite length_insert.
Qed.

(** The compaction loop moves the cells behind the gap one place down and
    leaves the others, the last cell of the range included, as they are. *)
Lemma shift_left_lookup {A} (a : list A) i n j :
  (i + n < length a)%nat →
  shift_left a i n !! j
  = if decide (i ≤ j < i + n)%nat then a !! S j else a !! j.
Proof.
  revert a i. induction n as [|n IH]; intros a i Hlen.
  - cbn [shift_left]. destruct (decide _); [lia|done].
  - cbn [shift_left].
    destruct (lookup_lt_is_Some_2 a (S i) ltac:(lia)) as [x Hx]. rewrite Hx.
    rewrite IH by (rewrite length_insert; lia).
    destruct (decide (S i ≤ j < S i + n)%nat), (decide (i ≤ j < i + S n)%nat);
      try lia.
    + apply list_lookup_insert_ne. lia.
    + assert (j = i) as -> by lia. rewrite list_lookup_insert_eq by lia. done.
    + apply list_lookup_insert_ne. lia.
Qed.

(** The slot of the old cache that slot [j] of the compacted cache comes
    from. *)
Lemma remove_keys cache key i j :
  cache_inv cache → cache_find cache key = Some i →
  (j < c_count cache - 1)%nat →
  let j0 := if decide (i ≤ j)%nat then S j else j in
  let cache' := (goon_cache_remove cache key).2 in
  (j0 < c_count cache)%nat ∧ j0 ≠ i
  ∧ read_key (c_keys cache') j = read_key (c_keys cache) j0
  ∧ c_values cache' !! j = c_values cache !! j0
  ∧ c_sizes cache' !! j = c_sizes cache !! j0
  ∧ c_timestamps cache' !! j = c_timestamps cache !! j0.
Proof.
  intros ((Hk & Hv & Ht & Hs) & Hcount & _) Hf Hj j0 cache'.
  pose proof (cache_find_Some _ _ _ Hf) as (Hi & _).
  subst cache' j0. unfold goon_cache_remove. rewrite Hf.
  cbn [snd c_keys c_values c_sizes c_timestamps]. unfold read_key.
  rewrite !shift_left_lookup by (rewrite ?length_insert; lia).
  destruct (decide (i ≤ j < i + (c_count cache - 1 - i))%nat),
    (decide (i ≤ j)%nat); try lia;
    (split_and!; [lia|lia|done| |done|done]);
    apply list_lookup_insert_ne; lia.
Qed.

Lemma goon_cache_remove_inv cache key :
  cache_inv cache → cache_inv (goon_cache_remove cache key).2.
Proof.
  intros Hinv. destruct (cache_find cache key) as [i|] eqn:Hf.
  - pose proof Hinv as ((Hk & Hv & Ht & Hs) & Hcount & Huniq).
    split; [|split].
    + unfold goon_cache_remove, cache_wf. rewrite Hf. cbn.
      by rewrite !shift_left_length, length_insert.
    + unfold goon_cache_remove. rewrite Hf. cbn. lia.
    + assert (c_count (goon_cache_remove cache key).2 = (c_count cache - 1)%nat)
        as -> by (unfold goon_cache_remove; by rewrite Hf).
      intros j k Hj Hk'.
      destruct (remove_keys cache key i j Hinv Hf Hj) as (? & _ & -> & _).
      destruct (remove_keys cache key i k Hinv Hf Hk') as (? & _ & -> & _).
      intros Heq. apply Huniq in Heq; [|done..].
      destruct (decide (i ≤ j)%nat), (decide (i ≤ k)%nat); lia.
  - unfold goon_cache_remove. by rewrite Hf.
Qed.

Lemma goon_cache_clear_inv cache :
  cache_inv cache → cache_inv (goon_cache_clear cache).
Proof.
  intros ((Hk & Hv & Ht & Hs) & Hcount & Huniq).
  split; [|split; [cbn; lia|cbn; intros; lia]].
  unfold cache_wf, goon_cache_clear. cbn. split_and!; try done.
  clear -Hv. generalize 0%nat. revert Hv. generalize (c_values cache).
  induction (c_count cache) as [|n IH]; intros values Hv i; [done|].
  cbn [clear_values]. apply IH. by rewrite length_insert.
Qed.

(** X16. The invariant of the cache (arrays of 64 cells, [count] at most
    64, no key twice among the slots in use) holds after
    [goon_cache_create] and is kept by [goon_cache_set] of a key of at most
    127 characters, with or without memory for the value, by
    [goon_cache_get], by [goon_cache_remove] and by [goon_cache_clear]. *)
Theorem cache_invariant_preserved cache key value size now mem :
  cache_inv goon_cache_create
  ∧ (cache_inv cache →
     (short_key key →
        cache_inv (goon_cache_set cache key value size now mem).2)
     ∧ cache_inv (goon_cache_get cache key now).2
     ∧ cache_inv (goon_cache_remove cache key).2
     ∧ cache_inv (goon_cache_clear cache)).
Proof.
  split.
  - split; [exact goon_cache_create_wf|]. split; cbn; [lia|intros; lia].
  - intros Hinv. split_and!.
    + intros Hshort. by apply goon_cache_set_inv.
    + by apply goon_cache_get_inv.
    + by apply goon_cache_remove_inv.
    + by apply goon_cache_clear_inv.
Qed.

Lemma cache_invariant_preserved_witness :
  cache_inv (goon_cache_set sample_full_cache "fresh" [Byte.x02] 1 500 true).2
  ∧ cache_inv (goon_cache_remove sample_full_cache (sample_key 5)).2.
Proof.
  destruct (cache_invariant_preserved sample_full_cache "fresh" [Byte.x02] 1
              500 true) as [_ Hkeep].
  destruct (cache_invariant_preserved sample_full_cache (sample_key 5) [] 0
              0 true) as [_ Hkeep'].
  split.
  - apply Hkeep; [exact sample_full_cache_inv|].
    unfold short_key. vm_compute. lia.
  - apply Hkeep'. exact sample_full_cache_inv.
Defined.

(** X17. [goon_cache_remove] of a key that is present returns
    [GOON_SUCCESS] and removes that entry only: [count] drops by one, a
    [goon_cache_get] of the key misses afterwards, and a [goon_cache_get]
    of any other key returns what it returned before. *)
Theorem cache_remove_only_that_key cache key key' now :
  cache_inv cache → is_Some (cache_find cache key) →
  let r := goon_cache_remove cache key in
  r.1 = GOON_SUCCESS
  ∧ c_count r.2 = (c_count cache - 1)%nat
  ∧ (goon_cache_get r.2 key now).1 = None
  ∧ (key' ≠ key →
       (goon_cache_get r.2 key' now).1 = (goon_cache_get cache key' now).1).
Proof.
  intros Hinv [i Hf] r. subst r. pose proof Hinv as (_ & _ & Huniq).
  pose proof (cache_find_Some _ _ _ Hf) as (Hi & Hki & _).
  assert ((goon_cache_remove cache key).1 = GOON_SUCCESS ∧ c_count (goon_cache_remove cache key).2 = (c_count cache - 1)%nat)
    as [Hrc Hcount].
  { unfold goon_cache_remove. by rewrite Hf. }
  split; [exact Hrc|]. split; [exact Hcount|]. split.
  - assert (cache_find (goon_cache_remove cache key).2 key = None) as Hgone.
    { apply cache_find_absent. rewrite Hcount. intros j Hj.
      destruct (remove_keys cache key i j Hinv Hf Hj) as (Hj0 & Hne & -> & _).
      intros Hk. apply Hne, Huniq; [done..|congruence]. }
    unfold goon_cache_get. by rewrite Hgone.
  - intros Hne. unfold goon_cache_get.
    destruct (cache_find cache key') as [j|] eqn:Hf'.
    + pose proof (cache_find_Some _ _ _ Hf') as (Hj & Hkj & _).
      assert (j ≠ i) as Hji by congruence.
      set (j' := if decide (i ≤ j)%nat then (j - 1)%nat else j).
      assert (j' < c_count cache - 1)%nat as Hj'
        by (subst j'; destruct (decide _); lia).
      destruct (remove_keys cache key i j' Hinv Hf Hj')
        as (_ & _ & Hk & Hv & Hs & _).
      assert ((if decide (i ≤ j')%nat then S j' else j') = j) as Hback
        by (subst j'; repeat destruct (decide _); lia).
      rewrite Hback in Hk, Hv, Hs.
      rewrite (cache_find_unique (goon_cache_remove cache key).2 key' j').
      * cbn [fst]. by rewrite Hv, Hs.
      * by apply goon_cache_remove_inv.
      * by rewrite Hcount.
      * by rewrite Hk.
    + pose proof (proj1 (cache_find_absent _ _) Hf') as Hno.
      assert (cache_find (goon_cache_remove cache key).2 key' = None) as ->; [|done].
      apply cache_find_absent. rewrite Hcount. intros j Hj.
      destruct (remove_keys cache key i j Hinv Hf Hj) as (Hj0 & _ & -> & _).
      by apply Hno.
Qed.

Lemma cache_remove_only_that_key_witness :
  let r := goon_cache_remove sample_full_cache (sample_key 5) in
  r.1 = GOON_SUCCESS
  ∧ c_count r.2 = 63%nat
  ∧ (goon_cache_get r.2 (sample_key 5) 600).1 = None
  ∧ (goon_cache_get r.2 (sample_key 9) 600).1 = Some (Some [Byte.x01], 1).
Proof.
  destruct (cache_remove_only_that_key sample_full_cache (sample_key 5)
              (sample_key 9) 600) as (Hrc & Hcount & Hgone & Hkeep).
  - exact sample_full_cache_inv.
  - exists 5%nat. vm_compute. reflexivity.
  - split_and!; [exact Hrc|exact Hcount|exact Hgone|].
    rewrite Hkeep; [vm_compute; reflexivity|]. vm_compute. intros [=].
Defined.

(** X18. A hit protects the entry from the next eviction: in a full cache
    where some other slot is older than the time of the hit, after
    [goon_cache_get] of a key, a [goon_cache_set] of a new key of at most 127
    characters evicts another entry, and the key is still found with its
    value. *)
Theorem cache_get_protects_from_eviction cache key key' value size
    now now1 now2 :
  cache_inv cache → c_count cache = GOON_CACHE_SIZE →
  is_Some (cache_find cache key) →
  (∃ j, (j < GOON_CACHE_SIZE)%nat ∧ cache_find cache key ≠ Some j
        ∧ read_time (c_timestamps cache) j < now) →
  short_key key' → key' ≠ key →
  let cache1 := (goon_cache_get cache key now).2 in
  let cache2 := (goon_cache_set cache1 key' value size now1 true).2 in
  (goon_cache_get cache2 key now2).1 = (goon_cache_get cache key now2).1.
Proof.
  intros Hinv Hfull [i Hf] (j & Hj & Hji & Hold) Hshort Hne cache1 cache2.
  pose proof (goon_cache_get_inv cache key now Hinv) as Hinv1.
  fold cache1 in Hinv1.
  pose proof Hinv as ((Hk & Hv & Ht & Hs) & _).
  pose proof (cache_find_Some _ _ _ Hf) as (Hi & Hki & _).
  assert (cache1 = {| c_keys := c_keys cache; c_values := c_values cache;
                      c_timestamps := <[i := now]> (c_timestamps cache);
                      c_sizes := c_sizes cache; c_count := c_count cache |})
    as Hcache1 by (subst cache1; unfold goon_cache_get; by rewrite Hf).
  assert (cache_find cache1 key = Some i) as Hf1
    by (rewrite Hcache1; exact Hf).
  assert (cache_oldest cache1 ≠ i) as Holdest.
  { destruct (cache_oldest_spec cache1) as (_ & Hmin & _).
    specialize (Hmin j Hj). intros Ho. rewrite Ho in Hmin.
    rewrite Hcache1 in Hmin. cbn [c_timestamps] in Hmin.
    unfold read_time in Hmin.
    rewrite list_lookup_insert_eq in Hmin by lia.
    rewrite list_lookup_insert_ne in Hmin by congruence.
    cbn in Hmin. unfold read_time in Hold. lia. }
  destruct (cache_find_set_other cache1 key' value size now1 true key
              Hinv1 Hshort ltac:(done)) as [_ Hkeep].
  destruct Hkeep as [Hf2 Hslots].
  { intros (_ & _ & Hev). rewrite Hf1 in Hev. congruence. }
  fold cache2 in Hf2, Hslots. destruct (Hslots i Hf1) as [Hv2 Hs2].
  unfold goon_cache_get. rewrite Hf2, Hf1, Hf. cbn [fst].
  rewrite Hv2, Hs2, Hcache1. done.
Qed.

Lemma cache_get_protects_from_eviction_witness :
  let cache1 := (goon_cache_get sample_full_cache (sample_key 0) 400).2 in
  let cache2 := (goon_cache_set cache1 "fresh" [Byte.x02] 1 500 true).2 in
  (goon_cache_get cache2 (sample_key 0) 600).1 = Some (Some [Byte.x01], 1).
Proof.
  etransitivity.
  - apply (cache_get_protects_from_eviction sample_full_cache (sample_key 0)
             "fresh" [Byte.x02] 1 400 500 600).
    + exact sample_full_cache_inv.
    + reflexivity.
    + exists 0%nat. vm_compute. reflexivity.
    + exists 1%nat.
      split_and!; [unfold GOON_CACHE_SIZE; lia|vm_compute; intros [=]
                  |by vm_compute].
    + unfold short_key. vm_compute. lia.
    + vm_compute. intros [=].
  - vm_compute. reflexivity.
Defined.

(** ** Object pool: ownership *)

Lemma read_ptr_insert_eq (a : list ptr) i p :
  (i < length a)%nat → read_ptr (<[i := p]> a) i = p.
Proof. intros. unfold read_ptr. by rewrite list_lookup_insert_eq. Qed.

Lemma read_ptr_insert_ne (a : list ptr) i j p :
  i ≠ j → read_ptr (<[i := p]> a) j = read_ptr a j.
Proof. intros. unfold read_ptr. by rewrite list_lookup_insert_ne. Qed.

Lemma goon_pool_create_inv capacity : pool_inv (goon_pool_create capacity).
Proof.
  split; [apply goon_pool_create_wf|]. split; cbn; intros; lia.
Qed.

(** X19. [goon_pool_acquire] never hands out an object that is handed out
    already.  Under the invariant of the pool and with an allocator that
    returns objects the pool does not own, the object returned was not in
    use before the call and is in use after it, no other object changes
    hands, and the invariant is kept.  So two acquisitions with no release
    in between return different objects. *)
Theorem pool_acquire_exclusive pool size alloc o pool1 :
  pool_inv pool →
  (∀ o', alloc size = Some o' → ¬ owns pool o') →
  goon_pool_acquire pool size alloc = (Some o, pool1) →
  ¬ held pool o
  ∧ held pool1 o
  ∧ (∀ o', o' ≠ o → held pool1 o' ↔ held pool o')
  ∧ pool_inv pool1.
Proof.
  intros Hinv Hfresh Hacq. pose proof Hinv as ((Ho & Hu & Hs) & Hnn & Huniq).
  pose proof (goon_pool_acquire_wf pool size alloc (proj1 Hinv)) as Hwf1.
  rewrite Hacq in Hwf1. cbn [snd] in Hwf1.
  unfold goon_pool_acquire in Hacq.
  destruct (first_index _ _ _) as [k|] eqn:Hscan.
  - injection Hacq as Hobj <-.
    apply first_index_Some in Hscan as (Hk & Htest & _).
    apply andb_true_iff in Htest as [Hfree _].
    apply negb_true_iff in Hfree.
    split_and!.
    + intros (i & Hi & Hoi & Hui).
      assert (i = k) as -> by (apply Huniq; [lia..|congruence]). congruence.
    + exists k. cbn. split_and!; [lia|done|]. apply read_flag_insert_eq. lia.
    + intros o' Hne. unfold held. cbn.
      split; intros (i & Hi & Hoi & Hui); exists i;
        (assert (k ≠ i) by congruence);
        rewrite read_flag_insert_ne in * by done; done.
    + split; [exact Hwf1|]. cbn. done.
  - destruct (Nat.ltb_spec (p_size pool) (p_capacity pool)) as [Hroom|];
      [|done].
    destruct (alloc size) as [obj|] eqn:Halloc; [|done].
    injection Hacq as -> <-.
    specialize (Hfresh o eq_refl).
    split_and!.
    + intros (i & Hi & Hoi & _). apply Hfresh. by exists i.
    + exists (p_size pool). cbn. split_and!; [lia| |].
      * apply read_ptr_insert_eq. lia.
      * apply read_flag_insert_eq. lia.
    + intros o' Hne. unfold held. cbn. split.
      * intros (i & Hi & Hoi & Hui).
        destruct (decide (i = p_size pool)) as [->|Hip].
        { rewrite read_ptr_insert_eq in Hoi by lia. congruence. }
        rewrite read_ptr_insert_ne in Hoi by done.
        rewrite read_flag_insert_ne in Hui by done.
        exists i. split_and!; [lia|done..].
      * intros (i & Hi & Hoi & Hui). exists i.
        rewrite read_ptr_insert_ne, read_flag_insert_ne by lia.
        split_and!; [lia|done..].
    + split; [exact Hwf1|]. cbn. split.
      * intros i Hi. destruct (decide (i = p_size pool)) as [->|Hip].
        -- by rewrite read_ptr_insert_eq by lia.
        -- rewrite read_ptr_insert_ne by done. apply Hnn. lia.
      * intros i j Hi Hj.
        destruct (decide (i = p_size pool)) as [->|Hip],
          (decide (j = p_size pool)) as [->|Hjp]; [done|..].
        -- rewrite read_ptr_insert_eq, read_ptr_insert_ne by (done || lia).
           intros Heq. destruct Hfresh. exists j. split; [lia|done].
        -- rewrite read_ptr_insert_eq, read_ptr_insert_ne by (done || lia).
           intros Heq. destruct Hfresh. exists i. split; [lia|done].
        -- rewrite !read_ptr_insert_ne by done. apply Huniq; lia.
Qed.

Lemma sample_pool_inv : pool_inv sample_pool.
Proof.
  split; [unfold pool_wf; cbn; split_and!; [done..|lia]|]. cbn. split.
  - intros [|[|i]] Hi; [done..|lia].
  - intros [|[|i]] [|[|j]] Hi Hj; try done; try lia.
Qed.

Lemma pool_acquire_exclusive_witness :
  ¬ held sample_pool 10%positive
  ∧ held (goon_pool_acquire sample_pool 16 (λ _, Some 12%positive)).2
      10%positive.
Proof.
  destruct (pool_acquire_exclusive sample_pool 16 (λ _, Some 12%positive)
              10%positive
              (goon_pool_acquire sample_pool 16 (λ _, Some 12%positive)).2)
    as (Hbefore & Hafter & _).
  - exact sample_pool_inv.
  - intros o' [= <-] ([|[|i]] & Hi & Hoi); cbn in *; [done..|lia].
  - reflexivity.
  - split; [exact Hbefore|exact Hafter].
Defined.

(** X20. [goon_pool_release] of an object the pool owns returns
    [GOON_SUCCESS] and takes back that object only: it is no longer in use,
    every other object is in use exactly when it was, the pool owns what it
    owned, and the invariant is kept. *)
Theorem pool_release_only_that_object pool o :
  pool_inv pool → owns pool o →
  let r := goon_pool_release pool (Some o) in
  r.1 = GOON_SUCCESS
  ∧ ¬ held r.2 o
  ∧ (∀ o', o' ≠ o → held r.2 o' ↔ held pool o')
  ∧ (∀ o', owns r.2 o' ↔ owns pool o')
  ∧ pool_inv r.2.
Proof.
  intros Hinv (i & Hi & Hoi) r. subst r.
  pose proof Hinv as ((Ho & Hu & Hs) & Hnn & Huniq).
  pose proof (goon_pool_release_wf pool (Some o) (proj1 Hinv)) as Hwf1.
  unfold goon_pool_release in *.
  destruct (first_index _ _ _) as [k|] eqn:Hscan.
  - apply first_index_Some in Hscan as (Hk & Htest & _).
    apply bool_decide_eq_true in Htest. cbn [fst snd] in *.
    split_and!; [done| | | |].
    + intros (j & Hj & Hoj & Huj). cbn in *.
      assert (j = k) as -> by (apply Huniq; [lia..|congruence]).
      rewrite read_flag_insert_eq in Huj by lia. done.
    + intros o' Hne. unfold held. cbn.
      split; intros (j & Hj & Hoj & Huj); exists j;
        (assert (k ≠ j) by congruence);
        rewrite read_flag_insert_ne in * by done; done.
    + done.
    + split; [exact Hwf1|]. cbn. done.
  - pose proof (first_index_None _ _ _ Hscan i ltac:(lia)) as Hno.
    apply bool_decide_eq_false in Hno. done.
Qed.

Lemma pool_release_only_that_object_witness :
  let r := goon_pool_release sample_pool (Some 11%positive) in
  r.1 = GOON_SUCCESS ∧ ¬ held r.2 11%positive.
Proof.
  destruct (pool_release_only_that_object sample_pool 11%positive)
    as (Hrc & Hfree & _).
  - exact sample_pool_inv.
  - exists 1%nat. cbn. split; [lia|done].
  - split; [exact Hrc|exact Hfree].
Defined.

(** ** Event identifiers *)

Lemma wrap32_add_l z n : wrap32 (wrap32 z + n) = wrap32 (z + n).
Proof. unfold wrap32. by rewrite Zplus_mod_idemp_l. Qed.

Lemma wrap32_inj a b :
  wrap32 a = wrap32 b → - 2 ^ 32 < a - b < 2 ^ 32 → a = b.
Proof.
  unfold wrap32. intros Heq Hd.
  pose proof (Z.div_mod a (2 ^ 32) ltac:(lia)) as Ha.
  pose proof (Z.div_mod b (2 ^ 32) ltac:(lia)) as Hb.
  rewrite Heq in Ha. nia.
Qed.

(** A run of creations numbers the events with consecutive identifiers,
    modulo [2 ^ 32], from the counter on. *)
Lemma create_events_spec specs : ∀ g now,
  0 ≤ g_next_event_id g < 2 ^ 32 →
  let r := create_events specs g now in
  ev_id <$> r.1
  = (λ k, wrap32 (g_next_event_id g + Z.of_nat k)) <$> seq 0 (length specs)
  ∧ ev_name <$> r.1 = (λ s, strncpy (GOON_MAX_NAME_LEN - 1) s.1) <$> specs
  ∧ g_next_event_id r.2
    = wrap32 (g_next_event_id g + Z.of_nat (length specs)).
Proof.
  induction specs as [|[name priority] specs IH]; intros g now Hg r; subst r.
  - cbn. split_and!; [done..|]. rewrite Z.add_0_r. symmetry.
    by apply wrap32_small.
  - cbn [create_events]. unfold goon_event_create.
    set (g1 := {| g_next_handler_id := _ |}).
    assert (0 ≤ g_next_event_id g1 < 2 ^ 32) as Hg1
      by (subst g1; cbn; unfold wrap32; apply Z.mod_pos_bound; lia).
    destruct (IH g1 now Hg1) as (Hids & Hnames & Hnext).
    destruct (create_events specs g1 now) as [events g2].
    cbn [fst snd fmap list_fmap ev_id ev_name length seq] in *.
    split_and!.
    + f_equal; [rewrite Z.add_0_r; symmetry; by apply wrap32_small|].
      rewrite Hids, <-fmap_S_seq, <-list_fmap_compose.
      apply list_fmap_ext. intros _ k _. cbn. subst g1. cbn.
      rewrite wrap32_add_l. f_equal. lia.
    + by rewrite Hnames.
    + rewrite Hnext. subst g1. cbn. rewrite wrap32_add_l. f_equal. lia.
Qed.

(** X21. Event identifiers are unique within a window of [2 ^ 32]
    creations: a run of at most [2 ^ 32] successful [goon_event_create]
    calls returns events with pairwise distinct [id]s, consecutive modulo
    [2 ^ 32] from the value of the counter, and leaves the counter advanced
    by their number.  Names are stored cut to 127 characters. *)
Theorem event_ids_distinct specs g now :
  0 ≤ g_next_event_id g < 2 ^ 32 →
  Z.of_nat (length specs) ≤ 2 ^ 32 →
  let r := create_events specs g now in
  NoDup (ev_id <$> r.1)
  ∧ ev_id <$> r.1
    = (λ k, wrap32 (g_next_event_id g + Z.of_nat k)) <$> seq 0 (length specs)
  ∧ ev_name <$> r.1 = (λ s, strncpy (GOON_MAX_NAME_LEN - 1) s.1) <$> specs
  ∧ g_next_event_id r.2
    = wrap32 (g_next_event_id g + Z.of_nat (length specs)).
Proof.
  intros Hg Hlen r.
  destruct (create_events_spec specs g now Hg) as (Hids & Hnames & Hnext).
  fold r in Hids, Hnames, Hnext. split_and!; [|done..].
  rewrite Hids. apply NoDup_fmap_2_strong; [|apply NoDup_seq].
  intros i j Hi%elem_of_seq Hj%elem_of_seq Heq.
  apply wrap32_inj in Heq; lia.
Qed.

Lemma event_ids_distinct_witness :
  let g := {| g_next_handler_id := 1; g_next_event_id := 2 ^ 32 - 2;
              g_next_context_id := 1 |} in
  let r := create_events [("a"%string, 0); ("b"%string, 1); ("c"%string, 2)]
             g 1700000000 in
  NoDup (ev_id <$> r.1)
  ∧ ev_id <$> r.1 = [2 ^ 32 - 2; 2 ^ 32 - 1; 0]
  ∧ g_next_event_id r.2 = 1.
Proof.
  intros g r.
  destruct (event_ids_distinct
              [("a"%string, 0); ("b"%string, 1); ("c"%string, 2)] g 1700000000)
    as (Hnd & Hids & _ & Hnext).
  - by vm_compute.
  - by vm_compute.
  - subst r. split_and!; [exact Hnd|rewrite Hids; vm_compute; reflexivity
                         |rewrite Hnext; vm_compute; reflexivity].
Defined.

(** ** Event text: what follows the timestamp *)

(** The conversions of [sscanf] on the text of an event up to the last
    digit of the timestamp, whatever follows. *)
Lemma sscanf_event_open event tail :
  0 ≤ ev_id event →
  ev_name event ≠ EmptyString →
  (String.length (ev_name event) ≤ 127)%nat →
  ","%char ∉ list_ascii_of_string (ev_name event) →
  no_digit_ahead tail →
  sscanf_event
    (list_ascii_of_string "EVENT{id:" ++ print_unsigned (ev_id event)
     ++ list_ascii_of_string ",name:" ++ list_ascii_of_string (ev_name event)
     ++ list_ascii_of_string ",priority:" ++ print_signed (ev_priority event)
     ++ list_ascii_of_string ",timestamp:"
     ++ print_signed (ev_timestamp event) ++ tail)
  = Some (store_u (ev_id event), ev_name event, store_d (ev_priority event),
          store_ld (ev_timestamp event)).
Proof.
  intros Hid Hne Hlen Hcomma Htail. unfold sscanf_event.
  rewrite scan_literal_app. cbn [mbind option_bind].
  rewrite scan_int_unsigned; [|done|done]. cbn [mbind option_bind].
  rewrite scan_literal_app. cbn [mbind option_bind].
  change (list_ascii_of_string ",priority:" ++ ?rest)
    with (","%char :: (list_ascii_of_string "priority:" ++ rest)).
  rewrite scan_name_app; [| |by rewrite list_ascii_length|done].
  2:{ intros Hnil. apply Hne.
      by rewrite <-(string_of_list_ascii_of_string (ev_name event)), Hnil. }
  cbn [mbind option_bind].
  change (","%char :: (list_ascii_of_string "priority:" ++ ?rest))
    with (list_ascii_of_string ",priority:" ++ rest).
  rewrite scan_literal_app. cbn [mbind option_bind].
  rewrite scan_int_signed; [|done]. cbn [mbind option_bind].
  rewrite scan_literal_app. cbn [mbind option_bind].
  rewrite scan_int_signed; [|done]. cbn [mbind option_bind].
  by rewrite string_of_list_ascii_of_string.
Qed.

Lemma format_event_removelast event :
  removelast (format_event event)
  = list_ascii_of_string "EVENT{id:" ++ print_unsigned (ev_id event)
    ++ list_ascii_of_string ",name:" ++ list_ascii_of_string (ev_name event)
    ++ list_ascii_of_string ",priority:" ++ print_signed (ev_priority event)
    ++ list_ascii_of_string ",timestamp:" ++ print_signed (ev_timestamp event).
Proof.
  unfold format_event.
  assert (∀ l : list ascii, l ++ list_ascii_of_string "}" ≠ []) as Hne
    by (by intros [|??]).
  repeat (rewrite removelast_app;
          [|rewrite ?(assoc_L (++)); by apply Hne]).
  rewrite removelast_app by done. cbn [removelast list_ascii_of_string].
  by rewrite app_nil_r.
Qed.

(** X22. [goon_event_deserialize] does not check the closing brace and
    ignores what follows the timestamp: a text that agrees with the
    serialization of an event up to the last digit of the timestamp and
    does not go on with a digit deserializes to the same event as the
    serialization itself.  In particular the text cut by one character, as
    [goon_event_serialize] leaves it in a buffer of exactly its length, is
    accepted. *)
Theorem deserialize_ignores_tail event tail g now mem :
  event_wf event →
  ev_name event ≠ EmptyString →
  ","%char ∉ list_ascii_of_string (ev_name event) →
  no_digit_ahead tail →
  goon_event_deserialize (Some (removelast (format_event event) ++ tail))
    g now mem
  = goon_event_deserialize (Some (format_event event)) g now mem.
Proof.
  intros (Hid & _ & _ & Hlen) Hne Hcomma Htail.
  unfold GOON_MAX_NAME_LEN in Hlen. simpl in Hlen.
  unfold goon_event_deserialize.
  rewrite sscanf_format_event by (done || lia).
  rewrite format_event_removelast, <-!(assoc_L (++)).
  by rewrite sscanf_event_open by (done || lia).
Qed.

Lemma deserialize_ignores_tail_witness :
  let event := sample_event 7 "hello world" GOON_PRIORITY_HIGH in
  (goon_event_serialize event true
     (Z.of_nat (length (format_event event)))).2
  = Some (removelast (format_event event) ++ [])
  ∧ goon_event_deserialize (Some (removelast (format_event event) ++ []))
      sample_globals 1800000000 true
    = goon_event_deserialize (Some (format_event event))
        sample_globals 1800000000 true.
Proof.
  split; [vm_compute; reflexivity|].
  apply (deserialize_ignores_tail
           (sample_event 7 "hello world" GOON_PRIORITY_HIGH) []).
  - unfold event_wf. split_and!; try (by vm_compute). simpl. lia.
  - discriminate.
  - apply (bool_decide_unpack _). vm_compute. exact I.
  - exact I.
Defined.

(** ** The duplicate detector *)

Lemma strncpy_length_min n s :
  String.length (strncpy n s) = (n `min` String.length s)%nat.
Proof.
  revert s. induction n as [|n IH]; intros [|c s]; simpl; [done..|].
  by rewrite IH.
Qed.

Lemma string_app_length (s1 s2 : string) :
  String.length (s1 ++ s2) = (String.length s1 + String.length s2)%nat.
Proof. induction s1 as [|c s1 IH]; simpl; [done|]. by rewrite IH. Qed.

Lemma detector_key_length name :
  String.length (detector_key name)
  = ((GOON_MAX_NAME_LEN + 15) `min` (6 + String.length name))%nat.
Proof.
  unfold detector_key. rewrite strncpy_length_min, string_app_length.
  reflexivity.
Qed.

Lemma goon_cache_set_keys_fit cache key value size now mem :
  cache_keys_fit cache →
  cache_keys_fit (goon_cache_set cache key value size now mem).2.
Proof.
  intros (Hwf & Hcount & Hfit).
  split; [by apply goon_cache_set_wf|].
  destruct Hwf as (Hk & _). unfold goon_cache_set.
  assert (∀ s j, (j < GOON_CACHE_SIZE)%nat →
            (j ≠ s → short_key (read_key (c_keys cache) j)) →
            short_key (read_key (<[s := strncpy (GOON_MAX_NAME_LEN - 1) key]>
                                   (c_keys cache)) j)) as Hput.
  { intros s j Hj Hold. destruct (decide (s = j)) as [->|Hne].
    - rewrite read_key_insert_eq by lia. apply strncpy_length.
    - rewrite read_key_insert_ne by done. by apply Hold. }
  destruct (cache_find cache key) as [i|] eqn:Hf;
    [|destruct (Nat.leb_spec GOON_CACHE_SIZE (c_count cache)) as [Hfull|Hroom]];
    destruct mem; cbn [snd c_count c_keys];
    (split; [lia|]); try done;
    intros j Hj; apply Hput; try lia; intros Hne; apply Hfit; lia.
Qed.

(** X23. The duplicate detector flags the repetition of a name of at most
    121 characters: once an event has gone through
    [goon_handler_duplicate_detector], with memory for the marker, the next
    event of the same name that goes through it is answered [GOON_ERROR];
    the first one is answered [GOON_SUCCESS] when its key is not cached. *)
Theorem duplicate_detector_flags_repeat m event1 event2 ev1 ev2
    user_data1 user_data2 get1 set1 get2 set2 mem2 :
  m_events m !! event1 = Some ev1 →
  m_events m !! event2 = Some ev2 →
  ev_name ev2 = ev_name ev1 →
  (String.length (ev_name ev1) ≤ 121)%nat →
  cache_wf (ctx_cache (m_ctx m)) →
  (c_count (ctx_cache (m_ctx m)) ≤ GOON_CACHE_SIZE)%nat →
  let r1 := goon_handler_duplicate_detector get1 set1 true m event1
              user_data1 in
  let r2 := goon_handler_duplicate_detector get2 set2 mem2 r1.2 event2
              user_data2 in
  r2.1 = GOON_ERROR
  ∧ (cache_find (ctx_cache (m_ctx m)) (detector_key (ev_name ev1)) = None →
     r1.1 = GOON_SUCCESS).
Proof.
  intros Hev1 Hev2 Hname Hlen Hwf Hcount r1 r2.
  set (cache := ctx_cache (m_ctx m)) in *.
  set (key := detector_key (ev_name ev1)).
  assert (short_key key) as Hshort.
  { unfold short_key, key. rewrite detector_key_length.
    unfold GOON_MAX_NAME_LEN. lia. }
  assert (m_events r1.2 = m_events m
          ∧ ∃ v s, (goon_cache_get (ctx_cache (m_ctx r1.2)) key get2).1
                   = Some (Some v, s)) as [HE Hcached].
  { subst r1. unfold goon_handler_duplicate_detector. rewrite Hev1.
    fold cache key.
    assert (∀ c, cache_wf c → (c_count c ≤ GOON_CACHE_SIZE)%nat →
              ∃ v s, (goon_cache_get
                        (goon_cache_set c key detector_marker 4 set1 true).2
                        key get2).1 = Some (Some v, s)) as Hset.
    { intros c Hc Hn.
      destruct (cache_find_set_same c key detector_marker 4 set1 Hc Hn Hshort)
        as (_ & Hf & Hv & Hs & _).
      unfold goon_cache_get. rewrite Hf. cbn [fst]. rewrite Hv, Hs. eauto. }
    unfold goon_cache_get at 1 2 3.
    destruct (cache_find cache key) as [i|] eqn:Hf.
    - assert (cache_wf {| c_keys := c_keys cache; c_values := c_values cache;
                          c_timestamps := <[i := get1]> (c_timestamps cache);
                          c_sizes := c_sizes cache;
                          c_count := c_count cache |}) as Hwf1.
      { destruct Hwf as (? & ? & ? & ?). unfold cache_wf. cbn.
        by rewrite length_insert. }
      destruct (mjoin (c_values cache !! i)) as [v|] eqn:Hv.
      + cbn [fst snd set_ctx m_events m_ctx set_ctx_cache ctx_cache].
        split; [done|]. exists v, (default 0 (c_sizes cache !! i)).
        unfold goon_cache_get.
        change (cache_find _ key) with (cache_find cache key).
        rewrite Hf. cbn [fst c_values c_sizes]. by rewrite Hv.
      + cbn [fst snd set_ctx m_events m_ctx set_ctx_cache ctx_cache].
        split; [done|]. by apply Hset.
    - cbn [fst snd set_ctx m_events m_ctx set_ctx_cache ctx_cache].
      split; [done|]. by apply Hset. }
  split.
  - destruct Hcached as (v & s & Hget). subst r2.
    unfold goon_handler_duplicate_detector at 1.
    rewrite HE, Hev2, Hname. fold key.
    destruct (goon_cache_get (ctx_cache (m_ctx r1.2)) key get2)
      as [[[[?|] ?]|] ?]; cbn in Hget; done.
  - intros Hf. subst r1. unfold goon_handler_duplicate_detector.
    rewrite Hev1. fold cache key. unfold goon_cache_get. by rewrite Hf.
Qed.

Lemma duplicate_detector_flags_repeat_witness :
  let r1 := goon_handler_duplicate_detector 100 100 true sample_machine
              1%positive None in
  let r2 := goon_handler_duplicate_detector 101 101 true r1.2
              1%positive None in
  r1.1 = GOON_SUCCESS ∧ r2.1 = GOON_ERROR.
Proof.
  destruct (duplicate_detector_flags_repeat sample_machine 1%positive
              1%positive (sample_event 1 "hello" GOON_PRIORITY_NORMAL)
              (sample_event 1 "hello" GOON_PRIORITY_NORMAL)
              None None 100 100 101 101 true) as [Hsecond Hfirst].
  - reflexivity.
  - reflexivity.
  - reflexivity.
  - vm_compute. lia.
  - exact goon_cache_create_wf.
  - vm_compute. lia.
  - split; [apply Hfirst; vm_compute; reflexivity|exact Hsecond].
Defined.

(** X24. The duplicate detector never flags a name of more than 121
    characters: the key ["event_" ++ name] has more than 127 characters,
    the cache stores its first 127, and the lookup with the whole key
    matches no stored key.  The event is answered [GOON_SUCCESS] however
    often its name has been seen, and the hypothesis on the cache holds
    again afterwards. *)
Theorem duplicate_detector_misses_long_names m event ev user_data
    now_get now_set mem :
  m_events m !! event = Some ev →
  (121 < String.length (ev_name ev))%nat →
  cache_keys_fit (ctx_cache (m_ctx m)) →
  let r := goon_handler_duplicate_detector now_get now_set mem m event
             user_data in
  r.1 = GOON_SUCCESS
  ∧ cache_keys_fit (ctx_cache (m_ctx r.2))
  ∧ m_events r.2 = m_events m.
Proof.
  intros Hev Hlen Hfit r. subst r.
  unfold goon_handler_duplicate_detector. rewrite Hev.
  set (key := detector_key (ev_name ev)).
  assert (cache_find (ctx_cache (m_ctx m)) key = None) as Hf.
  { apply cache_find_absent. intros j Hj Hkey.
    destruct Hfit as (_ & _ & Hshort). specialize (Hshort j Hj).
    rewrite Hkey in Hshort. unfold short_key, key in Hshort.
    rewrite detector_key_length in Hshort.
    unfold GOON_MAX_NAME_LEN in Hshort. lia. }
  unfold goon_cache_get. rewrite Hf.
  cbn [fst snd set_ctx m_events m_ctx set_ctx_cache ctx_cache].
  split_and!; [done| |done]. by apply goon_cache_set_keys_fit.
Qed.

Lemma duplicate_detector_misses_long_names_witness :
  let r1 := goon_handler_duplicate_detector 100 100 true sample_long_name
              3%positive None in
  let r2 := goon_handler_duplicate_detector 101 101 true r1.2
              3%positive None in
  r1.1 = GOON_SUCCESS ∧ r2.1 = GOON_SUCCESS.
Proof.
  intros r1 r2.
  destruct (duplicate_detector_misses_long_names sample_long_name 3%positive
              (sample_event 3 (string_of_list_ascii (replicate 125 "n"%char))
                 GOON_PRIORITY_NORMAL) None 100 100 true)
    as (Hfirst & Hfit & HE).
  - reflexivity.
  - vm_compute. lia.
  - split; [exact goon_cache_create_wf|]. split; [vm_compute; lia|].
    intros j Hj. cbn in Hj. lia.
  - fold r1 in Hfirst, Hfit, HE. split; [exact Hfirst|].
    apply (duplicate_detector_misses_long_names r1.2 3%positive
             (sample_event 3 (string_of_list_ascii (replicate 125 "n"%char))
                GOON_PRIORITY_NORMAL) None 101 101 true).
    + rewrite HE. reflexivity.
    + vm_compute. lia.
    + exact Hfit.
Defined.

(** ** Configuration store *)

Lemma read_entry_insert_eq entries i e :
  (i < length entries)%nat → read_entry (<[i := e]> entries) i = e.
Proof. intros. unfold read_entry. by rewrite list_lookup_insert_eq. Qed.

Lemma read_entry_insert_ne entries i j e :
  i ≠ j → read_entry (<[i := e]> entries) j = read_entry entries j.
Proof. intros. unfold read_entry. by rewrite list_lookup_insert_ne. Qed.

(** X25. A value set is the value read, cut to 4095 characters: for a key
    of at most 127 characters, [goon_config_set] either returns
    [GOON_SUCCESS], and then [goon_config_get] of the key returns the first
    4095 characters of the value, or it returns [GOON_ERROR_OVERFLOW] and
    changes nothing, which happens only when the key is absent and the
    store is full. *)
Theorem config_set_get config key value :
  config_wf config → short_key key →
  let r := goon_config_set config key value in
  (r.1 = GOON_SUCCESS
   ∧ goon_config_get r.2 key = Some (strncpy (GOON_BUFFER_SIZE - 1) value))
  ∨ (r.1 = GOON_ERROR_OVERFLOW ∧ r.2 = config
     ∧ goon_config_get config key = None
     ∧ cfg_count config = cfg_capacity config).
Proof.
  intros [Hlen Hcount] Hshort r. subst r.
  unfold goon_config_set, goon_config_get.
  destruct (config_find config key) as [i|] eqn:Hf;
    [|destruct (Nat.leb_spec (cfg_capacity config) (cfg_count config))
        as [Hfull|Hroom]].
  - left. split; [done|]. cbn [snd].
    unfold config_find in Hf.
    apply first_index_Some in Hf as (Hi & Htest & Hlow).
    assert (config_find
              {| cfg_entries :=
                   <[i := {| e_key := e_key (read_entry (cfg_entries config) i);
                             e_value := strncpy (GOON_BUFFER_SIZE - 1) value |}]>
                     (cfg_entries config);
                 cfg_count := cfg_count config;
                 cfg_capacity := cfg_capacity config |} key = Some i) as ->.
    { apply first_index_intro; cbn [cfg_count cfg_entries]; [lia| |].
      - by rewrite read_entry_insert_eq by lia.
      - intros j Hj. rewrite read_entry_insert_ne by lia. by apply Hlow. }
    cbn [cfg_entries]. by rewrite read_entry_insert_eq by lia.
  - right. cbn [fst snd]. split_and!; [done..|lia].
  - left. split; [done|]. cbn [snd].
    unfold config_find in Hf.
    pose proof (first_index_None _ _ _ Hf) as Hno.
    assert (config_find
              {| cfg_entries :=
                   <[cfg_count config :=
                       {| e_key := strncpy (GOON_MAX_NAME_LEN - 1) key;
                          e_value := strncpy (GOON_BUFFER_SIZE - 1) value |}]>
                     (cfg_entries config);
                 cfg_count := S (cfg_count config);
                 cfg_capacity := cfg_capacity config |} key
            = Some (cfg_count config)) as ->.
    { apply first_index_intro; cbn [cfg_count cfg_entries]; [lia| |].
      - rewrite read_entry_insert_eq by lia. cbn [e_key].
        rewrite strncpy_short by done. unfold streq.
        by apply bool_decide_eq_true.
      - intros j Hj. rewrite read_entry_insert_ne by lia. apply Hno. lia. }
    cbn [cfg_entries]. by rewrite read_entry_insert_eq by lia.
Qed.

Lemma config_set_get_witness :
  goon_config_get (goon_config_set (goon_config_create 2) "mode" "fast").2
    "mode"
  = Some "fast"%string.
Proof.
  destruct (config_set_get (goon_config_create 2) "mode" "fast")
    as [[_ Hget]|[Hrc _]].
  - split; [reflexivity|cbn; lia].
  - unfold short_key. vm_compute. lia.
  - exact Hget.
  - vm_compute in Hrc. discriminate Hrc.
Defined.

(** ** The prefix filter *)

Lemma strncmp_eq_prefix p : ∀ name,
  strncmp_eq (String.length p) name p = true ↔ ∃ rest, name = (p ++ rest)%string.
Proof.
  induction p as [|c p IH]; intros name; cbn [String.length strncmp_eq].
  - split; [intros _; by exists name|done].
  - destruct name as [|d name].
    + split; [done|]. by intros (rest & [=]).
    + rewrite andb_true_iff, IH. split.
      * intros [Heq (rest & ->)]. apply Ascii.eqb_eq in Heq as ->.
        by exists rest.
      * intros (rest & [= -> ->]). split; [apply Ascii.eqb_refl|by exists rest].
Qed.

(** X26. [goon_handler_filter] lets an event pass exactly when its name
    begins with the prefix: it returns [GOON_SUCCESS] when the name is the
    prefix followed by anything, and [GOON_ERROR] otherwise; with no prefix
    every event passes.  The machine is not changed. *)
Theorem filter_passes_prefix m event ev filter_prefix :
  m_events m !! event = Some ev →
  let r := goon_handler_filter m event filter_prefix in
  r.2 = m
  ∧ (r.1 = GOON_SUCCESS ∨ r.1 = GOON_ERROR)
  ∧ (r.1 = GOON_SUCCESS ↔
     ∀ p, filter_prefix = Some p → ∃ rest, ev_name ev = (p ++ rest)%string).
Proof.
  intros Hev r. subst r. unfold goon_handler_filter. rewrite Hev.
  destruct filter_prefix as [p|]; [|by split_and!; [|left|]].
  destruct (strncmp_eq (String.length p) (ev_name ev) p) eqn:Hcmp; cbn [fst snd].
  - split_and!; [done|by left|]. split; [|done].
    intros _ p' [= <-]. by apply strncmp_eq_prefix.
  - split_and!; [done|by right|]. split; [done|].
    intros Hpre. specialize (Hpre p eq_refl).
    apply strncmp_eq_prefix in Hpre. congruence.
Qed.

Lemma filter_passes_prefix_witness :
  (goon_handler_filter sample_machine 1%positive (Some "hel"%string)).1
  = GOON_SUCCESS.
Proof.
  destruct (filter_passes_prefix sample_machine 1%positive
              (sample_event 1 "hello" GOON_PRIORITY_NORMAL)
              (Some "hel"%string) eq_refl) as (_ & _ & Hiff).
  apply Hiff. intros p [= <-]. by exists "lo"%string.
Defined.

(** ** The rate limiter *)

Lemma rate_limiter_run_spec n : ∀ st now max_per_second,
  rl_last_event_time st = now →
  0 ≤ rl_event_count st →
  rl_event_count st + Z.of_nat n < 2 ^ 31 →
  let limit := default 10 max_per_second in
  let r := rate_limiter_run n st now max_per_second in
  r.1 = (λ k, if limit <? rl_event_count st + Z.of_nat k
              then GOON_ERROR else GOON_SUCCESS) <$> seq 1 n
  ∧ r.2 = {| rl_last_event_time := now;
             rl_event_count := rl_event_count st + Z.of_nat n |}.
Proof.
  induction n as [|n IH]; intros st now max_per_second Hlast Hc Hn limit r;
    subst r now.
  - cbn. split; [done|]. destruct st; cbn in *. f_equal. lia.
  - cbn [rate_limiter_run]. unfold goon_handler_rate_limiter.
    rewrite Z.eqb_refl. cbn [negb].
    rewrite swrap_small by lia. fold limit. cbn [rl_event_count].
    destruct (IH {| rl_last_event_time := rl_last_event_time st;
                    rl_event_count := rl_event_count st + 1 |}
                (rl_last_event_time st) max_per_second eq_refl
                ltac:(cbn; lia) ltac:(cbn; lia)) as [Hrcs Hst].
    fold limit in Hrcs. cbn [rl_event_count rl_last_event_time] in Hrcs, Hst.
    assert (∀ k, rl_event_count st + 1 + Z.of_nat k
                 = rl_event_count st + Z.of_nat (S k)) as Hk by (intros; lia).
    replace (rl_event_count st + Z.of_nat (S n))
      with (rl_event_count st + 1 + Z.of_nat n) by lia.
    cbn [seq fmap list_fmap]. rewrite <-fmap_S_seq, <-list_fmap_compose.
    rewrite Z.add_comm, (Z.add_comm (rl_event_count st) (Z.of_nat 1)) at 1.
    change (Z.of_nat 1) with 1. rewrite (Z.add_comm 1).
    destruct (limit <? rl_event_count st + 1);
      destruct (rate_limiter_run n _ _ _) as [rcs st2];
      cbn [fst snd] in *; subst rcs st2;
      (split; [f_equal|done]);
      apply list_fmap_ext; intros _ k _; cbn [compose]; by rewrite Hk.
Qed.

(** X27. Within one second [goon_handler_rate_limiter] lets the first
    [limit] events pass and refuses the others: of [n] calls at a time
    [now] that differs from the time of the call before, call number [k]
    returns [GOON_SUCCESS] when [k ≤ limit] and [GOON_ERROR] otherwise,
    where the limit is 10 when [user_data] is [NULL]; the counter is shared
    by all callers. *)
Theorem rate_limiter_window n st now max_per_second :
  rl_last_event_time st ≠ now →
  Z.of_nat n < 2 ^ 31 →
  let limit := default 10 max_per_second in
  (rate_limiter_run n st now max_per_second).1
  = (λ k, if limit <? Z.of_nat k then GOON_ERROR else GOON_SUCCESS)
      <$> seq 1 n.
Proof.
  intros Hlast Hn limit. destruct n as [|n]; [done|].
  cbn [rate_limiter_run]. unfold goon_handler_rate_limiter.
  rewrite (proj2 (Z.eqb_neq _ _)) by done. cbn [negb rl_event_count
    rl_last_event_time].
  change (swrap 32 (0 + 1)) with 1. fold limit.
  set (st1 := {| rl_last_event_time := now; rl_event_count := 1 |}).
  destruct (rate_limiter_run_spec n st1 now max_per_second eq_refl
              ltac:(cbn; lia) ltac:(cbn; lia)) as [Hrcs _].
  fold limit in Hrcs.
  cbn [seq fmap list_fmap]. change (Z.of_nat 1) with 1.
  rewrite <-fmap_S_seq, <-list_fmap_compose.
  destruct (limit <? 1);
    destruct (rate_limiter_run n st1 now max_per_second) as [rcs st2];
    cbn [fst snd] in *; subst rcs; f_equal;
    apply list_fmap_ext; intros _ k _; cbn [compose st1 rl_event_count];
    replace (1 + Z.of_nat k) with (Z.of_nat (S k)) by lia; done.
Qed.

Lemma rate_limiter_window_witness :
  (rate_limiter_run 4 rate_state_init 1700000000 (Some 2)).1
  = [GOON_SUCCESS; GOON_SUCCESS; GOON_ERROR; GOON_ERROR].
Proof.
  rewrite (rate_limiter_window 4 rate_state_init 1700000000 (Some 2));
    [reflexivity|by vm_compute|by vm_compute].
Defined.

(** ** Worker *)


